(** * kaseev::BST — an AVL-balanced ordered map on shared/weak pointers

    Source: [src/kaseev.andrey/S4/BinarySearchTree.hpp].

    The container owns a graph of heap nodes.  Every node is held by one
    owning slot ([root], a [left] or a [right]) and carries a non-owning
    [parent] reference.  The embedding keeps the node store explicit: a node
    lives at an address, owning and non-owning references are addresses, and
    every member function is a state transformer over the store and the
    fields of [*this].  Above the store sits a second layer, the tree a
    region of the store unfolds to, on which the ordering arguments are
    carried out and to which the store-level code is related by simulation. *)

From stdpp Require Import gmap.
From Stdlib Require Import ZArith Lia.

Local Open Scope Z_scope.

(** ** Outcomes of running a member function *)

Inductive Exn : Type :=
| KeyNotFound.   (* std::runtime_error("Key not found") *)

Inductive Outcome (S A : Type) : Type :=
| Ret (x : A) (s : S)          (* normal return *)
| Throw (e : Exn) (s : S)      (* an exception leaves the function *)
| Undefined                    (* a null pointer was dereferenced *)
| OutOfFuel.                   (* the recursion budget of the model ran out *)

Arguments Ret {S A} x s.
Arguments Throw {S A} e s.
Arguments Undefined {S A}.
Arguments OutOfFuel {S A}.

Definition addr := nat.
Definition ptr := option addr.

Definition ptr_eqb (p q : ptr) : bool :=
  match p, q with
  | Some a, Some b => Nat.eqb a b
  | None, None => true
  | _, _ => false
  end.

(** [size_t] is taken as 64 bits wide; [++nodeCount] wraps. *)
Definition size_max : Z := 2 ^ 64.
Definition size_incr (n : Z) : Z := (n + 1) mod size_max.

Section BST.

Variables Key Value : Type.
(** [Compare comp]: the comparator is stateless, [comp a b] is a < b. *)
Variable comp : Key -> Key -> bool.

(** ** Data model *)

(** [struct Node] (lines 44-53).  [int height] is kept as an integer without
    bound: a stored height never exceeds the number of nodes. *)
Record Node : Type := mkNode {
  data : Key * Value;
  left : ptr;
  right : ptr;
  parent : ptr;
  height : Z
}.

Definition with_data (n : Node) (d : Key * Value) : Node :=
  mkNode d (left n) (right n) (parent n) (height n).
Definition with_left (n : Node) (p : ptr) : Node :=
  mkNode (data n) p (right n) (parent n) (height n).
Definition with_right (n : Node) (p : ptr) : Node :=
  mkNode (data n) (left n) p (parent n) (height n).
Definition with_parent (n : Node) (p : ptr) : Node :=
  mkNode (data n) (left n) (right n) p (height n).
Definition with_height (n : Node) (h : Z) : Node :=
  mkNode (data n) (left n) (right n) (parent n) h.

(** The fields of [*this] (lines 55-56) together with the node store.
    [brk] is the next address handed out; addresses are never reused, so a
    weak reference to a destroyed node stays expired. *)
Record St : Type := mkSt {
  root : ptr;
  nodeCount : Z;
  mem : gmap addr Node;
  brk : addr
}.

Definition set_root (s : St) (p : ptr) : St :=
  mkSt p (nodeCount s) (mem s) (brk s).
Definition set_nodeCount (s : St) (n : Z) : St :=
  mkSt (root s) n (mem s) (brk s).
Definition set_mem (s : St) (m : gmap addr Node) : St :=
  mkSt (root s) (nodeCount s) m (brk s).

Definition M (A : Type) : Type := St -> Outcome St A.

Definition ret {A} (x : A) : M A := fun s => Ret x s.

Definition bind {A B} (c : M A) (k : A -> M B) : M B :=
  fun s =>
    match c s with
    | Ret x s' => k x s'
    | Throw e s' => Throw e s'
    | Undefined => Undefined
    | OutOfFuel => OutOfFuel
    end.

Notation "x <- c ; k" := (bind c (fun x => k))
  (at level 20, c at level 100, k at level 200, only parsing).
Notation "c ;;; k" := (bind c (fun _ => k))
  (at level 100, k at level 200, right associativity, only parsing).

Definition throw {A} (e : Exn) : M A := fun s => Throw e s.
Definition undefined {A} : M A := fun _ => Undefined.
Definition out_of_fuel {A} : M A := fun _ => OutOfFuel.

(** *** Store primitives *)

(** [p->...]: reading through a null or dead pointer is undefined. *)
Definition load (p : ptr) : M Node :=
  fun s =>
    match p with
    | None => Undefined
    | Some a =>
        match mem s !! a with
        | Some n => Ret n s
        | None => Undefined
        end
    end.

Definition store (a : addr) (n : Node) : M unit :=
  fun s => Ret tt (set_mem s (<[a := n]> (mem s))).

Definition modify (p : ptr) (f : Node -> Node) : M unit :=
  match p with
  | None => undefined
  | Some a => n <- load p ; store a (f n)
  end.

Definition set_left (p q : ptr) : M unit := modify p (fun n => with_left n q).
Definition set_right (p q : ptr) : M unit := modify p (fun n => with_right n q).
Definition set_parent (p q : ptr) : M unit := modify p (fun n => with_parent n q).
Definition set_height (p : ptr) (h : Z) : M unit := modify p (fun n => with_height n h).
Definition set_data (p : ptr) (d : Key * Value) : M unit := modify p (fun n => with_data n d).

(** [std::move(p->left)] into a fresh owner: the slot is left null. *)
Definition move_left (p : ptr) : M ptr :=
  n <- load p ; set_left p None ;;; ret (left n).
Definition move_right (p : ptr) : M ptr :=
  n <- load p ; set_right p None ;;; ret (right n).

(** Modelled from the spec: the constructor
    [Node(const Key &, const Value &, std::shared_ptr< Node > parent = nullptr)]
    is declared at line 52 and defined outside this header.  The spec gives a
    node no children on creation and a height of 1 + max(0, 0).
    [std::make_shared< Node >(key, value, parent)] places it at a fresh
    address. *)
Definition make_node (key : Key) (value : Value) (par : ptr) : M ptr :=
  fun s =>
    Ret (Some (brk s))
        (mkSt (root s) (nodeCount s)
              (<[brk s := mkNode (key, value) None None par 1]> (mem s))
              (S (brk s))).

(** The last owner of a node goes out of scope. *)
Definition destroy (p : ptr) : M unit :=
  fun s =>
    match p with
    | None => Ret tt s
    | Some a => Ret tt (set_mem s (delete a (mem s)))
    end.

(** [std::weak_ptr::lock]: null once the node is gone. *)
Definition lock (w : ptr) : M ptr :=
  fun s =>
    match w with
    | None => Ret None s
    | Some a =>
        match mem s !! a with
        | Some _ => Ret (Some a) s
        | None => Ret None s
        end
    end.

(** ** Node storage and shape maintenance *)

(** [height] (lines 276-280). *)
Definition height_of (n : ptr) : M Z :=
  match n with
  | None => ret 0
  | Some _ => nd <- load n ; ret (height nd)
  end.

(** [balanceFactor] (lines 282-286). *)
Definition balanceFactor (n : ptr) : M Z :=
  match n with
  | None => ret 0
  | Some _ =>
      nd <- load n ;
      hl <- height_of (left nd) ;
      hr <- height_of (right nd) ;
      ret (hl - hr)
  end.

(** [updateHeight] (lines 288-294). *)
Definition updateHeight (n : ptr) : M unit :=
  match n with
  | None => ret tt
  | Some _ =>
      nd <- load n ;
      hl <- height_of (left nd) ;
      hr <- height_of (right nd) ;
      set_height n (1 + Z.max hl hr)
  end.

(** [rotateRight] (lines 296-311). *)
Definition rotateRight (y : ptr) : M ptr :=
  x <- move_left y ;                       (* x = std::move(y->left) *)
  xr <- move_right x ;                     (* y->left = std::move(x->right) *)
  set_left y xr ;;;
  (match xr with
   | Some _ => set_parent xr y              (* y->left->parent = y *)
   | None => ret tt
   end) ;;;
  set_right x y ;;;                         (* x->right = std::move(y) *)
  xn <- load x ;
  set_parent (right xn) x ;;;               (* x->right->parent = x *)
  xn <- load x ;
  updateHeight (right xn) ;;;
  updateHeight x ;;;
  xn <- load x ;
  rn <- load (right xn) ;
  w <- lock (parent rn) ;                  (* x->right->parent.lock() *)
  set_parent x w ;;;
  ret x.

(** [rotateLeft] (lines 313-328). *)
Definition rotateLeft (x : ptr) : M ptr :=
  y <- move_right x ;                      (* y = std::move(x->right) *)
  yl <- move_left y ;                      (* x->right = std::move(y->left) *)
  set_right x yl ;;;
  (match yl with
   | Some _ => set_parent yl x              (* x->right->parent = x *)
   | None => ret tt
   end) ;;;
  set_left y x ;;;                          (* y->left = std::move(x) *)
  yn <- load y ;
  set_parent (left yn) y ;;;                (* y->left->parent = y *)
  yn <- load y ;
  updateHeight (left yn) ;;;
  updateHeight y ;;;
  yn <- load y ;
  ln <- load (left yn) ;
  w <- lock (parent ln) ;                  (* y->left->parent.lock() *)
  set_parent y w ;;;
  ret y.

(** [balance] (lines 330-352). *)
Definition balance (n : ptr) : M ptr :=
  updateHeight n ;;;
  bf <- balanceFactor n ;
  if 1 <? bf then
    nd <- load n ;
    bl <- balanceFactor (left nd) ;
    (if bl <? 0 then
       l <- move_left n ;
       l' <- rotateLeft l ;
       set_left n l'
     else ret tt) ;;;
    newRoot <- rotateRight n ;
    set_parent newRoot None ;;;             (* newRoot->parent.reset() *)
    ret newRoot
  else
    bf <- balanceFactor n ;
    if bf <? -1 then
      nd <- load n ;
      br <- balanceFactor (right nd) ;
      (if 0 <? br then
         r <- move_right n ;
         r' <- rotateRight r ;
         set_right n r'
       else ret tt) ;;;
      newRoot <- rotateLeft n ;
      set_parent newRoot None ;;;
      ret newRoot
    else ret n.

(** [minValueNode] (lines 394-402). *)
Fixpoint minValueNode (fuel : nat) (node : ptr) : M ptr :=
  match fuel with
  | O => out_of_fuel
  | S fuel =>
      nd <- load node ;
      match left nd with
      | Some _ => minValueNode fuel (left nd)
      | None => ret node
      end
  end.

(** The private [find(Node *, const Key &)] (lines 404-418). *)
Fixpoint find_node (fuel : nat) (node : ptr) (key : Key) : M ptr :=
  match fuel with
  | O => out_of_fuel
  | S fuel =>
      match node with
      | None => ret None
      | Some _ =>
          nd <- load node ;
          if comp key (fst (data nd)) then find_node fuel (left nd) key
          else if comp (fst (data nd)) key then find_node fuel (right nd) key
          else ret node
      end
  end.

(** [clone] (lines 420-431): neither the height nor a parent is passed on
    to the new node. *)
Fixpoint clone (fuel : nat) (node : ptr) : M ptr :=
  match fuel with
  | O => out_of_fuel
  | S fuel =>
      match node with
      | None => ret None
      | Some _ =>
          nd <- load node ;
          newNode <- make_node (fst (data nd)) (snd (data nd)) None ;
          nd <- load node ;
          l <- clone fuel (left nd) ;
          set_left newNode l ;;;
          nd <- load node ;
          r <- clone fuel (right nd) ;
          set_right newNode r ;;;
          ret newNode
      end
  end.

(** ** Mutation *)

(** The private [insert] (lines 354-370). *)
Fixpoint insert_node (fuel : nat) (node : ptr) (key : Key) (value : Value)
    (par : ptr) : M ptr :=
  match fuel with
  | O => out_of_fuel
  | S fuel =>
      match node with
      | None =>
          (fun s => Ret tt (set_nodeCount s (size_incr (nodeCount s)))) ;;;
          make_node key value par
      | Some _ =>
          nd <- load node ;
          (if comp key (fst (data nd)) then
             l <- insert_node fuel (left nd) key value node ;
             set_left node l
           else if comp (fst (data nd)) key then
             r <- insert_node fuel (right nd) key value node ;
             set_right node r
           else
             set_data node (fst (data nd), value)) ;;;
          balance node
      end
  end.

(** The private [erase] (lines 372-392).  The count is not touched. *)
Fixpoint erase_node (fuel : nat) (node : ptr) (key : Key) : M ptr :=
  match fuel with
  | O => out_of_fuel
  | S fuel =>
      match node with
      | None => ret None
      | Some _ =>
          nd <- load node ;
          if comp key (fst (data nd)) then
            l <- move_left node ;
            l' <- erase_node fuel l key ;
            set_left node l' ;;;
            balance node
          else if comp (fst (data nd)) key then
            r <- move_right node ;
            r' <- erase_node fuel r key ;
            set_right node r' ;;;
            balance node
          else
            match left nd, right nd with
            | None, _ =>
                r <- move_right node ;
                destroy node ;;;
                ret r
            | Some _, None =>
                l <- move_left node ;
                destroy node ;;;
                ret l
            | Some _, Some _ =>
                mn <- minValueNode fuel (right nd) ;
                mnd <- load mn ;
                nd <- load node ;
                set_data node (fst (data nd), snd (data mnd)) ;;;
                nd <- load node ;
                set_data node (fst (data mnd), snd (data nd)) ;;;
                r <- move_right node ;
                mnd <- load mn ;
                r' <- erase_node fuel r (fst (data mnd)) ;
                set_right node r' ;;;
                balance node
            end
      end
  end.

(** Recursion in the model is bounded by the number of addresses handed out
    so far, which no path of an owned tree can exceed. *)
Definition budget : M nat := fun s => Ret (S (brk s)) s.

Definition get_root : M ptr := fun s => Ret (root s) s.
Definition put_root (p : ptr) : M unit := fun s => Ret tt (set_root s p).

(** [push] (lines 133-137). *)
Definition push (key : Key) (value : Value) : M unit :=
  fuel <- budget ;
  r <- get_root ;
  put_root None ;;;
  r' <- insert_node fuel r key value None ;
  put_root r'.

(** The public [insert] (lines 264-268). *)
Definition insert (pair : Key * Value) : M unit :=
  push (fst pair) (snd pair).

(** [drop] (lines 160-164). *)
Definition drop (key : Key) : M unit :=
  fuel <- budget ;
  r <- get_root ;
  put_root None ;;;
  r' <- erase_node fuel r key ;
  put_root r'.

(** The public [erase] (lines 270-274). *)
Definition erase (key : Key) : M unit := drop key.

(** [empty] and [size] (lines 166-176). *)
Definition empty : M bool := fun s => Ret (nodeCount s =? 0) s.
Definition size : M Z := fun s => Ret (nodeCount s) s.

(** The destructor chain started by [root.reset()]. *)
Fixpoint release (fuel : nat) (p : ptr) : M unit :=
  match fuel with
  | O => out_of_fuel
  | S fuel =>
      match p with
      | None => ret tt
      | Some _ =>
          nd <- load p ;
          release fuel (right nd) ;;;
          release fuel (left nd) ;;;
          destroy p
      end
  end.

(** [clear] (lines 178-183). *)
Definition clear : M unit :=
  fuel <- budget ;
  r <- get_root ;
  put_root None ;;;
  release fuel r ;;;
  fun s => Ret tt (set_nodeCount s 0).

(** [operator[] const] (lines 139-147). *)
Definition index_const (key : Key) : M Value :=
  fuel <- budget ;
  r <- get_root ;
  node <- find_node fuel r key ;
  match node with
  | None => throw KeyNotFound
  | Some _ => nd <- load node ; ret (snd (data nd))
  end.

(** The non-const [operator[]] (lines 149-158) has no embedding: its body
    calls [insert(std::move(root), key, Value())] (line 154), and no member
    named [insert] takes three arguments (line 40 declares one parameter,
    line 59 four, none with a default).  The member is ill-formed wherever it
    is instantiated. *)

(** The public [find] (lines 219-234); a position is a node or, as [None],
    the end. *)
Fixpoint find_loop (fuel : nat) (current : ptr) (key : Key) : M ptr :=
  match fuel with
  | O => out_of_fuel
  | S fuel =>
      match current with
      | None => ret None
      | Some _ =>
          nd <- load current ;
          if comp key (fst (data nd)) then find_loop fuel (left nd) key
          else if comp (fst (data nd)) key then find_loop fuel (right nd) key
          else ret current
      end
  end.

Definition find (key : Key) : M ptr :=
  fuel <- budget ;
  r <- get_root ;
  find_loop fuel r key.

(** [count] (lines 258-262). *)
Definition count (key : Key) : M Z :=
  it <- find key ;
  ret (if ptr_eqb it None then 0 else 1).

(** [begin] (lines 185-193 and 202-210), [end] (lines 195-200, 212-217). *)
Definition begin_ : M ptr :=
  fuel <- budget ;
  r <- get_root ;
  match r with
  | None => ret None
  | Some _ => minValueNode fuel r
  end.

Definition end_ : M ptr := ret None.

(** *** Positions

    [class Iterator] and [class ConstIterator] are declared at lines 22-23
    and defined outside this header. *)

(** Modelled from the spec: the walk up of "advance (successor)", for a
    node without a right child: "walk up via parent links until reaching a
    node that is its parent's left child (the next position is that parent),
    or until the top is reached with no such parent (next position is
    end)". *)
Fixpoint climb (fuel : nat) (n : ptr) : M ptr :=
  match fuel with
  | O => out_of_fuel
  | S fuel =>
      nd <- load n ;
      p <- lock (parent nd) ;
      match p with
      | None => ret None
      | Some _ =>
          pn <- load p ;
          if ptr_eqb (left pn) n then ret p else climb fuel p
      end
  end.

(** Modelled from the spec: [Iterator::operator++], "if the current node
    has a right child, the next position is that subtree's leftmost node;
    otherwise walk up". *)
Definition advance (fuel : nat) (it : ptr) : M ptr :=
  nd <- load it ;
  match right nd with
  | Some _ => minValueNode fuel (right nd)
  | None => climb fuel it
  end.

(** Modelled from the spec: [Iterator::operator*], the entry of the node. *)
Definition deref (it : ptr) : M (Key * Value) :=
  nd <- load it ; ret (data nd).

(** The client loop [for (it = begin(); it != end(); ++it)], collecting the
    entries it visits. *)
Fixpoint walk (fuel : nat) (it : ptr) : M (list (Key * Value)) :=
  match fuel with
  | O => out_of_fuel
  | S fuel' =>
      match it with
      | None => ret []
      | Some _ =>
          d <- deref it ;
          nxt <- advance fuel it ;
          rest <- walk fuel' nxt ;
          ret (d :: rest)
      end
  end.

Definition traverse (fuel : nat) : M (list (Key * Value)) :=
  it <- begin_ ;
  walk fuel it.

(** [equalRange] (lines 236-256). *)
Fixpoint equalRange_leftmost (fuel : nat) (node : ptr) : M ptr :=
  match fuel with
  | O => out_of_fuel
  | S fuel =>
      nd <- load node ;                     (* node->left *)
      match left nd with
      | Some _ => equalRange_leftmost fuel (left nd)
      | None => ret node
      end
  end.

(** The two [while] loops over positions.  [steps] bounds the rounds of the
    loop; every [++] inside gets the whole budget [fuel]. *)
Fixpoint equalRange_lower (fuel steps : nat) (lower : ptr) (key : Key) : M ptr :=
  match steps with
  | O => out_of_fuel
  | S steps' =>
      match lower with
      | None => ret lower
      | Some _ =>
          d <- deref lower ;
          if comp (fst d) key then
            nxt <- advance fuel lower ;
            equalRange_lower fuel steps' nxt key
          else ret lower
      end
  end.

Fixpoint equalRange_upper (fuel steps : nat) (upper : ptr) (key : Key) : M ptr :=
  match steps with
  | O => out_of_fuel
  | S steps' =>
      match upper with
      | None => ret upper
      | Some _ =>
          d <- deref upper ;
          if negb (comp key (fst d)) then
            nxt <- advance fuel upper ;
            equalRange_upper fuel steps' nxt key
          else ret upper
      end
  end.

Definition equalRange (key : Key) : M (ptr * ptr) :=
  fuel <- budget ;
  r <- get_root ;
  node <- equalRange_leftmost fuel r ;
  lower <- equalRange_lower fuel fuel node key ;
  upper <- equalRange_upper fuel fuel lower key ;
  ret (lower, upper).

(** ** Construction from another container *)

(** The fields of a second container object, [other]. *)
Record Obj : Type := mkObj {
  obj_root : ptr;
  obj_nodeCount : Z
}.

Definition this_obj (s : St) : Obj := mkObj (root s) (nodeCount s).
Definition with_this (o : Obj) (s : St) : St :=
  mkSt (obj_root o) (obj_nodeCount o) (mem s) (brk s).

(** [BST()] (lines 75-80). *)
Definition construct : M unit :=
  put_root None ;;;
  fun s => Ret tt (set_nodeCount s 0).

(** [BST(const BST &other)] (lines 82-90). *)
Definition copy_construct (other : Obj) : M unit :=
  (fun s => Ret tt (with_this (mkObj None (obj_nodeCount other)) s)) ;;;
  (fun s => Ret tt (set_nodeCount s (obj_nodeCount other))) ;;;
  fuel <- budget ;
  r <- clone fuel (obj_root other) ;
  put_root r.

(** [BST(const BST &&other)] (lines 92-99) has no embedding: line 98
    assigns [other.nodeCount] through the const reference, so the constructor
    is ill-formed wherever it is instantiated. *)

(** ** Assignment and destruction *)

(** [operator=(const BST &)] (lines 107-118).  [same] is the outcome of
    [this == &other].  The clone is built first; assigning it to [root] then
    lets go of the tree held before, whose nodes are destroyed. *)
Definition copy_assign (same : bool) (other : Obj) : M unit :=
  if same then ret tt
  else
    fuel <- budget ;
    r <- clone fuel (obj_root other) ;
    old <- get_root ;
    put_root r ;;;
    fuel <- budget ;
    release fuel old ;;;
    (fun s => Ret tt (set_nodeCount s (obj_nodeCount other))).

(** [operator=(BST &&)] (lines 120-131).  [other] is not const here:
    [std::move(other.root)] empties [other.root].  [other.nodeCount] is not
    written.  The result is what [other] holds afterwards. *)
Definition move_assign (same : bool) (other : Obj) : M Obj :=
  if same then ret other
  else
    old <- get_root ;
    put_root (obj_root other) ;;;
    fuel <- budget ;
    release fuel old ;;;
    (fun s => Ret tt (set_nodeCount s (obj_nodeCount other))) ;;;
    ret (mkObj None (obj_nodeCount other)).

(** [~BST()] (lines 101-105). *)
Definition destructor : M unit := clear.

(** ** Clients *)

(** What a client may do to a container it holds.  [OpCopy] copy-constructs
    a second container from the one held and goes on with the copy; the
    original stays in the store. *)
Inductive Op : Type :=
| OpPush (key : Key) (value : Value)
| OpInsert (entry : Key * Value)
| OpDrop (key : Key)
| OpErase (key : Key)
| OpClear
| OpCopy.

Definition exec (o : Op) : M unit :=
  match o with
  | OpPush key value => push key value
  | OpInsert entry => insert entry
  | OpDrop key => drop key
  | OpErase key => erase key
  | OpClear => clear
  | OpCopy => fun s => copy_construct (this_obj s) s
  end.

Fixpoint run (ops : list Op) : M unit :=
  match ops with
  | [] => ret tt
  | o :: rest => exec o ;;; run rest
  end.

(** A container made by [BST()] in an empty store. *)
Definition empty_container : St := mkSt None 0 ∅ 0%nat.

(** An outcome without the state it leaves. *)
Definition observe {A} (o : Outcome St A) : Outcome unit A :=
  match o with
  | Ret x _ => Ret x tt
  | Throw e _ => Throw e tt
  | Undefined => Undefined
  | OutOfFuel => OutOfFuel
  end.

End BST.

Arguments mkNode {Key Value} data left right parent height.
Arguments data {Key Value} n.
Arguments left {Key Value} n.
Arguments right {Key Value} n.
Arguments parent {Key Value} n.
Arguments height {Key Value} n.
Arguments with_data {Key Value} n d.
Arguments with_left {Key Value} n p.
Arguments with_right {Key Value} n p.
Arguments with_parent {Key Value} n p.
Arguments with_height {Key Value} n h.
Arguments mkSt {Key Value} root nodeCount mem brk.
Arguments root {Key Value} s.
Arguments nodeCount {Key Value} s.
Arguments mem {Key Value} s.
Arguments brk {Key Value} s.
Arguments set_root {Key Value} s p.
Arguments set_nodeCount {Key Value} s n.
Arguments set_mem {Key Value} s m.
Arguments ret {Key Value A} x s.
Arguments bind {Key Value A B} c k s.
Arguments throw {Key Value A} e s.
Arguments undefined {Key Value A} s.
Arguments out_of_fuel {Key Value A} s.
Arguments load {Key Value} p s.
Arguments store {Key Value} a n s.
Arguments modify {Key Value} p f.
Arguments set_left {Key Value} p q.
Arguments set_right {Key Value} p q.
Arguments set_parent {Key Value} p q.
Arguments set_height {Key Value} p h.
Arguments set_data {Key Value} p d.
Arguments move_left {Key Value} p.
Arguments move_right {Key Value} p.
Arguments make_node {Key Value} key value par s.
Arguments destroy {Key Value} p s.
Arguments lock {Key Value} w s.
Arguments height_of {Key Value} n.
Arguments balanceFactor {Key Value} n.
Arguments updateHeight {Key Value} n.
Arguments rotateRight {Key Value} y.
Arguments rotateLeft {Key Value} x.
Arguments balance {Key Value} n.
Arguments minValueNode {Key Value} fuel node.
Arguments find_node {Key Value} comp fuel node key.
Arguments clone {Key Value} fuel node.
Arguments insert_node {Key Value} comp fuel node key value par.
Arguments erase_node {Key Value} comp fuel node key.
Arguments budget {Key Value} s.
Arguments get_root {Key Value} s.
Arguments put_root {Key Value} p s.
Arguments push {Key Value} comp key value.
Arguments insert {Key Value} comp pair.
Arguments drop {Key Value} comp key.
Arguments erase {Key Value} comp key.
Arguments empty {Key Value} s.
Arguments size {Key Value} s.
Arguments release {Key Value} fuel p.
Arguments clear {Key Value}.
Arguments index_const {Key Value} comp key.
Arguments find_loop {Key Value} comp fuel current key.
Arguments find {Key Value} comp key.
Arguments count {Key Value} comp key.
Arguments begin_ {Key Value}.
Arguments end_ {Key Value}.
Arguments climb {Key Value} fuel n.
Arguments advance {Key Value} fuel it.
Arguments deref {Key Value} it.
Arguments walk {Key Value} fuel it.
Arguments traverse {Key Value} fuel.
Arguments equalRange_leftmost {Key Value} fuel node.
Arguments equalRange_lower {Key Value} comp fuel steps lower key.
Arguments equalRange_upper {Key Value} comp fuel steps upper key.
Arguments equalRange {Key Value} comp key.
Arguments this_obj {Key Value} s.
Arguments with_this {Key Value} o s.
Arguments construct {Key Value}.
Arguments copy_construct {Key Value} other.
Arguments copy_assign {Key Value} same other.
Arguments move_assign {Key Value} same other.
Arguments destructor {Key Value}.
Arguments OpPush {Key Value} key value.
Arguments OpInsert {Key Value} entry.
Arguments OpDrop {Key Value} key.
Arguments OpErase {Key Value} key.
Arguments OpClear {Key Value}.
Arguments OpCopy {Key Value}.
Arguments exec {Key Value} comp o.
Arguments run {Key Value} comp ops.
Arguments empty_container {Key Value}.
Arguments observe {Key Value A} o.

(** ** The tree a region of the store unfolds to

    A node of the tree records where it lives and what its cell holds; the
    child references of the cell are the addresses of the subtrees' roots.
    The parent reference is left out: no decision of the mutating code reads
    it. *)

Section Tree.

Variables Key Value : Type.
Variable comp : Key -> Key -> bool.

Inductive tree : Type :=
| E
| T (a : addr) (l : tree) (k : Key) (v : Value) (h : Z) (r : tree).

Definition root_of (t : tree) : ptr :=
  match t with
  | E => None
  | T a _ _ _ _ _ => Some a
  end.

Fixpoint addrs (t : tree) : list addr :=
  match t with
  | E => []
  | T a l _ _ _ r => a :: addrs l ++ addrs r
  end.

(** Entries in ascending position order. *)
Fixpoint entries (t : tree) : list (Key * Value) :=
  match t with
  | E => []
  | T _ l k v _ r => entries l ++ (k, v) :: entries r
  end.

Definition keys (t : tree) : list Key := map fst (entries t).

Fixpoint nodes (t : tree) : nat :=
  match t with
  | E => 0
  | T _ l _ _ _ r => S (nodes l + nodes r)
  end.

Fixpoint depth (t : tree) : nat :=
  match t with
  | E => 0
  | T _ l _ _ _ r => S (Nat.max (depth l) (depth r))
  end.

(** A reference is valid below [n] when it is null or an address handed out
    before [n]. *)
Definition pv (n : addr) (p : ptr) : Prop :=
  match p with
  | Some a => (a < n)%nat
  | None => True
  end.

(** [shape m n t]: the cells of [m] at the addresses of [t] hold exactly
    what [t] says, linked as [t] is. *)
Fixpoint shape (m : gmap addr (Node Key Value)) (n : addr) (t : tree) : Prop :=
  match t with
  | E => True
  | T a l k v h r =>
      ((a < n)%nat /\
       exists par, pv n par /\
         m !! a = Some (mkNode (k, v) (root_of l) (root_of r) par h)) /\
      shape m n l /\ shape m n r
  end.

(** [own s t]: the store of [s] holds [t], every node at its own address. *)
Definition own (s : St Key Value) (t : tree) : Prop :=
  shape (mem s) (brk s) t /\ NoDup (addrs t).

(** [holds s t]: the container of [s] is the tree [t]. *)
Definition holds (s : St Key Value) (t : tree) : Prop :=
  root s = root_of t /\ own s t.

(** Every cell of the store lies below [brk] and refers below [brk]. *)
Definition cell_ok (n : addr) (a : addr) (nd : Node Key Value) : Prop :=
  (a < n)%nat /\ pv n (left nd) /\ pv n (right nd) /\ pv n (parent nd).

Definition closed (s : St Key Value) : Prop :=
  forall a nd, mem s !! a = Some nd -> cell_ok (brk s) a nd.

(** *** The ordering on keys *)

Definition equiv (a b : Key) : bool := negb (comp a b) && negb (comp b a).

Fixpoint all_keys (P : Key -> Prop) (t : tree) : Prop :=
  match t with
  | E => True
  | T _ l k _ _ r => P k /\ all_keys P l /\ all_keys P r
  end.

(** The order invariant: left keys below, right keys above, at every node. *)
Fixpoint ordered (t : tree) : Prop :=
  match t with
  | E => True
  | T _ l k _ _ r =>
      all_keys (fun x => comp x k = true) l /\
      all_keys (fun x => comp k x = true) r /\
      ordered l /\ ordered r
  end.

(** Consecutive keys strictly increase. *)
Fixpoint ascending (l : list Key) : Prop :=
  match l with
  | [] => True
  | x :: rest =>
      match rest with
      | [] => True
      | y :: _ => comp x y = true /\ ascending rest
      end
  end.

(** *** Heights as stored and as they should be *)

Definition ht (t : tree) : Z :=
  match t with
  | E => 0
  | T _ _ _ _ h _ => h
  end.

Definition bf (t : tree) : Z :=
  match t with
  | E => 0
  | T _ l _ _ _ r => ht l - ht r
  end.

(** Every stored height is at least 1. *)
Fixpoint hpos (t : tree) : Prop :=
  match t with
  | E => True
  | T _ l _ _ h r => 1 <= h /\ hpos l /\ hpos r
  end.

(** The height invariant: the stored height is 1 + max of the children's,
    and the children's differ by at most one. *)
Fixpoint avl (t : tree) : Prop :=
  match t with
  | E => True
  | T _ l _ _ h r =>
      h = 1 + Z.max (ht l) (ht r) /\ -1 <= ht l - ht r <= 1 /\ avl l /\ avl r
  end.

(** *** What the mutating code does to the tree *)

Definition upd (t : tree) : tree :=
  match t with
  | E => E
  | T a l k v _ r => T a l k v (1 + Z.max (ht l) (ht r)) r
  end.

Definition rotR (t : tree) : tree :=
  match t with
  | T ay (T ax xl kx vx hx xr) ky vy hy yr =>
      upd (T ax xl kx vx hx (upd (T ay xr ky vy hy yr)))
  | _ => t
  end.

Definition rotL (t : tree) : tree :=
  match t with
  | T ax xl kx vx hx (T ay yl ky vy hy yr) =>
      upd (T ay (upd (T ax xl kx vx hx yl)) ky vy hy yr)
  | _ => t
  end.

Definition bal (t : tree) : tree :=
  match upd t with
  | E => E
  | T a l k v h r =>
      if 1 <? ht l - ht r then
        rotR (T a (if bf l <? 0 then rotL l else l) k v h r)
      else if ht l - ht r <? -1 then
        rotL (T a l k v h (if 0 <? bf r then rotR r else r))
      else T a l k v h r
  end.

Fixpoint ins (fresh : addr) (t : tree) (key : Key) (value : Value) : tree :=
  match t with
  | E => T fresh E key value 1 E
  | T a l k v h r =>
      if comp key k then bal (T a (ins fresh l key value) k v h r)
      else if comp k key then bal (T a l k v h (ins fresh r key value))
      else bal (T a l k value h r)
  end.

(** Whether the descent of [ins] ends at a new node. *)
Fixpoint grows (t : tree) (key : Key) : bool :=
  match t with
  | E => true
  | T _ l k _ _ r =>
      if comp key k then grows l key
      else if comp k key then grows r key
      else false
  end.

Fixpoint leftmost (t : tree) : tree :=
  match t with
  | E => E
  | T _ l _ _ _ _ =>
      match l with
      | E => t
      | T _ _ _ _ _ _ => leftmost l
      end
  end.

Definition entry_of (t : tree) (d : Key * Value) : Key * Value :=
  match t with
  | E => d
  | T _ _ k v _ _ => (k, v)
  end.

Fixpoint del (t : tree) (key : Key) : tree :=
  match t with
  | E => E
  | T a l k v h r =>
      if comp key k then bal (T a (del l key) k v h r)
      else if comp k key then bal (T a l k v h (del r key))
      else
        match l, r with
        | E, _ => r
        | T _ _ _ _ _ _, E => l
        | T _ _ _ _ _ _, T _ _ _ _ _ _ =>
            let m := entry_of (leftmost r) (k, v) in
            bal (T a l (fst m) (snd m) h (del r (fst m)))
        end
  end.

(** The descent of both finds. *)
Fixpoint lookup_tree (t : tree) (key : Key) : tree :=
  match t with
  | E => E
  | T _ l k _ _ r =>
      if comp key k then lookup_tree l key
      else if comp k key then lookup_tree r key
      else t
  end.

(** Where the descent stops: the node's address and its entry. *)
Definition cell_of (t : tree) : option (addr * (Key * Value)) :=
  match t with
  | E => None
  | T a _ k v _ _ => Some (a, (k, v))
  end.

Definition found (t : tree) (key : Key) : option (addr * (Key * Value)) :=
  cell_of (lookup_tree t key).

(** A copy made by [clone], the first node at [fresh]. *)
Fixpoint cloned (fresh : addr) (t : tree) : tree :=
  match t with
  | E => E
  | T _ l k v _ r =>
      T fresh (cloned (S fresh) l) k v 1
        (cloned (S fresh + nodes l)%nat r)
  end.

(** The same entries in the same positions, wherever the nodes live and
    whatever heights they store. *)
Fixpoint same_entries (t u : tree) : Prop :=
  match t, u with
  | E, E => True
  | T _ l k v _ r, T _ l' k' v' _ r' =>
      k = k' /\ v = v' /\ same_entries l l' /\ same_entries r r'
  | _, _ => False
  end.

End Tree.

Arguments E {Key Value}.
Arguments T {Key Value} a l k v h r.
Arguments root_of {Key Value} t.
Arguments addrs {Key Value} t.
Arguments entries {Key Value} t.
Arguments keys {Key Value} t.
Arguments nodes {Key Value} t.
Arguments depth {Key Value} t.
Arguments shape {Key Value} m n t.
Arguments own {Key Value} s t.
Arguments holds {Key Value} s t.
Arguments cell_ok {Key Value} n a nd.
Arguments closed {Key Value} s.
Arguments equiv {Key} comp a b.
Arguments all_keys {Key Value} P t.
Arguments ordered {Key Value} comp t.
Arguments ascending {Key} comp l.
Arguments ht {Key Value} t.
Arguments bf {Key Value} t.
Arguments hpos {Key Value} t.
Arguments avl {Key Value} t.
Arguments upd {Key Value} t.
Arguments rotR {Key Value} t.
Arguments rotL {Key Value} t.
Arguments bal {Key Value} t.
Arguments ins {Key Value} comp fresh t key value.
Arguments grows {Key Value} comp t key.
Arguments leftmost {Key Value} t.
Arguments entry_of {Key Value} t d.
Arguments del {Key Value} comp t key.
Arguments lookup_tree {Key Value} comp t key.
Arguments cell_of {Key Value} t.
Arguments found {Key Value} comp t key.
Arguments cloned {Key Value} fresh t.
Arguments same_entries {Key Value} t u.

(** * Assertions about runs

    The vocabulary of the statements below: what a run establishes, which
    part of the store it may touch, and what the container looks like in
    every state a client can reach. *)

Section Assertions.
Context {Key Value : Type}.
Variable comp : Key -> Key -> bool.
Implicit Types (t l r : tree Key Value) (s : St Key Value)
  (m : gmap addr (Node Key Value)) (nd : Node Key Value).

(** [wp c s Q]: from [s], [c] returns normally, with a result and a state
    that satisfy [Q]. *)
Definition wp {A} (c : M Key Value A) s (Q : A -> St Key Value -> Prop) : Prop :=
  exists x s', c s = Ret x s' /\ Q x s'.

(** Two cells that differ at most in the parent link. *)
Definition same_but_parent (n : addr) nd nd' : Prop :=
  data nd' = data nd /\ left nd' = left nd /\ right nd' = right nd /\
  height nd' = height nd /\ pv n (parent nd').

(** What a step leaves alone. *)
Definition frame_eq (A : list addr) s s' : Prop :=
  root s' = root s /\ nodeCount s' = nodeCount s /\ brk s' = brk s /\
  forall b, b ∉ A -> mem s' !! b = mem s !! b.

(** A hypothesis put aside, out of reach of the proof tactics. *)
Definition kept (P : Prop) : Prop := P.

(** The trees [rotateRight] and [rotateLeft] are called on. *)
Definition left_heavy t : Prop :=
  match t with
  | T _ (T _ _ _ _ _ _) _ _ _ _ => True
  | _ => False
  end.

Definition right_heavy t : Prop :=
  match t with
  | T _ _ _ _ _ (T _ _ _ _ _ _) => True
  | _ => False
  end.

(** [evolves t t' s s']: between [s] and [s'] the region holding [t] has
    become one holding [t'].  New nodes lie at fresh addresses, nodes that
    left the tree are gone from the store, and nothing else has changed. *)
Definition evolves t t' s s' : Prop :=
  own s' t' /\ root s' = root s /\ (brk s <= brk s')%nat /\
  (forall b, b ∈ addrs t' -> b ∈ addrs t \/ (brk s <= b)%nat) /\
  (forall b, b ∉ addrs t' ->
     mem s' !! b = if decide (b ∈ addrs t) then None else mem s !! b).

(** [changes t t' s s']: [evolves], whatever the root fields say. *)
Definition changes t t' s s' : Prop :=
  own s' t' /\ (brk s <= brk s')%nat /\
  (forall b, b ∈ addrs t' -> b ∈ addrs t \/ (brk s <= b)%nat) /\
  (forall b, b ∉ addrs t' ->
     mem s' !! b = if decide (b ∈ addrs t) then None else mem s !! b).

(** The container is an ordered tree in a closed store. *)
Definition Inv s : Prop :=
  exists t, holds s t /\ hpos t /\ ordered comp t /\ closed s.

(** [agree n s s2]: below [n] the two stores hold the same cells. *)
Definition agree (n : addr) s s2 : Prop :=
  forall b : addr, (b < n)%nat -> mem s2 !! b = mem s !! b.

(** [mirrors V s s2 c]: [c] changes neither state and ends the same way in
    both, with a result in [V]. *)
Definition mirrors {A} (V : A -> Prop) s s2 (c : M Key Value A) : Prop :=
  match c s with
  | Ret x s' => s' = s /\ c s2 = Ret x s2 /\ V x
  | Throw e s' => s' = s /\ c s2 = Throw e s2
  | Undefined => c s2 = Undefined
  | OutOfFuel => c s2 = OutOfFuel
  end.

(** The links of a cell stay below [n]. *)
Definition refs_ok (n : addr) nd : Prop :=
  pv n (left nd) /\ pv n (right nd) /\ pv n (parent nd).

(** Whether an operation makes the client go on with a copy. *)
Definition copies (o : Op Key Value) : bool :=
  match o with
  | OpCopy => true
  | _ => false
  end.

(** [absent key t]: no key of [t] is equivalent to [key]. *)
Definition absent (key : Key) t : Prop :=
  all_keys (fun x => equiv comp key x = false) t.

End Assertions.

(** The state after [push(1, 10)] on a fresh container, and its tree. *)
Definition one_entry : St Z Z :=
  mkSt (Some 0%nat) 1 {[ 0%nat := mkNode (1, 10) None None None 1 ]} 1%nat.
Definition one_entry_tree : tree Z Z := T 0%nat E 1 10 1 E.

(** * What a container contains *)

Section Contents.
Context {Key Value : Type}.
Variable comp : Key -> Key -> bool.
Implicit Types (t : tree Key Value) (s : St Key Value).

(** Whether an operation removes a key. *)
Definition erases (o : Op Key Value) : bool :=
  match o with
  | OpDrop _ | OpErase _ => true
  | _ => false
  end.

(** Whether an entry is stored under a key equivalent to [key]. *)
Definition under (key : Key) (e : Key * Value) : bool := equiv comp key (fst e).

(** What [node->data.second = value] does to the entry under [key]. *)
Definition assign (key : Key) (value : Value) (e : Key * Value) : Key * Value :=
  if under key e then (fst e, value) else e.

(** The first entry of a list stored under [key]. *)
Definition entry_under (key : Key) (l : list (Key * Value)) : option (Key * Value) :=
  head (filter (fun e => under key e = true) l).

(** [tidy s t]: the store holds the nodes of [t] and no others. *)
Definition tidy s t : Prop :=
  forall b : addr, b ∉ addrs t -> mem s !! b = None.

(** The stored count is the number of nodes, as a [size_t]. *)
Definition counted s t : Prop :=
  nodeCount s = Z.of_nat (nodes t) mod size_max.

End Contents.

(** Two containers in one store: [*this] holds key 1 at address 0, another
    container holds key 2 at address 1. *)
Definition two_containers : St Z Z :=
  mkSt (Some 0%nat) 1
       (<[1%nat := mkNode (2, 20) None None None 1]>
          {[ 0%nat := mkNode (1, 10) None None None 1 ]})
       2%nat.
Definition other_container : Obj := mkObj (Some 1%nat) 1.

(** The nodes that [push(2, 20); push(1, 10)] leaves: key 2 at address 0
    with key 1 at address 1 as its left child. *)
Definition left_chain : St Z Z :=
  mkSt (Some 0%nat) 2
       (<[1%nat := mkNode (1, 10) None None (Some 0%nat) 1]>
          {[ 0%nat := mkNode (2, 20) (Some 1%nat) None None 2 ]})
       2%nat.
Definition left_chain_tree : tree Z Z :=
  T 0%nat (T 1%nat E 1 10 1 E) 2 20 2 E.

(** The nodes on which [push(3, 30); push(2, 20); push(1, 10)] calls
    [balance] at the root: key 3 at address 0, key 2 at address 1 as its
    left child, key 1 at address 2 below that; the root's stored height is
    still the one it had with a single child. *)
Definition left_chain_of_three : St Z Z :=
  mkSt None 3
       (<[2%nat := mkNode (1, 10) None None (Some 1%nat) 1]>
          (<[1%nat := mkNode (2, 20) (Some 2%nat) None (Some 0%nat) 2]>
             {[ 0%nat := mkNode (3, 30) (Some 1%nat) None None 2 ]}))
       3%nat.
Definition left_chain_of_three_tree : tree Z Z :=
  T 0%nat (T 1%nat (T 2%nat E 1 10 1 E) 2 20 2 E) 3 30 2 E.

(** * Proofs *)

(** ** The tree layer: addresses, heights *)

Ltac tsimpl :=
  cbn [ht bf upd rotR rotL hpos avl addrs entries keys root_of ordered
       all_keys nodes depth leftmost entry_of fst snd] in *.

Section TreeFacts.
Context {Key Value : Type}.
Implicit Types (t l r : tree Key Value) (P : Key -> Prop).

Lemma addrs_upd t : addrs (upd t) = addrs t.
Proof. by destruct t. Qed.

Lemma addrs_rotR t : addrs (rotR t) ≡ₚ addrs t.
Proof.
  destruct t as [|ay [|ax xl kx vx hx xr] ky vy hy yr]; try done.
  cbn. rewrite <- !app_assoc, <- Permutation_middle. apply perm_swap.
Qed.

Lemma addrs_rotL t : addrs (rotL t) ≡ₚ addrs t.
Proof.
  destruct t as [|ax xl kx vx hx [|ay yl ky vy hy yr]]; try done.
  cbn. rewrite <- !app_assoc, <- Permutation_middle. apply perm_swap.
Qed.

Lemma addrs_bal t : addrs (bal t) ≡ₚ addrs t.
Proof.
  destruct t as [|a l k v h r]; [done|]. unfold bal. cbn [upd].
  repeat case_match; rewrite ?addrs_rotR, ?addrs_rotL; cbn;
    rewrite ?addrs_rotR, ?addrs_rotL; done.
Qed.

Lemma nodes_addrs t : length (addrs t) = nodes t.
Proof. induction t; cbn; [done|]. rewrite length_app. lia. Qed.

Lemma depth_nodes t : (depth t <= nodes t)%nat.
Proof. induction t; cbn; lia. Qed.

Lemma ht_upd_pos t : t <> E -> hpos t -> 1 <= ht (upd t).
Proof.
  destruct t as [|a l k v h r]; [done|]. intros _ (_ & Hl & Hr). tsimpl.
  assert (0 <= ht l) by (destruct l; tsimpl; lia). lia.
Qed.

Lemma ht_nonneg t : hpos t -> 0 <= ht t.
Proof. destruct t; tsimpl; lia. Qed.

Lemma ht_pos_inv t : 0 < ht t -> t <> E.
Proof. destruct t; tsimpl; [lia|done]. Qed.

Lemma hpos_upd t : hpos t -> hpos (upd t).
Proof.
  destruct t as [|a l k v h r]; [done|]. tsimpl. intros (_ & Hl & Hr).
  pose proof (ht_nonneg _ Hl). split_and!; [lia|done..].
Qed.

Lemma hpos_node a l k v h r : hpos l -> hpos r -> hpos (upd (T a l k v h r)).
Proof. intros Hl Hr. tsimpl. pose proof (ht_nonneg _ Hl). split_and!; [lia|done..]. Qed.

Lemma hpos_rotR t : hpos t -> hpos (rotR t).
Proof.
  destruct t as [|ay [|ax xl kx vx hx xr] ky vy hy yr]; try done.
  cbn [hpos rotR]. intros (_ & (_ & Hxl & Hxr) & Hyr).
  apply hpos_node; [done|]. by apply hpos_node.
Qed.

Lemma hpos_rotL t : hpos t -> hpos (rotL t).
Proof.
  destruct t as [|ax xl kx vx hx [|ay yl ky vy hy yr]]; try done.
  cbn [hpos rotL]. intros (_ & Hxl & (_ & Hyl & Hyr)).
  apply hpos_node; [|done]. by apply hpos_node.
Qed.

Lemma hpos_bal t : hpos t -> hpos (bal t).
Proof.
  intros H. apply hpos_upd in H. unfold bal.
  destruct (upd t) as [|a l k v h r]; [done|].
  destruct H as (Hh & Hl & Hr).
  repeat case_match; try (by cbn).
  - apply hpos_rotR. cbn. split_and!; try done. by apply hpos_rotL.
  - by apply hpos_rotR.
  - apply hpos_rotL. cbn. split_and!; try done. by apply hpos_rotR.
  - by apply hpos_rotL.
Qed.

Lemma entries_upd t : entries (upd t) = entries t.
Proof. by destruct t. Qed.

Lemma entries_rotR t : entries (rotR t) = entries t.
Proof.
  destruct t as [|ay [|ax xl kx vx hx xr] ky vy hy yr]; try done.
  cbn. by rewrite <- !app_assoc.
Qed.

Lemma entries_rotL t : entries (rotL t) = entries t.
Proof.
  destruct t as [|ax xl kx vx hx [|ay yl ky vy hy yr]]; try done.
  cbn. by rewrite <- !app_assoc.
Qed.

Lemma entries_bal t : entries (bal t) = entries t.
Proof.
  destruct t as [|a l k v h r]; [done|]. unfold bal. cbn [upd].
  repeat case_match; rewrite ?entries_rotR, ?entries_rotL; cbn;
    rewrite ?entries_rotR, ?entries_rotL; done.
Qed.

Lemma all_keys_entries P t : all_keys P t <-> Forall P (keys t).
Proof.
  unfold keys. induction t as [|a l IHl k v h r IHr]; cbn.
  - split; [constructor|done].
  - rewrite map_app, Forall_app. cbn. rewrite Forall_cons. tauto.
Qed.

Lemma all_keys_bal P t : all_keys P (bal t) <-> all_keys P t.
Proof. rewrite !all_keys_entries. unfold keys. by rewrite entries_bal. Qed.

Lemma all_keys_impl P (Q : Key -> Prop) t :
  (forall x, P x -> Q x) -> all_keys P t -> all_keys Q t.
Proof. intros H. induction t; cbn; [done|]. intuition auto. Qed.

Lemma rotL_nonempty t : t <> E -> rotL t <> E.
Proof. by destruct t as [|ax xl kx vx hx [|ay yl ky vy hy yr]]. Qed.

Lemma rotR_nonempty t : t <> E -> rotR t <> E.
Proof. by destruct t as [|ay [|ax xl kx vx hx xr] ky vy hy yr]. Qed.

Lemma bal_nonempty t : t <> E -> bal t <> E.
Proof.
  destruct t as [|a l k v h r]; [done|]. intros _. unfold bal. cbn [upd].
  repeat case_match; try done; by (apply rotR_nonempty || apply rotL_nonempty).
Qed.

Lemma hpos_leftmost t : hpos t -> hpos (leftmost t).
Proof.
  induction t as [|a l IHl k v h r _]; [done|]. intros (Hh & Hl & Hr).
  cbn [leftmost]. destruct l; [by cbn|]. by apply IHl.
Qed.

Lemma leftmost_nonempty t : t <> E -> leftmost t <> E.
Proof.
  induction t as [|a l IHl k v h r _]; [done|]. intros _.
  cbn [leftmost]. destruct l; [done|]. by apply IHl.
Qed.

Lemma depth_leftmost t : (depth (leftmost t) <= depth t)%nat.
Proof.
  induction t as [|a l IHl k v h r _]; [done|].
  cbn [leftmost]. destruct l; [done|]. cbn [depth] in *. lia.
Qed.

Lemma nodes_cloned n t : nodes (cloned n t) = nodes t.
Proof.
  revert n. induction t as [|a l IHl k v h r IHr]; intros n; cbn [cloned nodes]; [done|].
  by rewrite IHl, IHr.
Qed.

Lemma addrs_cloned n t b :
  b ∈ addrs (cloned n t) <-> (n <= b < n + nodes t)%nat.
Proof.
  revert n. induction t as [|a l IHl k v h r IHr]; intros n; cbn [cloned nodes addrs].
  - rewrite elem_of_nil. lia.
  - rewrite elem_of_cons, elem_of_app, IHl, IHr. lia.
Qed.

Lemma NoDup_cloned n t : NoDup (addrs (cloned n t)).
Proof.
  revert n. induction t as [|a l IHl k v h r IHr]; intros n; cbn [cloned addrs].
  - constructor.
  - apply NoDup_cons. split.
    + rewrite elem_of_app, !addrs_cloned. lia.
    + apply NoDup_app. split_and!; [done| |done].
      intros b. rewrite !addrs_cloned. lia.
Qed.

Lemma same_entries_cloned n t : same_entries t (cloned n t).
Proof.
  revert n. induction t as [|a l IHl k v h r IHr]; intros n; cbn [cloned same_entries]; auto.
Qed.

Lemma same_entries_list t u : same_entries t u -> entries t = entries u.
Proof.
  revert u. induction t as [|a l IHl k v h r IHr]; intros [|a' l' k' v' h' r']; cbn; try done.
  intros (-> & -> & Hl & Hr). by rewrite (IHl _ Hl), (IHr _ Hr).
Qed.

Lemma hpos_cloned n t : hpos (cloned n t).
Proof.
  revert n. induction t as [|a l IHl k v h r IHr]; intros n; cbn [cloned hpos]; [done|].
  split_and!; [lia|done..].
Qed.

Lemma ordered_same_entries comp t u :
  same_entries t u -> ordered comp t -> ordered comp u.
Proof.
  revert u. induction t as [|a l IHl k v h r IHr]; intros [|a' l' k' v' h' r']; cbn; try done.
  intros (-> & -> & Hl & Hr) (H1 & H2 & H3 & H4).
  split_and!; auto.
  - apply all_keys_entries. apply all_keys_entries in H1.
    unfold keys in *. by rewrite <- (same_entries_list _ _ Hl).
  - apply all_keys_entries. apply all_keys_entries in H2.
    unfold keys in *. by rewrite <- (same_entries_list _ _ Hr).
Qed.

End TreeFacts.

Section TreeOps.
Context {Key Value : Type}.
Variable comp : Key -> Key -> bool.
Implicit Types (t l r : tree Key Value).

Lemma hpos_ins fresh t k v : hpos t -> hpos (ins comp fresh t k v).
Proof.
  induction t as [|a l IHl k' v' h r IHr]; cbn [ins hpos]; [lia|].
  intros (Hh & Hl & Hr).
  repeat case_match; apply hpos_bal; cbn [hpos]; auto.
Qed.

Lemma ins_nonempty fresh t k v : ins comp fresh t k v <> E.
Proof.
  destruct t as [|a l k' v' h r]; cbn [ins]; [done|].
  repeat case_match; by apply bal_nonempty.
Qed.

Lemma hpos_del t k : hpos t -> hpos (del comp t k).
Proof.
  revert k. induction t as [|a l IHl k' v' h r IHr]; intros k; cbn [del hpos]; [done|].
  intros (Hh & Hl & Hr).
  destruct (comp k k'); [|destruct (comp k' k)].
  - apply hpos_bal; cbn [hpos]; auto.
  - apply hpos_bal; cbn [hpos]; auto.
  - destruct l as [|la ll lk lv lh lr]; [done|].
    destruct r as [|ra rl rk rv rh rr]; [done|].
    apply hpos_bal. split; [done|]. split; [exact Hl|by apply IHr].
Qed.

End TreeOps.

(** ** The tree layer: ordering *)

Section Ordering.
Context {Key Value : Type}.
Variable comp : Key -> Key -> bool.
Implicit Types (t l r : tree Key Value) (P : Key -> Prop) (k x y : Key).

(** The comparator is a strict weak ordering. *)
Hypothesis comp_irrefl : forall x, comp x x = false.
Hypothesis comp_trans :
  forall x y z, comp x y = true -> comp y z = true -> comp x z = true.
Hypothesis equiv_trans :
  forall x y z, equiv comp x y = true -> equiv comp y z = true ->
                equiv comp x z = true.

Lemma equiv_spec x y :
  equiv comp x y = true <-> comp x y = false /\ comp y x = false.
Proof. unfold equiv. destruct (comp x y), (comp y x); cbn; intuition congruence. Qed.

Lemma comp_asym x y : comp x y = true -> comp y x = false.
Proof.
  intros H. destruct (comp y x) eqn:Hyx; [|done].
  by rewrite <- (comp_irrefl x), <- (comp_trans _ _ _ H Hyx).
Qed.

Lemma comp_equiv_r x y z :
  comp x y = true -> comp y z = false -> comp z y = false -> comp x z = true.
Proof.
  intros Hxy Hyz Hzy. destruct (comp x z) eqn:Hxz; [done|].
  destruct (comp z x) eqn:Hzx.
  - by rewrite <- Hzy, (comp_trans _ _ _ Hzx Hxy).
  - assert (equiv comp x y = true) as Hq.
    { apply (equiv_trans x z y); apply equiv_spec; done. }
    apply equiv_spec in Hq as [Hq _]. congruence.
Qed.

Lemma comp_equiv_l x y z :
  comp x y = false -> comp y x = false -> comp y z = true -> comp x z = true.
Proof.
  intros Hxy Hyx Hyz. destruct (comp x z) eqn:Hxz; [done|].
  destruct (comp z x) eqn:Hzx.
  - by rewrite <- Hyx, (comp_trans _ _ _ Hyz Hzx).
  - assert (equiv comp y z = true) as Hq.
    { apply (equiv_trans y x z); apply equiv_spec; done. }
    apply equiv_spec in Hq as [Hq _]. congruence.
Qed.

Lemma all_below_trans k k' t :
  comp k k' = true ->
  all_keys (fun x => comp x k = true) t -> all_keys (fun x => comp x k' = true) t.
Proof. intros H. apply all_keys_impl. eauto. Qed.

Lemma all_above_trans k k' t :
  comp k' k = true ->
  all_keys (fun x => comp k x = true) t -> all_keys (fun x => comp k' x = true) t.
Proof. intros H. apply all_keys_impl. eauto. Qed.

Lemma ordered_upd t : ordered comp (upd t) <-> ordered comp t.
Proof. by destruct t. Qed.

Lemma ordered_rotR t : ordered comp t -> ordered comp (rotR t).
Proof.
  destruct t as [|ay [|ax xl kx vx hx xr] ky vy hy yr]; try done.
  cbn. intros ((Hx & Hxl & Hxr) & Hyr & (Hl & Hr & Ol & Or) & Oyr).
  split_and!; try done.
  by apply (all_above_trans ky).
Qed.

Lemma ordered_rotL t : ordered comp t -> ordered comp (rotL t).
Proof.
  destruct t as [|ax xl kx vx hx [|ay yl ky vy hy yr]]; try done.
  cbn. intros (Hxl & (Hy & Hyl & Hyr) & Oxl & (Hl & Hr & Ol & Or)).
  split_and!; try done.
  by apply (all_below_trans kx).
Qed.

Lemma all_keys_rotR P t : all_keys P (rotR t) <-> all_keys P t.
Proof. rewrite !all_keys_entries. unfold keys. by rewrite entries_rotR. Qed.

Lemma all_keys_rotL P t : all_keys P (rotL t) <-> all_keys P t.
Proof. rewrite !all_keys_entries. unfold keys. by rewrite entries_rotL. Qed.

Lemma ordered_bal t : ordered comp t -> ordered comp (bal t).
Proof.
  destruct t as [|a l k v h r]; [done|]. unfold bal. cbn [upd].
  intros (Hl & Hr & Ol & Or).
  repeat case_match; try (by cbn).
  - apply ordered_rotR. cbn. rewrite all_keys_rotL. auto using ordered_rotL.
  - by apply ordered_rotR.
  - apply ordered_rotL. cbn. rewrite all_keys_rotR. auto using ordered_rotR.
  - by apply ordered_rotL.
Qed.

Lemma all_keys_ins P fresh t k v :
  P k -> all_keys P t -> all_keys P (ins comp fresh t k v).
Proof.
  intros Hk. induction t as [|a l IHl k' v' h r IHr]; cbn [ins all_keys]; [done|].
  intros (Hk' & Hl & Hr).
  repeat case_match; rewrite all_keys_bal; cbn [all_keys]; auto.
Qed.

Lemma ordered_ins fresh t k v :
  ordered comp t -> ordered comp (ins comp fresh t k v).
Proof.
  induction t as [|a l IHl k' v' h r IHr]; cbn [ins ordered]; [done|].
  intros (Hl & Hr & Ol & Or).
  destruct (comp k k') eqn:H1; [|destruct (comp k' k) eqn:H2];
    apply ordered_bal; cbn [ordered]; split_and!; auto using all_keys_ins.
Qed.

Lemma leftmost_key P r d :
  all_keys P r -> r <> E -> P (fst (entry_of (leftmost r) d)).
Proof.
  induction r as [|a l IHl k v h rr _]; [done|]. intros (Hk & Hl & _) _.
  cbn [leftmost]. destruct l as [|la ll lk lv lh lr]; [done|]. by apply IHl.
Qed.

Lemma all_keys_del P t k : all_keys P t -> all_keys P (del comp t k).
Proof.
  revert k. induction t as [|a l IHl k' v' h r IHr]; intros k; cbn [del all_keys]; [done|].
  intros (Hk' & Hl & Hr).
  destruct (comp k k'); [|destruct (comp k' k)].
  - rewrite all_keys_bal. cbn [all_keys]. auto.
  - rewrite all_keys_bal. cbn [all_keys]. auto.
  - destruct l as [|la ll lk lv lh lr]; [done|].
    destruct r as [|ra rl rk rv rh rr]; [done|].
    rewrite all_keys_bal.
    split; [|split]; [|by apply Hl|by apply IHr].
    apply leftmost_key; [|done]. exact Hr.
Qed.

(** Erasing the least key of an ordered tree leaves only keys above it. *)
Lemma del_least_above r d :
  ordered comp r -> r <> E ->
  all_keys (fun x => comp (fst (entry_of (leftmost r) d)) x = true)
           (del comp r (fst (entry_of (leftmost r) d))).
Proof.
  induction r as [|a l IHl k v h rr _]; [done|]. intros (Hl & Hr & Ol & Or) _.
  destruct l as [|la ll lk lv lh lr].
  - cbn [leftmost entry_of fst del]. by rewrite comp_irrefl.
  - set (l := T la ll lk lv lh lr) in *.
    assert (l <> E) as Hne by done.
    change (leftmost (T a l k v h rr)) with (leftmost l).
    set (mk := fst (entry_of (leftmost l) d)).
    assert (comp mk k = true) as Hmk.
    { unfold mk. by apply (leftmost_key (fun x => comp x k = true)). }
    cbn [del]. rewrite Hmk, all_keys_bal. cbn [all_keys]. split_and!.
    + done.
    + by apply IHl.
    + by apply (all_above_trans k).
Qed.

Lemma ordered_del t k : ordered comp t -> ordered comp (del comp t k).
Proof.
  revert k. induction t as [|a l IHl k' v' h r IHr]; intros k; cbn [del ordered]; [done|].
  intros (Hl & Hr & Ol & Or).
  destruct (comp k k') eqn:H1; [|destruct (comp k' k) eqn:H2].
  - apply ordered_bal. cbn [ordered]. split_and!; auto using all_keys_del.
  - apply ordered_bal. cbn [ordered]. split_and!; auto using all_keys_del.
  - destruct l as [|la ll lk lv lh lr]; [done|].
    destruct r as [|ra rl rk rv rh rr]; [done|].
    set (l := T la ll lk lv lh lr) in *. set (r := T ra rl rk rv rh rr) in *.
    assert (r <> E) as Hne by done.
    apply ordered_bal. cbn [ordered].
    assert (comp k' (fst (entry_of (leftmost r) (k', v'))) = true) as Hmk.
    { by apply (leftmost_key (fun x => comp k' x = true)). }
    split_and!; auto.
    + by apply (all_below_trans k').
    + by apply del_least_above.
Qed.

(** *** Lookups *)

Lemma found_rotR t k : ordered comp t -> found comp (rotR t) k = found comp t k.
Proof.
  destruct t as [|ay [|ax xl kx vx hx xr] ky vy hy yr]; try done.
  intros ((Hx & _) & _). unfold found, rotR, upd. cbn [lookup_tree].
  destruct (comp k kx) eqn:A, (comp kx k) eqn:B, (comp k ky) eqn:C,
    (comp ky k) eqn:D; try reflexivity; exfalso;
    first [ by rewrite (comp_trans k kx ky) in C
          | by rewrite (comp_equiv_l k kx ky) in C ].
Qed.

Lemma found_rotL t k : ordered comp t -> found comp (rotL t) k = found comp t k.
Proof.
  destruct t as [|ax xl kx vx hx [|ay yl ky vy hy yr]]; try done.
  intros (_ & (Hy & _) & _). unfold found, rotL, upd. cbn [lookup_tree].
  destruct (comp k kx) eqn:A, (comp kx k) eqn:B, (comp k ky) eqn:C,
    (comp ky k) eqn:D; try reflexivity; exfalso;
    first [ by rewrite (comp_trans k kx ky) in C
          | by rewrite (comp_equiv_l k kx ky) in C ].
Qed.

Lemma found_node a l k' v h r k :
  found comp (T a l k' v h r) k =
    if comp k k' then found comp l k
    else if comp k' k then found comp r k
    else Some (a, (k', v)).
Proof. unfold found. cbn [lookup_tree]. by repeat case_match. Qed.

Lemma found_bal t k : ordered comp t -> found comp (bal t) k = found comp t k.
Proof.
  destruct t as [|a l k' v h r]; [done|]. unfold bal. cbn [upd].
  intros (Hl & Hr & Ol & Or).
  assert (forall h', found comp (T a l k' v h' r) k = found comp (T a l k' v h r) k)
    as Hh by (intros; by rewrite !found_node).
  repeat case_match; try apply Hh.
  - rewrite found_rotR.
    + rewrite !found_node. by rewrite found_rotL.
    + cbn [ordered]. rewrite all_keys_rotL. auto using ordered_rotL.
  - rewrite found_rotR; [apply Hh|done].
  - rewrite found_rotL.
    + rewrite !found_node. by rewrite found_rotR.
    + cbn [ordered]. rewrite all_keys_rotR. auto using ordered_rotR.
  - rewrite found_rotL; [apply Hh|done].
Qed.

(** After an insertion the key is found, with the value inserted. *)
Lemma found_ins fresh t k v :
  ordered comp t ->
  exists a k', found comp (ins comp fresh t k v) k = Some (a, (k', v)).
Proof.
  induction t as [|a l IHl k' v' h r IHr]; cbn [ins ordered].
  - intros _. exists fresh, k. by rewrite found_node, comp_irrefl.
  - intros (Hl & Hr & Ol & Or).
    destruct (comp k k') eqn:H1; [|destruct (comp k' k) eqn:H2].
    + rewrite found_bal, found_node, H1; [by apply IHl|].
      cbn [ordered]. auto using all_keys_ins, ordered_ins.
    + rewrite found_bal, found_node, H1, H2; [by apply IHr|].
      cbn [ordered]. auto using all_keys_ins, ordered_ins.
    + rewrite found_bal, found_node, H1, H2; [by eauto|done].
Qed.

Lemma grows_lookup t k : grows comp t k = true <-> lookup_tree comp t k = E.
Proof.
  induction t as [|a l IHl k' v' h r IHr]; cbn [grows lookup_tree]; [done|].
  repeat case_match; try done.
Qed.

(** A key that was absent is found at the new node. *)
Lemma found_ins_new fresh t k v :
  ordered comp t -> grows comp t k = true ->
  found comp (ins comp fresh t k v) k = Some (fresh, (k, v)).
Proof.
  induction t as [|a l IHl k' v' h r IHr]; cbn [ins ordered grows].
  - intros _ _. by rewrite found_node, comp_irrefl.
  - intros (Hl & Hr & Ol & Or).
    destruct (comp k k') eqn:H1; [|destruct (comp k' k) eqn:H2]; intros Hg.
    + rewrite found_bal, found_node, H1; [by apply IHl|].
      cbn [ordered]. auto using all_keys_ins, ordered_ins.
    + rewrite found_bal, found_node, H1, H2; [by apply IHr|].
      cbn [ordered]. auto using all_keys_ins, ordered_ins.
    + done.
Qed.

Lemma lookup_none t k :
  all_keys (fun x => equiv comp k x = false) t -> lookup_tree comp t k = E.
Proof.
  induction t as [|a l IHl k' v' h r IHr]; cbn [all_keys lookup_tree]; [done|].
  intros (Hk & Hl & Hr). unfold equiv in Hk.
  destruct (comp k k'), (comp k' k); cbn in Hk; auto; done.
Qed.

Lemma lookup_none_inv t k :
  lookup_tree comp t k = E -> ordered comp t ->
  all_keys (fun x => equiv comp k x = false) t.
Proof.
  induction t as [|a l IHl k' v' h r IHr]; cbn [all_keys lookup_tree ordered]; [done|].
  intros Hlk (Hl & Hr & Ol & Or). unfold equiv.
  destruct (comp k k') eqn:H1; [|destruct (comp k' k) eqn:H2]; [| |done].
  - split_and!; [done|by apply IHl|].
    eapply all_keys_impl; [|exact Hr]. intros x Hx. cbn beta.
    by rewrite (comp_trans k k' x).
  - split_and!; [done| |by apply IHr].
    eapply all_keys_impl; [|exact Hl]. intros x Hx. cbn beta.
    rewrite (comp_trans x k' k) by done. by destruct (comp k x).
Qed.

(** Erasing a key leaves no key equivalent to it. *)
Lemma del_not_equiv t k :
  ordered comp t -> all_keys (fun x => equiv comp k x = false) (del comp t k).
Proof.
  revert k. induction t as [|a l IHl k' v' h r IHr]; intros k; cbn [del ordered]; [done|].
  intros (Hl & Hr & Ol & Or).
  assert (forall x, comp k x = true -> equiv comp k x = false) as Hlt
    by (intros x Hx; unfold equiv; by rewrite Hx).
  assert (forall x, comp x k = true -> equiv comp k x = false) as Hgt
    by (intros x Hx; unfold equiv; rewrite Hx; by destruct (comp k x)).
  destruct (comp k k') eqn:H1; [|destruct (comp k' k) eqn:H2].
  - rewrite all_keys_bal. cbn [all_keys]. split_and!; [by auto|by apply IHl|].
    eapply all_keys_impl; [|exact Hr]. intros x Hx. apply Hlt.
    by apply (comp_trans k k' x).
  - rewrite all_keys_bal. cbn [all_keys]. split_and!; [by auto| |by apply IHr].
    eapply all_keys_impl; [|exact Hl]. intros x Hx. apply Hgt.
    by apply (comp_trans x k' k).
  - assert (all_keys (fun x => equiv comp k x = false) r) as Hr'.
    { eapply all_keys_impl; [|exact Hr]. intros x Hx. apply Hlt.
      by apply (comp_equiv_l k k' x). }
    assert (all_keys (fun x => equiv comp k x = false) l) as Hl'.
    { eapply all_keys_impl; [|exact Hl]. intros x Hx. apply Hgt.
      by apply (comp_equiv_r x k' k). }
    destruct l as [|la ll lk lv lh lr]; [done|].
    destruct r as [|ra rl rk rv rh rr]; [done|].
    rewrite all_keys_bal. split; [|split]; [|exact Hl'|by apply all_keys_del].
    apply leftmost_key; [exact Hr'|done].
Qed.

Lemma found_del t k : ordered comp t -> found comp (del comp t k) k = None.
Proof.
  intros H. unfold found. by rewrite lookup_none; [|apply del_not_equiv].
Qed.

(** In an ordered tree the keys ascend, so none occurs twice. *)
Lemma ascending_app (l1 l2 : list Key) x :
  ascending comp (l1 ++ [x]) -> ascending comp (x :: l2) ->
  ascending comp (l1 ++ x :: l2).
Proof.
  induction l1 as [|y l1 IH]; [done|]. intros H1 H2.
  destruct l1 as [|z l1]; cbn in *; [tauto|]. split; [tauto|]. apply IH; tauto.
Qed.

Lemma ascending_cons x (l : list Key) :
  Forall (fun y => comp x y = true) l -> ascending comp l -> ascending comp (x :: l).
Proof. destruct l; [done|]. intros H%Forall_cons_1. cbn in *. tauto. Qed.

Lemma ascending_snoc (l : list Key) x :
  Forall (fun y => comp y x = true) l -> ascending comp l -> ascending comp (l ++ [x]).
Proof.
  induction l as [|y l IH]; [done|]. intros [Hy Hl]%Forall_cons_1 Ha.
  destruct l as [|z l]; [cbn; tauto|]. cbn in Ha. cbn [app ascending] in *.
  split; [tauto|]. apply IH; tauto.
Qed.

Lemma ordered_ascending t : ordered comp t -> ascending comp (keys t).
Proof.
  unfold keys. induction t as [|a l IHl k v h r IHr]; cbn [ordered entries]; [done|].
  intros (Hl & Hr & Ol & Or). rewrite map_app. cbn [map fst].
  apply ascending_app.
  - apply ascending_snoc; [|auto]. by apply all_keys_entries.
  - apply ascending_cons; [|auto]. by apply all_keys_entries.
Qed.

Lemma ascending_above x (l : list Key) :
  ascending comp (x :: l) -> Forall (fun y => comp x y = true) l.
Proof.
  revert x. induction l as [|y l IH]; intros x; [constructor|].
  cbn [ascending]. intros [Hxy Hl]. constructor; [done|].
  eapply Forall_impl; [by apply IH|]. cbn beta. eauto.
Qed.

Lemma ascending_NoDup (l : list Key) : ascending comp l -> NoDup l.
Proof.
  induction l as [|x l IH]; [constructor|]. intros H.
  apply NoDup_cons_2.
  - intros Hin. apply ascending_above in H.
    rewrite Forall_forall in H. specialize (H _ Hin). cbn beta in H.
    by rewrite comp_irrefl in H.
  - apply IH. destruct l; [done|]. cbn in H. tauto.
Qed.

End Ordering.

(** ** The height invariant under insertion and removal *)

Section Heights.
Context {Key Value : Type}.
Variable comp : Key -> Key -> bool.
Implicit Types (t l r : tree Key Value).

Lemma avl_ht_pos t : avl t -> t <> E -> 1 <= ht t.
Proof.
  induction t as [|a l IHl k v h r IHr]; [done|]. cbn [avl ht].
  intros (-> & _ & Hl & Hr) _.
  assert (0 <= ht l) by (destruct l; [cbn; lia|]; apply Z.le_trans with 1; [lia|by apply IHl]).
  lia.
Qed.

Lemma avl_ht_nonneg t : avl t -> 0 <= ht t.
Proof.
  intros H. destruct t; [cbn; lia|]. apply Z.le_trans with 1; [lia|].
  by apply avl_ht_pos.
Qed.

Lemma avl_hpos t : avl t -> hpos t.
Proof.
  induction t as [|a l IHl k v h r IHr]; [done|]. cbn [avl hpos].
  intros (-> & _ & Hl & Hr). pose proof (avl_ht_nonneg _ Hl).
  split_and!; auto. lia.
Qed.

(** [balance] restores the invariant at a node whose subtrees satisfy it
    and differ in height by at most two. *)
Lemma avl_bal a l k v h r :
  avl l -> avl r -> -2 <= ht l - ht r <= 2 ->
  avl (bal (T a l k v h r)) /\
  Z.max (ht l) (ht r) <= ht (bal (T a l k v h r)) <= 1 + Z.max (ht l) (ht r) /\
  (-1 <= ht l - ht r <= 1 ->
   ht (bal (T a l k v h r)) = 1 + Z.max (ht l) (ht r)).
Proof.
  intros Hl Hr Hd. unfold bal. cbn [upd].
  pose proof (avl_ht_nonneg _ Hl). pose proof (avl_ht_nonneg _ Hr).
  destruct (Z.ltb_spec 1 (ht l - ht r)) as [H1|H1].
  - destruct l as [|al ll kl vl hl lr]; [cbn in *; lia|].
    cbn [avl ht] in *. destruct Hl as (-> & Hbl & Hll & Hlr).
    pose proof (avl_ht_nonneg _ Hll). pose proof (avl_ht_nonneg _ Hlr).
    cbn [bf]. destruct (Z.ltb_spec (ht ll - ht lr) 0) as [Hc|Hc].
    + destruct lr as [|ar rl kr vr hr rr]; [cbn in *; lia|].
      cbn [avl ht] in *. destruct Hlr as (-> & Hbr & Hrl & Hrr).
      pose proof (avl_ht_nonneg _ Hrl). pose proof (avl_ht_nonneg _ Hrr).
      cbn [rotL rotR upd ht avl]. split_and!; try done; lia.
    + cbn [rotR upd ht avl]. split_and!; try done; lia.
  - destruct (Z.ltb_spec (ht l - ht r) (-1)) as [H3|H3].
    + destruct r as [|ar rl kr vr hr rr]; [cbn in *; lia|].
      cbn [avl ht] in *. destruct Hr as (-> & Hbr & Hrl & Hrr).
      pose proof (avl_ht_nonneg _ Hrl). pose proof (avl_ht_nonneg _ Hrr).
      cbn [bf]. destruct (Z.ltb_spec 0 (ht rl - ht rr)) as [Hc|Hc].
      * destruct rl as [|al ll kl vl hl lr]; [cbn in *; lia|].
        cbn [avl ht] in *. destruct Hrl as (-> & Hbl & Hll & Hlr).
        pose proof (avl_ht_nonneg _ Hll). pose proof (avl_ht_nonneg _ Hlr).
        cbn [rotL rotR upd ht avl]. split_and!; try done; lia.
      * cbn [rotL upd ht avl]. split_and!; try done; lia.
    + cbn [ht avl]. split_and!; try done; lia.
Qed.

Lemma avl_ins fresh t key value :
  avl t ->
  avl (ins comp fresh t key value) /\
  ht t <= ht (ins comp fresh t key value) <= ht t + 1.
Proof.
  induction t as [|a l IHl k v h r IHr]; cbn [ins].
  - intros _. cbn. lia.
  - cbn [avl ht]. intros (-> & Hb & Hl & Hr).
    pose proof (avl_ht_nonneg _ Hl). pose proof (avl_ht_nonneg _ Hr).
    destruct (comp key k); [|destruct (comp k key)].
    + destruct (IHl Hl) as (Hl' & Hh).
      destruct (avl_bal a (ins comp fresh l key value) k v
                  (1 + Z.max (ht l) (ht r)) r) as (Ha & Hr1 & Hr2); [done|done|lia|].
      split; [done|]. lia.
    + destruct (IHr Hr) as (Hr' & Hh).
      destruct (avl_bal a l k v (1 + Z.max (ht l) (ht r))
                  (ins comp fresh r key value)) as (Ha & Hr1 & Hr2); [done|done|lia|].
      split; [done|]. lia.
    + destruct (avl_bal a l k value (1 + Z.max (ht l) (ht r)) r)
        as (Ha & Hr1 & Hr2); [done|done|lia|].
      split; [done|]. lia.
Qed.

Lemma avl_del t : forall key,
  avl t ->
  avl (del comp t key) /\ ht t - 1 <= ht (del comp t key) <= ht t.
Proof.
  induction t as [|a l IHl k v h r IHr]; intros key; cbn [del].
  - intros _. cbn. lia.
  - cbn [avl ht]. intros (-> & Hb & Hl & Hr).
    pose proof (avl_ht_nonneg _ Hl). pose proof (avl_ht_nonneg _ Hr).
    destruct (comp key k); [|destruct (comp k key)].
    + destruct (IHl key Hl) as (Hl' & Hh).
      destruct (avl_bal a (del comp l key) k v
                  (1 + Z.max (ht l) (ht r)) r) as (Ha & Hr1 & Hr2); [done|done|lia|].
      split; [done|]. lia.
    + destruct (IHr key Hr) as (Hr' & Hh).
      destruct (avl_bal a l k v (1 + Z.max (ht l) (ht r))
                  (del comp r key)) as (Ha & Hr1 & Hr2); [done|done|lia|].
      split; [done|]. lia.
    + destruct l as [|la ll lk lv lh lr]; [split; [done|cbn [ht] in *; lia]|].
      destruct r as [|ra rl rk rv rh rr]; [split; [done|cbn [ht] in *; lia]|].
      cbn zeta.
      set (mkey := fst (entry_of (leftmost (T ra rl rk rv rh rr)) (k, v))).
      set (mval := snd (entry_of (leftmost (T ra rl rk rv rh rr)) (k, v))).
      destruct (IHr mkey Hr) as (Hr' & Hh).
      destruct (avl_bal a (T la ll lk lv lh lr) mkey mval
                  (1 + Z.max (ht (T la ll lk lv lh lr)) (ht (T ra rl rk rv rh rr)))
                  (del comp (T ra rl rk rv rh rr) mkey)) as (Ha & Hr1 & Hr2);
        [done|done|lia|].
      split; [done|]. lia.
Qed.

End Heights.

(** ** Running the store-level code *)

Section Runs.
Context {Key Value : Type}.
Implicit Types (t l r : tree Key Value) (s : St Key Value)
  (m : gmap addr (Node Key Value)) (nd : Node Key Value).

Lemma wp_bind {A B} (c : M Key Value A) (k : A -> M Key Value B) s Q :
  wp c s (fun x s1 => wp (k x) s1 Q) -> wp (bind c k) s Q.
Proof.
  intros (x & s1 & Hc & y & s2 & Hk & HQ). exists y, s2.
  split; [|done]. unfold bind. by rewrite Hc.
Qed.

Lemma wp_ret {A} (x : A) s (Q : A -> St Key Value -> Prop) :
  Q x s -> wp (ret x) s Q.
Proof. intros H. by exists x, s. Qed.

Lemma wp_mono {A} (c : M Key Value A) s (Q Q' : A -> St Key Value -> Prop) :
  wp c s Q -> (forall x s', Q x s' -> Q' x s') -> wp c s Q'.
Proof. intros (x & s' & Hc & HQ) H. exists x, s'. auto. Qed.

Lemma wp_load a nd s Q :
  mem s !! a = Some nd -> Q nd s -> wp (load (Some a)) s Q.
Proof. intros H HQ. exists nd, s. split; [|done]. unfold load. by rewrite H. Qed.

Lemma wp_modify a nd f rt nc m n Q :
  m !! a = Some nd ->
  Q tt (mkSt rt nc (<[a := f nd]> m) n) ->
  wp (modify (Some a) f) (mkSt rt nc m n) Q.
Proof.
  intros H HQ. unfold modify. apply wp_bind. eapply wp_load; [done|].
  eexists _, _. split; [reflexivity|done].
Qed.

Lemma wp_lock_some a nd s Q :
  mem s !! a = Some nd -> Q (Some a) s -> wp (lock (Some a)) s Q.
Proof. intros H HQ. exists (Some a), s. split; [|done]. unfold lock. by rewrite H. Qed.

Lemma wp_height_some a nd s Q :
  mem s !! a = Some nd -> Q (height nd) s -> wp (height_of (Some a)) s Q.
Proof. intros H HQ. apply wp_bind. eapply wp_load; [done|]. by apply wp_ret. Qed.

(** *** Cells that keep a shape *)

Lemma shape_insert_weak a nd' m n t :
  shape m n t ->
  (a ∈ addrs t -> exists nd, m !! a = Some nd /\ same_but_parent n nd nd') ->
  shape (<[a := nd']> m) n t.
Proof.
  induction t as [|b l IHl k v h r IHr]; cbn [shape]; [done|].
  intros [[Hb (par & Hpar & Hlk)] [Hl Hr]] Hin.
  split; [split; [done|]|split].
  - destruct (decide (a = b)) as [->|Hne].
    + destruct Hin as (nd & Hnd & Hd & Hle & Hri & Hh & Hp); [set_solver|].
      rewrite Hlk in Hnd. injection Hnd as <-. cbn in *.
      exists (parent nd'). split; [done|]. rewrite lookup_insert_eq.
      destruct nd'; cbn in *; congruence.
    + exists par. split; [done|]. by rewrite lookup_insert_ne.
  - apply IHl; [done|]. intros ?; apply Hin; set_solver.
  - apply IHr; [done|]. intros ?; apply Hin; set_solver.
Qed.

Lemma shape_frame m m' n n' t :
  shape m n t -> (n <= n')%nat ->
  (forall b, b ∈ addrs t -> m' !! b = m !! b) ->
  shape m' n' t.
Proof.
  intros H Hn. induction t as [|b l IHl k v h r IHr]; cbn [shape] in *; [done|].
  destruct H as [[Hb (par & Hpar & Hlk)] [Hl Hr]]. intros Heq.
  split; [split; [lia|]|split].
  - exists par. split; [destruct par; cbn in *; lia|].
    rewrite Heq; [done|set_solver].
  - apply IHl; [done|]. intros; apply Heq; set_solver.
  - apply IHr; [done|]. intros; apply Heq; set_solver.
Qed.

Lemma shape_bound m n t b : shape m n t -> b ∈ addrs t -> (b < n)%nat.
Proof.
  induction t as [|a l IHl k v h r IHr]; cbn [shape addrs]; [set_solver|].
  intros [[Ha _] [Hl Hr]] Hin.
  apply elem_of_cons in Hin as [->|Hin]; [done|].
  apply elem_of_app in Hin as [Hin|Hin]; auto.
Qed.

Lemma shape_alloc m n t nd :
  shape m n t -> shape (<[n := nd]> m) (S n) t.
Proof.
  intros H. apply (shape_frame m _ n); [done|lia|].
  intros b Hb. rewrite lookup_insert_ne; [done|].
  pose proof (shape_bound _ _ _ _ H Hb). lia.
Qed.

Lemma wp_height_shape t n s Q :
  shape (mem s) n t -> Q (ht t) s -> wp (height_of (root_of t)) s Q.
Proof.
  destruct t; cbn [shape root_of]; [by intros _; apply wp_ret|].
  intros [[_ (par & _ & H)] _] HQ.
  apply wp_bind. eapply wp_load; [done|]. by apply wp_ret.
Qed.

Lemma wp_bf_shape t n s Q :
  shape (mem s) n t -> Q (bf t) s -> wp (balanceFactor (root_of t)) s Q.
Proof.
  destruct t as [|a l k v h r]; cbn [shape root_of]; [by intros _; apply wp_ret|].
  intros [[_ (par & _ & H)] [Hl Hr]] HQ. unfold balanceFactor.
  apply wp_bind. eapply wp_load; [done|]. cbn [left right].
  apply wp_bind. eapply wp_height_shape; [done|].
  apply wp_bind. eapply wp_height_shape; [done|]. by apply wp_ret.
Qed.

Lemma frame_eq_refl A s : frame_eq A s s.
Proof. done. Qed.

Lemma frame_eq_trans A B C s1 s2 s3 :
  frame_eq A s1 s2 -> frame_eq B s2 s3 -> A ⊆ C -> B ⊆ C -> frame_eq C s1 s3.
Proof.
  intros (Ea & Eb & Ec & H1) (Fa & Fb & Fc & H2) HA HB.
  split_and!; try congruence.
  intros b Hb. rewrite H2, H1; [done|set_solver..].
Qed.

(** *** Regions that do not meet *)

Lemma sep_cons_l (a : addr) (p q : list addr) :
  (forall x, x ∈ (a :: p) -> x ∉ q) -> (a ∉ q) /\ (forall x, x ∈ p -> x ∉ q).
Proof. intros H. split; [apply H; left|]. intros x Hx. apply H. by right. Qed.

Lemma sep_app_l (p p' q : list addr) :
  (forall x, x ∈ (p ++ p') -> x ∉ q) ->
  (forall x, x ∈ p -> x ∉ q) /\ (forall x, x ∈ p' -> x ∉ q).
Proof. intros H. split; intros x Hx; apply H, elem_of_app; auto. Qed.

Lemma sep_cons_r (a : addr) (p q : list addr) :
  (forall x, x ∈ p -> x ∉ (a :: q)) -> (a ∉ p) /\ (forall x, x ∈ p -> x ∉ q).
Proof.
  intros H. split.
  - intros Ha. apply (H _ Ha). left.
  - intros x Hx Hx2. apply (H _ Hx). by right.
Qed.

Lemma sep_app_r (p q q' : list addr) :
  (forall x, x ∈ p -> x ∉ (q ++ q')) ->
  (forall x, x ∈ p -> x ∉ q) /\ (forall x, x ∈ p -> x ∉ q').
Proof.
  intros H. split; intros x Hx Hx2; apply (H _ Hx), elem_of_app; auto.
Qed.

End Runs.

Ltac clash :=
  match goal with
  | H : ?b ∈ ?L, H' : ?b ∉ ?L |- _ => exact (False_ind _ (H' H))
  | H : ?b ∈ ?L, H' : (forall x, x ∈ ?L -> x ∉ ?L2), H'' : ?b ∈ ?L2 |- _ =>
      exact (False_ind _ (H' _ H H''))
  end.

Ltac neq :=
  first [ congruence
        | let H := fresh in intros H; subst; clash ].

Ltac notin :=
  rewrite ?not_elem_of_cons, ?not_elem_of_app;
  repeat split;
  first [ assumption | congruence
        | let H := fresh in intros H; subst; clash ].

Ltac lk :=
  cbn [mem set_mem root nodeCount brk];
  repeat first
    [ rewrite lookup_insert_eq
    | rewrite lookup_insert_ne by neq
    | rewrite lookup_delete_ne by neq
    | match goal with
      | Hm : (forall b, b ∉ _ -> ?m !! b = _) |- context [?m !! ?a] =>
          rewrite (Hm a) by notin
      end ];
  first [ eassumption | reflexivity ].

Ltac shp :=
  cbn [mem set_mem root nodeCount brk];
  repeat (apply shape_insert_weak;
          [| first [ by (intros ?; exfalso; eauto)
                   | intros _; eexists; split; [lk | by repeat split] ] ]);
  eassumption.

Ltac fields :=
  cbn beta;
  cbn [with_left with_right with_parent with_height with_data
       data left right parent height root_of ht fst snd].

Ltac step :=
  fields;
  lazymatch goal with
  | |- wp (bind _ _) _ _ => apply wp_bind
  | |- wp (ret _) _ _ => apply wp_ret
  | |- wp (load (Some _)) _ _ => eapply wp_load; [lk|]
  | |- wp (modify (Some _) _) _ _ => eapply wp_modify; [lk|]
  | |- wp (lock (Some _)) _ _ => eapply wp_lock_some; [lk|]
  | |- wp (height_of (root_of _)) _ _ => eapply wp_height_shape; [shp|]
  | |- wp (height_of (Some _)) _ _ => eapply wp_height_some; [lk|]
  | |- wp (height_of None) _ _ => apply wp_ret
  | |- wp (move_left _) _ _ => unfold move_left
  | |- wp (move_right _) _ _ => unfold move_right
  | |- wp (set_left _ _) _ _ => unfold set_left
  | |- wp (set_right _ _) _ _ => unfold set_right
  | |- wp (set_parent _ _) _ _ => unfold set_parent
  | |- wp (set_height _ _) _ _ => unfold set_height
  | |- wp (set_data _ _) _ _ => unfold set_data
  | |- wp (updateHeight (Some _)) _ _ => unfold updateHeight
  end.

(** Take a frame between explicit states apart. *)
Ltac unframe H Hm :=
  unfold frame_eq in H; cbn [root nodeCount brk mem] in H;
  destruct H as (-> & -> & -> & Hm).

(** Which addresses differ, read off the absence of duplicates. *)
Ltac apart :=
  cbn [addrs] in *;
  repeat match goal with
  | H : NoDup (_ :: _) |- _ => apply NoDup_cons in H as [? H]
  | H : NoDup (_ ++ _) |- _ => apply NoDup_app in H as (? & ? & ?)
  | H : NoDup [] |- _ => clear H
  | H : _ ∉ (_ :: _) |- _ => apply not_elem_of_cons in H as [? ?]
  | H : _ ∉ (_ ++ _) |- _ => apply not_elem_of_app in H as [? ?]
  | H : _ ∉ [] |- _ => clear H
  | H : forall x, x ∈ [] -> _ |- _ => clear H
  | H : forall x, x ∈ _ -> x ∉ [] |- _ => clear H
  | H : forall x, x ∈ (_ :: _) -> x ∉ _ |- _ => apply sep_cons_l in H as [? ?]
  | H : forall x, x ∈ (_ ++ _) -> x ∉ _ |- _ => apply sep_app_l in H as [? ?]
  | H : forall x, x ∈ _ -> x ∉ (_ :: _) |- _ => apply sep_cons_r in H as [? ?]
  | H : forall x, x ∈ _ -> x ∉ (_ ++ _) |- _ => apply sep_app_r in H as [? ?]
  end.

Section Rotations.
Context {Key Value : Type}.
Implicit Types (t l r : tree Key Value) (s : St Key Value)
  (m : gmap addr (Node Key Value)) (nd : Node Key Value).

Lemma rotateRight_spec s t :
  own s t -> left_heavy t ->
  wp (rotateRight (root_of t)) s (fun x s' =>
    x = root_of (rotR t) /\ own s' (rotR t) /\ frame_eq (addrs t) s s').
Proof.
  destruct t as [|ay [|ax xl kx vx hx xr] ky vy hy yr]; try done.
  intros [Hsh Hnd] _. destruct s as [rt nc m n]. cbn [shape mem brk] in Hsh.
  destruct Hsh as [[Hay (pary & Hpary & Hy)] [[[Hax (parx & Hparx & Hx)] [Hxl Hxr]] Hyr]].
  match goal with |- context [rotR ?t] =>
    assert (kept (NoDup (addrs (rotR t)))) as Hnd' by (by unfold kept; rewrite addrs_rotR)
  end.
  destruct xr as [|axr xrl kxr vxr hxr xrr];
    [|cbn [shape] in Hxr;
      destruct Hxr as [[Haxr (parxr & Hparxr & Hxr)] [Hxrl Hxrr]]];
    apart.
  all: unfold rotateRight; repeat step.
  all: fields; (split; [done|]); (split; [split; [|exact Hnd']|]).
  all: try (split_and!; try done; intros b Hb; apart; lk).
  all: cbn [rotR upd shape mem brk ht].
  all: repeat first [ done | shp | split | eexists; split; [|lk]; done ].
Qed.

Lemma rotateLeft_spec s t :
  own s t -> right_heavy t ->
  wp (rotateLeft (root_of t)) s (fun x s' =>
    x = root_of (rotL t) /\ own s' (rotL t) /\ frame_eq (addrs t) s s').
Proof.
  destruct t as [|ax xl kx vx hx [|ay yl ky vy hy yr]]; try done.
  intros [Hsh Hnd] _. destruct s as [rt nc m n]. cbn [shape mem brk] in Hsh.
  destruct Hsh as [[Hax (parx & Hparx & Hx)] [Hxl [[Hay (pary & Hpary & Hy)] [Hyl Hyr]]]].
  match goal with |- context [rotL ?t] =>
    assert (kept (NoDup (addrs (rotL t)))) as Hnd' by (by unfold kept; rewrite addrs_rotL)
  end.
  destruct yl as [|ayl yll kyl vyl hyl ylr];
    [|cbn [shape] in Hyl;
      destruct Hyl as [[Hayl (paryl & Hparyl & Hyl)] [Hyll Hylr]]];
    apart.
  all: unfold rotateLeft; repeat step.
  all: fields; (split; [done|]); (split; [split; [|exact Hnd']|]).
  all: try (split_and!; try done; intros b Hb; apart; lk).
  all: cbn [rotL upd shape mem brk ht].
  all: repeat first [ done | shp | split | eexists; split; [|lk]; done ].
Qed.

(** *** Steps on the node at the root of an owned tree *)

Lemma own_sub_l s a l k v h r : own s (T a l k v h r) -> own s l.
Proof.
  intros [Hsh Hnd]. split; [apply Hsh|]. cbn [addrs] in Hnd.
  apply NoDup_cons in Hnd as [_ Hnd]. by apply NoDup_app in Hnd as (? & _ & _).
Qed.

Lemma own_sub_r s a l k v h r : own s (T a l k v h r) -> own s r.
Proof.
  intros [Hsh Hnd]. split; [apply Hsh|]. cbn [addrs] in Hnd.
  apply NoDup_cons in Hnd as [_ Hnd]. by apply NoDup_app in Hnd as (_ & _ & ?).
Qed.

Lemma own_bound s t b : own s t -> b ∈ addrs t -> (b < brk s)%nat.
Proof. intros [H _]. by eapply shape_bound. Qed.

Lemma own_node s a l k v h r par :
  mem s !! a = Some (mkNode (k, v) (root_of l) (root_of r) par h) ->
  (a < brk s)%nat -> pv (brk s) par ->
  own s l -> own s r ->
  a ∉ addrs l -> a ∉ addrs r -> (forall x, x ∈ addrs l -> x ∉ addrs r) ->
  own s (T a l k v h r).
Proof.
  intros Hlk Ha Hp [Hl Nl] [Hr Nr] Hal Har Hlr. split.
  - cbn [shape]. eauto 10.
  - cbn [addrs]. apply NoDup_cons. split; [by apply not_elem_of_app|].
    by apply NoDup_app.
Qed.

Lemma own_frame s s' t :
  own s t -> (brk s <= brk s')%nat ->
  (forall b, b ∈ addrs t -> mem s' !! b = mem s !! b) ->
  own s' t.
Proof. intros [H N] Hb Hm. split; [|done]. by eapply shape_frame. Qed.

Lemma own_root s a l k v h r :
  own s (T a l k v h r) ->
  exists par, pv (brk s) par /\
    mem s !! a = Some (mkNode (k, v) (root_of l) (root_of r) par h).
Proof. intros [[[_ (par & Hp & H)] _] _]. eauto. Qed.

Lemma updateHeight_spec s t :
  own s t -> t <> E ->
  wp (updateHeight (root_of t)) s (fun _ s' =>
    own s' (upd t) /\ frame_eq (addrs t) s s').
Proof.
  destruct t as [|a l k v h r]; [done|]. intros [Hsh Hnd] _.
  destruct s as [rt nc m n]. cbn [shape mem brk] in Hsh.
  destruct Hsh as [[Ha (par & Hpar & Hlk)] [Hl Hr]].
  pose proof (Hnd : kept _) as Hnd'. apart.
  cbn [root_of]; repeat step.
  fields. split; [split; [|exact Hnd']|].
  - cbn [upd shape mem brk].
    repeat first [ done | shp | split | eexists; split; [|lk]; done ].
  - split_and!; try done. intros b Hb. apart. lk.
Qed.

Lemma balanceFactor_spec s t Q :
  own s t -> Q (bf t) s -> wp (balanceFactor (root_of t)) s Q.
Proof. intros [H _]. by eapply wp_bf_shape. Qed.

Lemma set_parent_spec s t p :
  own s t -> t <> E -> pv (brk s) p ->
  wp (set_parent (root_of t) p) s (fun _ s' =>
    own s' t /\ frame_eq (addrs t) s s').
Proof.
  destruct t as [|a l k v h r]; [done|]. intros [Hsh Hnd] _ Hp.
  destruct s as [rt nc m n]. cbn [shape mem brk] in Hsh, Hp.
  destruct Hsh as [[Ha (par & Hpar & Hlk)] [Hl Hr]].
  pose proof (Hnd : kept _) as Hnd'. apart.
  cbn [root_of]; repeat step.
  fields. split; [split; [|exact Hnd']|].
  - cbn [shape mem brk].
    repeat first [ done | shp | split | eexists; split; [|lk]; done ].
  - split_and!; try done. intros b Hb. apart. lk.
Qed.

(** [n->left = rotateLeft(std::move(n->left))] *)
Lemma rotate_left_child s a l k v h r :
  own s (T a l k v h r) -> right_heavy l ->
  wp (bind (move_left (Some a)) (fun p =>
      bind (rotateLeft p) (fun q => set_left (Some a) q))) s (fun _ s' =>
    own s' (T a (rotL l) k v h r) /\ frame_eq (addrs (T a l k v h r)) s s').
Proof.
  intros Hown Hrh. pose proof (own_sub_l _ _ _ _ _ _ _ Hown) as Hol.
  pose proof (own_sub_r _ _ _ _ _ _ _ Hown) as Hor.
  destruct Hown as [Hsh Hnd]. destruct s as [rt nc m n]. cbn [shape mem brk] in Hsh.
  destruct Hsh as [[Ha (par & Hpar & Hlk)] [Hl Hr]]. apart.
  repeat step. fields. eapply wp_mono.
  { apply rotateLeft_spec; [|done]. eapply own_frame; [exact Hol|done|intros; lk]. }
  intros x [rt3 nc3 m3 n3] (-> & Hown3 & Hfr3). unframe Hfr3 Hm.
  assert (a ∉ addrs (rotL l)) by (by rewrite addrs_rotL).
  assert (forall x, x ∈ addrs (rotL l) -> x ∉ addrs r)
    by (intros x; rewrite addrs_rotL; auto).
  repeat step. split.
  - eapply own_node; [lk|done|done| | | | |].
    + eapply own_frame; [exact Hown3|done|intros; lk].
    + eapply own_frame; [exact Hor|done|intros; lk].
    + done.
    + done.
    + done.
  - split_and!; try done. intros b Hb. apart. lk.
Qed.

(** [n->right = rotateRight(std::move(n->right))] *)
Lemma rotate_right_child s a l k v h r :
  own s (T a l k v h r) -> left_heavy r ->
  wp (bind (move_right (Some a)) (fun p =>
      bind (rotateRight p) (fun q => set_right (Some a) q))) s (fun _ s' =>
    own s' (T a l k v h (rotR r)) /\ frame_eq (addrs (T a l k v h r)) s s').
Proof.
  intros Hown Hrh. pose proof (own_sub_l _ _ _ _ _ _ _ Hown) as Hol.
  pose proof (own_sub_r _ _ _ _ _ _ _ Hown) as Hor.
  destruct Hown as [Hsh Hnd]. destruct s as [rt nc m n]. cbn [shape mem brk] in Hsh.
  destruct Hsh as [[Ha (par & Hpar & Hlk)] [Hl Hr]]. apart.
  repeat step. fields. eapply wp_mono.
  { apply rotateRight_spec; [|done]. eapply own_frame; [exact Hor|done|intros; lk]. }
  intros x [rt3 nc3 m3 n3] (-> & Hown3 & Hfr3). unframe Hfr3 Hm.
  assert (a ∉ addrs (rotR r)) by (by rewrite addrs_rotR).
  assert (forall x, x ∈ addrs l -> x ∉ addrs (rotR r))
    by (intros x; rewrite addrs_rotR; auto).
  repeat step. split.
  - eapply own_node; [lk|done|done| | | | |].
    + eapply own_frame; [exact Hol|done|intros; lk].
    + eapply own_frame; [exact Hown3|done|intros; lk].
    + done.
    + done.
    + done.
  - split_and!; try done. intros b Hb. apart. lk.
Qed.

Lemma frame_eq_sub (A B : list addr) s s' :
  frame_eq A s s' -> (forall b, b ∈ A -> b ∈ B) -> frame_eq B s s'.
Proof.
  intros (? & ? & ? & H) Hsub. split_and!; try done.
  intros b Hb. apply H. auto.
Qed.

Lemma frame_eq_seq (A : list addr) s1 s2 s3 :
  frame_eq A s1 s2 -> frame_eq A s2 s3 -> frame_eq A s1 s3.
Proof. intros H1 H2. by apply (frame_eq_trans A A A s1 s2 s3). Qed.

Lemma right_heavy_bf t : hpos t -> bf t < 0 -> right_heavy t.
Proof.
  destruct t as [|a l k v h r]; cbn [bf hpos]; [lia|]. intros (_ & Hl & _) Hb.
  pose proof (ht_nonneg _ Hl). destruct r; [cbn [ht] in Hb; lia|done].
Qed.

Lemma left_heavy_bf t : hpos t -> 0 < bf t -> left_heavy t.
Proof.
  destruct t as [|a l k v h r]; cbn [bf hpos]; [lia|]. intros (_ & _ & Hr) Hb.
  pose proof (ht_nonneg _ Hr). destruct l; [cbn [ht] in Hb; lia|done].
Qed.

Lemma left_heavy_node a l k v h r : l <> E -> left_heavy (T a l k v h r).
Proof. by destruct l. Qed.

Lemma right_heavy_node a l k v h r : r <> E -> right_heavy (T a l k v h r).
Proof. by destruct r. Qed.

(** [balance] at a node: the height stored at the node itself is not read
    before it is recomputed. *)
Lemma balance_node_spec s a l k v h r :
  own s (T a l k v h r) -> hpos l -> hpos r ->
  wp (balance (Some a)) s (fun x s' =>
    x = root_of (bal (T a l k v h r)) /\ own s' (bal (T a l k v h r)) /\
    frame_eq (addrs (T a l k v h r)) s s').
Proof.
  intros Hown Hpl Hpr. change (Some a) with (root_of (T a l k v h r)).
  unfold balance, bal. cbn [upd]. set (h' := 1 + ht l `max` ht r).
  apply wp_bind. eapply wp_mono; [by apply updateHeight_spec|].
  intros _ s1 [Hown1 Hfr1]. cbn [upd] in Hown1. fold h' in Hown1.
  apply wp_bind. apply (balanceFactor_spec s1 (T a l k v h' r)); [done|]. cbn [bf].
  pose proof (ht_nonneg _ Hpl) as Hnl. pose proof (ht_nonneg _ Hpr) as Hnr.
  destruct (1 <? ht l - ht r) eqn:Hbig.
  - apply Z.ltb_lt in Hbig.
    assert (l <> E) as Hlne by (apply ht_pos_inv; lia).
    destruct (own_root _ _ _ _ _ _ _ Hown1) as (par & Hpar & Hlk).
    apply wp_bind. eapply wp_load; [done|]. cbn [left].
    apply wp_bind. apply balanceFactor_spec; [by eapply own_sub_l|].
    apply wp_bind.
    apply (wp_mono _ _ (fun _ s2 =>
      own s2 (T a (if bf l <? 0 then rotL l else l) k v h' r) /\
      frame_eq (addrs (T a l k v h' r)) s1 s2)).
    { destruct (bf l <? 0) eqn:Hbl.
      - apply Z.ltb_lt in Hbl. apply rotate_left_child; [done|].
        by apply right_heavy_bf.
      - by apply wp_ret. }
    intros _ s2 [Hown2 Hfr2].
    apply wp_bind. eapply wp_mono.
    { apply (rotateRight_spec s2 (T a (if bf l <? 0 then rotL l else l) k v h' r));
        [done|]. apply left_heavy_node. case_match; [by apply rotL_nonempty|done]. }
    intros x s3 (-> & Hown3 & Hfr3).
    apply wp_bind. eapply wp_mono.
    { apply set_parent_spec; [exact Hown3| |done].
      by apply rotR_nonempty. }
    intros _ s4 [Hown4 Hfr4]. apply wp_ret. split_and!; [done|done|].
    assert (forall b, b ∈ addrs (T a (if bf l <? 0 then rotL l else l) k v h' r) ->
                      b ∈ addrs (T a l k v h r)) as Hsub.
    { intros b. cbn [addrs]. case_match; by rewrite ?addrs_rotL. }
    eapply frame_eq_seq; [exact Hfr1|]. eapply frame_eq_seq; [exact Hfr2|].
    eapply frame_eq_seq; [by eapply frame_eq_sub|].
    eapply frame_eq_sub; [exact Hfr4|]. intros b. rewrite addrs_rotR. apply Hsub.
  - apply Z.ltb_ge in Hbig.
    apply wp_bind. apply (balanceFactor_spec s1 (T a l k v h' r)); [done|]. cbn [bf].
    destruct (ht l - ht r <? -1) eqn:Hsmall.
    + apply Z.ltb_lt in Hsmall.
      assert (r <> E) as Hrne by (apply ht_pos_inv; lia).
      destruct (own_root _ _ _ _ _ _ _ Hown1) as (par & Hpar & Hlk).
      apply wp_bind. eapply wp_load; [done|]. cbn [right].
      apply wp_bind. apply balanceFactor_spec; [by eapply own_sub_r|].
      apply wp_bind.
      apply (wp_mono _ _ (fun _ s2 =>
        own s2 (T a l k v h' (if 0 <? bf r then rotR r else r)) /\
        frame_eq (addrs (T a l k v h' r)) s1 s2)).
      { destruct (0 <? bf r) eqn:Hbr.
        - apply Z.ltb_lt in Hbr. apply rotate_right_child; [done|].
          by apply left_heavy_bf.
        - by apply wp_ret. }
      intros _ s2 [Hown2 Hfr2].
      apply wp_bind. eapply wp_mono.
      { apply (rotateLeft_spec s2 (T a l k v h' (if 0 <? bf r then rotR r else r)));
          [done|]. apply right_heavy_node. case_match; [by apply rotR_nonempty|done]. }
      intros x s3 (-> & Hown3 & Hfr3).
      apply wp_bind. eapply wp_mono.
      { apply set_parent_spec; [exact Hown3| |done].
        by apply rotL_nonempty. }
      intros _ s4 [Hown4 Hfr4]. apply wp_ret. split_and!; [done|done|].
      assert (forall b, b ∈ addrs (T a l k v h' (if 0 <? bf r then rotR r else r)) ->
                        b ∈ addrs (T a l k v h r)) as Hsub.
      { intros b. cbn [addrs]. case_match; by rewrite ?addrs_rotR. }
      eapply frame_eq_seq; [exact Hfr1|]. eapply frame_eq_seq; [exact Hfr2|].
      eapply frame_eq_seq; [by eapply frame_eq_sub|].
      eapply frame_eq_sub; [exact Hfr4|]. intros b. rewrite addrs_rotL. apply Hsub.
    + by apply wp_ret.
Qed.

Lemma balance_spec s t :
  own s t -> hpos t -> t <> E ->
  wp (balance (root_of t)) s (fun x s' =>
    x = root_of (bal t) /\ own s' (bal t) /\ frame_eq (addrs t) s s').
Proof.
  destruct t as [|a l k v h r]; [done|]. intros Hown (Hh & Hpl & Hpr) _.
  by apply balance_node_spec.
Qed.

End Rotations.

(** ** Regions that grow and shrink *)

Section Regions.
Context {Key Value : Type}.
Implicit Types (t l r : tree Key Value) (s : St Key Value)
  (m : gmap addr (Node Key Value)) (nd : Node Key Value).

Lemma evolves_refl s t : own s t -> evolves t t s s.
Proof.
  intros H. split_and!; auto. intros b Hb. by rewrite decide_False.
Qed.

Lemma evolves_fresh t t' s s' a :
  evolves t t' s s' -> a ∉ addrs t -> (a < brk s)%nat -> a ∉ addrs t'.
Proof. intros (_ & _ & _ & Hf & _) Ha Hlt Hin. destruct (Hf _ Hin); [done|lia]. Qed.

Lemma evolves_outside t t' s s' b :
  evolves t t' s s' -> b ∉ addrs t -> (b < brk s)%nat ->
  mem s' !! b = mem s !! b.
Proof.
  intros Hev Hb Hlt. pose proof (evolves_fresh _ _ _ _ _ Hev Hb Hlt) as Hb'.
  destruct Hev as (_ & _ & _ & _ & Hm). by rewrite Hm, decide_False.
Qed.

Lemma wp_state (f : St Key Value -> St Key Value) s (Q : unit -> St Key Value -> Prop) :
  Q tt (f s) -> wp (fun s => Ret tt (f s)) s Q.
Proof. intros H. by exists tt, (f s). Qed.

Lemma wp_make_node key value par s (Q : ptr -> St Key Value -> Prop) :
  Q (Some (brk s))
    (mkSt (root s) (nodeCount s)
       (<[brk s := mkNode (key, value) None None par 1]> (mem s)) (S (brk s))) ->
  wp (make_node key value par) s Q.
Proof. intros H. eexists _, _. split; [reflexivity|done]. Qed.

Lemma wp_destroy a s (Q : unit -> St Key Value -> Prop) :
  Q tt (set_mem s (delete a (mem s))) -> wp (destroy (Some a)) s Q.
Proof. intros H. eexists _, _. split; [reflexivity|done]. Qed.

(** The left child of [a] has been worked on and is put back. *)
Lemma attach_left s s0 s1 a l l' k v h r k' v' h' lp par :
  own s (T a l k v h r) ->
  frame_eq [a] s s0 ->
  mem s0 !! a = Some (mkNode (k', v') lp (root_of r) par h') -> pv (brk s0) par ->
  evolves l l' s0 s1 ->
  wp (set_left (Some a) (root_of l')) s1 (fun _ s2 =>
    evolves (T a l k v h r) (T a l' k' v' h' r) s s2 /\
    nodeCount s2 = nodeCount s1).
Proof.
  intros Hown Hfr Hcell Hpar Hev.
  pose proof (own_sub_r _ _ _ _ _ _ _ Hown) as Hor.
  assert (a < brk s)%nat as Ha by (apply (own_bound _ _ _ Hown); left).
  assert (forall b, b ∈ addrs r -> (b < brk s)%nat) as Hrb.
  { intros b Hb. eapply own_bound; [exact Hor|done]. }
  destruct Hown as [_ Hnd]. apart.
  destruct s as [rt nc m n], s0 as [rt0 nc0 m0 n0], s1 as [rt1 nc1 m1 n1].
  unframe Hfr Hm0. cbn [mem brk] in *.
  assert (a ∉ addrs l') as Hal' by (eapply evolves_fresh; [done..|]; done).
  assert (forall x, x ∈ addrs l' -> x ∉ addrs r) as Hl'r.
  { intros x Hx Hxr. destruct Hev as (_ & _ & _ & Hf & _).
    destruct (Hf _ Hx) as [Hxl|Hge]; [clash|]. specialize (Hrb _ Hxr). cbn in *. lia. }
  assert (m1 !! a = m0 !! a) as Ha1.
  { by apply (evolves_outside _ _ _ _ _ Hev). }
  assert (forall b, b ∈ addrs r -> m1 !! b = m !! b) as Hr1.
  { intros b Hb. rewrite (evolves_outside _ _ _ _ _ Hev); cbn [mem brk]; auto.
    - apply Hm0. apply not_elem_of_cons. split; [neq|apply not_elem_of_nil].
    - intros Hbl. clash. }
  destruct Hev as (Hown1 & Hrt & Hbrk & Hfoot & Hm1). cbn [root brk mem] in *. subst rt1.
  unfold set_left. eapply wp_modify; [by rewrite Ha1|]. fields.
  split; [|done]. split_and!.
  - eapply own_node; [lk| | | | | | |]; cbn [mem brk]; try done.
    + lia.
    + destruct par; cbn in *; lia.
    + eapply own_frame; [exact Hown1|done|intros; lk].
    + eapply own_frame; [exact Hor|done|]. intros b Hb. cbn [mem].
      rewrite lookup_insert_ne by neq. auto.
  - done.
  - done.
  - intros b. cbn [addrs]. rewrite !elem_of_cons, !elem_of_app.
    intros [->|[Hb|Hb]]; auto. destruct (Hfoot _ Hb); auto.
  - intros b. cbn [addrs mem]. rewrite !not_elem_of_cons, !not_elem_of_app.
    intros (Hba & Hbl' & Hbr). rewrite lookup_insert_ne by done.
    rewrite Hm1 by done. destruct (decide (b ∈ addrs l)) as [Hbl|Hbl].
    + rewrite decide_True; [done|]. right. apply elem_of_app. auto.
    + rewrite decide_False.
      * apply Hm0. apply not_elem_of_cons. split; [done|apply not_elem_of_nil].
      * rewrite not_elem_of_cons, not_elem_of_app. auto.
Qed.

(** The right child of [a] has been worked on and is put back. *)
Lemma attach_right s s0 s1 a l r r' k v h k' v' h' rp par :
  own s (T a l k v h r) ->
  frame_eq [a] s s0 ->
  mem s0 !! a = Some (mkNode (k', v') (root_of l) rp par h') -> pv (brk s0) par ->
  evolves r r' s0 s1 ->
  wp (set_right (Some a) (root_of r')) s1 (fun _ s2 =>
    evolves (T a l k v h r) (T a l k' v' h' r') s s2 /\
    nodeCount s2 = nodeCount s1).
Proof.
  intros Hown Hfr Hcell Hpar Hev.
  pose proof (own_sub_l _ _ _ _ _ _ _ Hown) as Hol.
  assert (a < brk s)%nat as Ha by (apply (own_bound _ _ _ Hown); left).
  assert (forall b, b ∈ addrs l -> (b < brk s)%nat) as Hlb.
  { intros b Hb. eapply own_bound; [exact Hol|done]. }
  destruct Hown as [_ Hnd]. apart.
  destruct s as [rt nc m n], s0 as [rt0 nc0 m0 n0], s1 as [rt1 nc1 m1 n1].
  unframe Hfr Hm0. cbn [mem brk] in *.
  assert (a ∉ addrs r') as Har' by (eapply evolves_fresh; [done..|]; done).
  assert (forall x, x ∈ addrs l -> x ∉ addrs r') as Hlr'.
  { intros x Hxl Hx. destruct Hev as (_ & _ & _ & Hf & _).
    destruct (Hf _ Hx) as [Hxr|Hge]; [clash|]. specialize (Hlb _ Hxl). cbn in *. lia. }
  assert (m1 !! a = m0 !! a) as Ha1.
  { by apply (evolves_outside _ _ _ _ _ Hev). }
  assert (forall b, b ∈ addrs l -> m1 !! b = m !! b) as Hl1.
  { intros b Hb. rewrite (evolves_outside _ _ _ _ _ Hev); cbn [mem brk]; auto.
    apply Hm0. apply not_elem_of_cons. split; [neq|apply not_elem_of_nil]. }
  destruct Hev as (Hown1 & Hrt & Hbrk & Hfoot & Hm1). cbn [root brk mem] in *. subst rt1.
  unfold set_right. eapply wp_modify; [by rewrite Ha1|]. fields.
  split; [|done]. split_and!.
  - eapply own_node; [lk| | | | | | |]; cbn [mem brk]; try done.
    + lia.
    + destruct par; cbn in *; lia.
    + eapply own_frame; [exact Hol|done|]. intros b Hb. cbn [mem].
      rewrite lookup_insert_ne by neq. auto.
    + eapply own_frame; [exact Hown1|done|intros; lk].
  - done.
  - done.
  - intros b. cbn [addrs]. rewrite !elem_of_cons, !elem_of_app.
    intros [->|[Hb|Hb]]; auto. destruct (Hfoot _ Hb); auto.
  - intros b. cbn [addrs mem]. rewrite !not_elem_of_cons, !not_elem_of_app.
    intros (Hba & Hbl & Hbr'). rewrite lookup_insert_ne by done.
    rewrite Hm1 by done. destruct (decide (b ∈ addrs r)) as [Hbr|Hbr].
    + rewrite decide_True; [done|]. right. apply elem_of_app. auto.
    + rewrite decide_False.
      * apply Hm0. apply not_elem_of_cons. split; [done|apply not_elem_of_nil].
      * rewrite not_elem_of_cons, not_elem_of_app. auto.
Qed.

(** Rebalancing the root of a region that has evolved. *)
Lemma balance_evolves s s2 t t2 :
  evolves t t2 s s2 -> hpos t2 -> t2 <> E ->
  wp (balance (root_of t2)) s2 (fun x s3 =>
    x = root_of (bal t2) /\ evolves t (bal t2) s s3 /\
    nodeCount s3 = nodeCount s2).
Proof.
  intros (Hown & Hrt & Hbrk & Hfoot & Hm) Hp Hne.
  eapply wp_mono; [by apply balance_spec|].
  intros x s3 (-> & Hown3 & Hr3 & Hn3 & Hb3 & Hm3).
  split; [done|]. split; [|done]. unfold evolves.
  split_and!; try done; try congruence.
  - intros b. rewrite addrs_bal. auto.
  - intros b. rewrite addrs_bal. intros Hb. rewrite Hm3 by done. auto.
Qed.

(** The entry at the root is overwritten. *)
Lemma set_data_spec s a l k v h r d :
  own s (T a l k v h r) ->
  wp (set_data (Some a) d) s (fun _ s2 =>
    evolves (T a l k v h r) (T a l (fst d) (snd d) h r) s s2 /\
    nodeCount s2 = nodeCount s).
Proof.
  intros [Hsh Hnd]. destruct s as [rt nc m n]. cbn [shape mem brk] in Hsh.
  destruct Hsh as [[Ha (par & Hpar & Hlk)] [Hl Hr]].
  pose proof (Hnd : kept _) as Hnd'. apart.
  repeat step. fields. destruct d as [k' v']. split; [|done].
  split_and!; cbn [root brk mem]; try done.
  - split; [|exact Hnd']. cbn [shape mem brk fst snd].
    repeat first [ done | shp | split | eexists; split; [|lk]; done ].
  - auto.
  - intros b Hb. rewrite decide_False by done. cbn [fst snd] in Hb. apart. lk.
Qed.

End Regions.

(** ** Insertion *)

Section Insert.
Context {Key Value : Type}.
Variable comp : Key -> Key -> bool.
Implicit Types (t l r : tree Key Value) (s : St Key Value)
  (m : gmap addr (Node Key Value)) (nd : Node Key Value).

Lemma pv_mono (n n' : addr) p : pv n p -> (n <= n')%nat -> pv n' p.
Proof. destruct p; cbn; [lia|done]. Qed.

Lemma insert_node_spec t : forall fuel s key value par,
  own s t -> hpos t -> (depth t < fuel)%nat -> pv (brk s) par ->
  wp (insert_node comp fuel (root_of t) key value par) s (fun x s' =>
    x = root_of (ins comp (brk s) t key value) /\
    evolves t (ins comp (brk s) t key value) s s' /\
    nodeCount s' =
      if grows comp t key then size_incr (nodeCount s) else nodeCount s).
Proof.
  induction t as [|a l IHl k v h r IHr]; intros fuel s key value par Hown Hp Hd Hpar;
    (destruct fuel as [|fuel]; [lia|]); cbn [insert_node root_of].
  - apply wp_bind, wp_state. apply wp_make_node.
    destruct s as [rt nc m n]. cbn [root nodeCount mem brk set_nodeCount ins grows] in *.
    split; [done|]. split; [|done]. split_and!; cbn [root brk mem addrs]; try done.
    + split; [|apply NoDup_singleton]. cbn [shape mem brk root_of].
      split; [split; [lia|]|done]. exists par. split; [by eapply pv_mono; eauto|].
      by rewrite lookup_insert_eq.
    + lia.
    + intros b ->%list_elem_of_singleton. auto.
    + intros b Hb%not_elem_of_cons. rewrite lookup_insert_ne by (by destruct Hb).
      rewrite decide_False; [done|apply not_elem_of_nil].
  - destruct Hp as (Hh & Hpl & Hpr). cbn [depth] in Hd.
    destruct (own_root _ _ _ _ _ _ _ Hown) as (par0 & Hpar0 & Hlk).
    assert (a < brk s)%nat as Ha by (apply (own_bound _ _ _ Hown); left).
    apply wp_bind. eapply wp_load; [done|]. cbn [data left right fst].
    cbn [ins grows]. apply wp_bind. destruct (comp key k) eqn:Hc1.
    + apply wp_bind. eapply wp_mono.
      { apply (IHl fuel s key value (Some a)); [by eapply own_sub_l|done|lia|done]. }
      intros x s1 (-> & Hev1 & Hn1). eapply wp_mono.
      { eapply attach_left; [exact Hown|apply frame_eq_refl|exact Hlk|done|exact Hev1]. }
      intros _ s2 (Hev2 & Hn2). eapply wp_mono.
      { eapply (balance_evolves _ _ _ _ Hev2); [|done].
        split; [done|]. split; [by apply hpos_ins|done]. }
      intros x s3 (-> & Hev3 & Hn3). split_and!; [done|done|congruence].
    + destruct (comp k key) eqn:Hc2.
      * apply wp_bind. eapply wp_mono.
        { apply (IHr fuel s key value (Some a)); [by eapply own_sub_r|done|lia|done]. }
        intros x s1 (-> & Hev1 & Hn1). eapply wp_mono.
        { eapply attach_right; [exact Hown|apply frame_eq_refl|exact Hlk|done|exact Hev1]. }
        intros _ s2 (Hev2 & Hn2). eapply wp_mono.
        { eapply (balance_evolves _ _ _ _ Hev2); [|done].
          split; [done|]. split; [done|by apply hpos_ins]. }
        intros x s3 (-> & Hev3 & Hn3). split_and!; [done|done|congruence].
      * eapply wp_mono; [by apply set_data_spec|].
        intros _ s2 (Hev2 & Hn2). cbn [fst snd] in Hev2. eapply wp_mono.
        { eapply (balance_evolves _ _ _ _ Hev2); [|done]. by split. }
        intros x s3 (-> & Hev3 & Hn3). split_and!; [done|done|congruence].
Qed.

End Insert.

(** ** Erasure *)

Section Erase.
Context {Key Value : Type}.
Variable comp : Key -> Key -> bool.
Implicit Types (t l r : tree Key Value) (s : St Key Value)
  (m : gmap addr (Node Key Value)) (nd : Node Key Value).

Lemma shape_leftmost m n t : shape m n t -> shape m n (leftmost t).
Proof.
  induction t as [|a l IHl k v h r _]; [done|]. intros H.
  cbn [leftmost]. destruct l; [done|]. apply IHl, H.
Qed.

Lemma leftmost_in t b : b ∈ addrs (leftmost t) -> b ∈ addrs t.
Proof.
  induction t as [|a l IHl k v h r _]; [done|].
  cbn [leftmost]. destruct l as [|la ll lk lv lh lr]; [done|]. intros Hb.
  cbn [addrs] in *. right. apply elem_of_app. left. by apply IHl.
Qed.

Lemma minValueNode_spec t : forall fuel s,
  own s t -> t <> E -> (depth t <= fuel)%nat ->
  wp (minValueNode fuel (root_of t)) s (fun x s' =>
    x = root_of (leftmost t) /\ s' = s).
Proof.
  induction t as [|a l IHl k v h r _]; intros fuel s Hown Hne Hd; [done|].
  cbn [depth] in Hd. destruct fuel as [|fuel]; [lia|]. cbn [minValueNode root_of].
  destruct (own_root _ _ _ _ _ _ _ Hown) as (par & Hpar & Hlk).
  apply wp_bind. eapply wp_load; [done|]. cbn [left leftmost].
  destruct l as [|la ll lk lv lh lr]; cbn [root_of]; [by apply wp_ret|].
  apply (IHl fuel s); [by eapply own_sub_l|done|lia].
Qed.

Lemma move_left_spec s a l k v h r :
  own s (T a l k v h r) ->
  wp (move_left (Some a)) s (fun x s0 =>
    x = root_of l /\ frame_eq [a] s s0 /\ own s0 l /\
    exists par, pv (brk s0) par /\
      mem s0 !! a = Some (mkNode (k, v) None (root_of r) par h)).
Proof.
  intros Hown. pose proof (own_sub_l _ _ _ _ _ _ _ Hown) as Hol.
  destruct Hown as [Hsh Hnd]. destruct s as [rt nc m n]. cbn [shape mem brk] in Hsh.
  destruct Hsh as [[Ha (par & Hpar & Hlk)] [Hl Hr]]. apart.
  repeat step. fields. split; [done|]. split; [|split].
  - unfold frame_eq. split_and!; try done.
    intros b Hb%not_elem_of_cons. destruct Hb. lk.
  - eapply own_frame; [exact Hol|done|intros; lk].
  - exists par. split; [done|lk].
Qed.

Lemma move_right_spec s a l k v h r :
  own s (T a l k v h r) ->
  wp (move_right (Some a)) s (fun x s0 =>
    x = root_of r /\ frame_eq [a] s s0 /\ own s0 r /\
    exists par, pv (brk s0) par /\
      mem s0 !! a = Some (mkNode (k, v) (root_of l) None par h)).
Proof.
  intros Hown. pose proof (own_sub_r _ _ _ _ _ _ _ Hown) as Hor.
  destruct Hown as [Hsh Hnd]. destruct s as [rt nc m n]. cbn [shape mem brk] in Hsh.
  destruct Hsh as [[Ha (par & Hpar & Hlk)] [Hl Hr]]. apart.
  repeat step. fields. split; [done|]. split; [|split].
  - unfold frame_eq. split_and!; try done.
    intros b Hb%not_elem_of_cons. destruct Hb. lk.
  - eapply own_frame; [exact Hor|done|intros; lk].
  - exists par. split; [done|lk].
Qed.

(** A node with at most one child is unlinked and destroyed. *)
Lemma unlink_right_spec s a l k v h r :
  own s (T a l k v h r) -> l = E ->
  wp (bind (move_right (Some a)) (fun p =>
      bind (destroy (Some a)) (fun _ => ret p))) s (fun x s' =>
    x = root_of r /\ evolves (T a l k v h r) r s s' /\
    nodeCount s' = nodeCount s).
Proof.
  intros Hown ->. pose proof (own_sub_r _ _ _ _ _ _ _ Hown) as Hor.
  destruct Hown as [Hsh Hnd]. destruct s as [rt nc m n]. cbn [shape mem brk] in Hsh.
  destruct Hsh as [[Ha (par & Hpar & Hlk)] [Hl Hr]]. apart.
  repeat step. apply wp_destroy. step. fields. cbn [set_mem root nodeCount mem brk].
  split; [done|]. split; [|done]. split_and!; cbn [root brk mem set_mem]; try done.
  - eapply own_frame; [exact Hor|done|intros; lk].
  - intros b Hb. left. cbn [addrs]. by right.
  - intros b Hb. cbn [addrs app]. destruct (decide (b = a)) as [->|Hne].
    + rewrite decide_True by left. by rewrite lookup_delete_eq.
    + rewrite decide_False by (apply not_elem_of_cons; done). lk.
Qed.

Lemma unlink_left_spec s a l k v h r :
  own s (T a l k v h r) -> r = E ->
  wp (bind (move_left (Some a)) (fun p =>
      bind (destroy (Some a)) (fun _ => ret p))) s (fun x s' =>
    x = root_of l /\ evolves (T a l k v h r) l s s' /\
    nodeCount s' = nodeCount s).
Proof.
  intros Hown ->. pose proof (own_sub_l _ _ _ _ _ _ _ Hown) as Hol.
  destruct Hown as [Hsh Hnd]. destruct s as [rt nc m n]. cbn [shape mem brk] in Hsh.
  destruct Hsh as [[Ha (par & Hpar & Hlk)] [Hl Hr]]. apart.
  repeat step. apply wp_destroy. step. fields. cbn [set_mem root nodeCount mem brk].
  split; [done|]. split; [|done]. split_and!; cbn [root brk mem set_mem]; try done.
  - eapply own_frame; [exact Hol|done|intros; lk].
  - intros b Hb. left. cbn [addrs]. right. apply elem_of_app. by left.
  - intros b Hb. cbn [addrs]. rewrite app_nil_r. destruct (decide (b = a)) as [->|Hne].
    + rewrite decide_True by left. by rewrite lookup_delete_eq.
    + rewrite decide_False by (apply not_elem_of_cons; done). lk.
Qed.

Lemma leftmost_cell s t :
  own s t -> t <> E ->
  exists am ml mk mv mh mr parm,
    leftmost t = T am ml mk mv mh mr /\ am ∈ addrs t /\
    mem s !! am = Some (mkNode (mk, mv) (root_of ml) (root_of mr) parm mh).
Proof.
  intros [Hsh _] Hne. pose proof (shape_leftmost _ _ _ Hsh) as Hlm.
  pose proof (leftmost_nonempty _ Hne) as Hne'.
  pose proof (leftmost_in t) as Hin.
  destruct (leftmost t) as [|am ml mk mv mh mr]; [done|].
  cbn [shape] in Hlm. destruct Hlm as [[_ (parm & _ & Hc)] _].
  exists am, ml, mk, mv, mh, mr, parm. split_and!; [done| |done].
  apply Hin. left.
Qed.

Lemma erase_node_spec t : forall fuel s key,
  own s t -> hpos t -> (depth t < fuel)%nat ->
  wp (erase_node comp fuel (root_of t) key) s (fun x s' =>
    x = root_of (del comp t key) /\
    evolves t (del comp t key) s s' /\
    nodeCount s' = nodeCount s).
Proof.
  induction t as [|a l IHl k v h r IHr]; intros fuel s key Hown Hp Hd;
    (destruct fuel as [|fuel]; [lia|]); cbn [erase_node root_of].
  { apply wp_ret. split_and!; [done|by apply evolves_refl|done]. }
  destruct Hp as (Hh & Hpl & Hpr). cbn [depth] in Hd.
  destruct (own_root _ _ _ _ _ _ _ Hown) as (par0 & Hpar0 & Hlk).
  assert (a < brk s)%nat as Ha by (apply (own_bound _ _ _ Hown); left).
  apply wp_bind. eapply wp_load; [done|]. cbn [data left right fst].
  cbn [del]. destruct (comp key k) eqn:Hc1; [|destruct (comp k key) eqn:Hc2].
  - apply wp_bind. eapply wp_mono; [by apply move_left_spec|].
    intros x s0 (-> & Hfr0 & Hol0 & par & Hpar & Hcell).
    apply wp_bind. eapply wp_mono.
    { apply (IHl fuel s0 key); [done|done|lia]. }
    intros x s1 (-> & Hev1 & Hn1). apply wp_bind. eapply wp_mono.
    { eapply attach_left; [exact Hown|exact Hfr0|exact Hcell|done|exact Hev1]. }
    intros _ s2 (Hev2 & Hn2). eapply wp_mono.
    { eapply (balance_evolves _ _ _ _ Hev2); [|done].
      split; [done|]. split; [by apply hpos_del|done]. }
    intros x s3 (-> & Hev3 & Hn3). split_and!; [done|done|].
    destruct Hfr0 as (_ & Hn0 & _). congruence.
  - apply wp_bind. eapply wp_mono; [by apply move_right_spec|].
    intros x s0 (-> & Hfr0 & Hor0 & par & Hpar & Hcell).
    apply wp_bind. eapply wp_mono.
    { apply (IHr fuel s0 key); [done|done|lia]. }
    intros x s1 (-> & Hev1 & Hn1). apply wp_bind. eapply wp_mono.
    { eapply attach_right; [exact Hown|exact Hfr0|exact Hcell|done|exact Hev1]. }
    intros _ s2 (Hev2 & Hn2). eapply wp_mono.
    { eapply (balance_evolves _ _ _ _ Hev2); [|done].
      split; [done|]. split; [done|by apply hpos_del]. }
    intros x s3 (-> & Hev3 & Hn3). split_and!; [done|done|].
    destruct Hfr0 as (_ & Hn0 & _). congruence.
  - destruct l as [|la ll lk lv lh lr]; cbn [root_of].
    { by apply unlink_right_spec. }
    destruct r as [|ra rl rk rv rh rr]; cbn [root_of].
    { exact (unlink_left_spec s a (T la ll lk lv lh lr) k v h E Hown eq_refl). }
    set (l := T la ll lk lv lh lr) in *. set (r := T ra rl rk rv rh rr) in *.
    assert (r <> E) as Hrne by done.
    pose proof (own_sub_r _ _ _ _ _ _ _ Hown) as Hor.
    destruct (leftmost_cell s r Hor Hrne)
      as (am & ml & mk & mv & mh & mr & parm & Hlm & Ham & Hcm).
    rewrite Hlm. cbn [entry_of fst snd].
    apply wp_bind. eapply wp_mono.
    { apply (minValueNode_spec r fuel s); [done|done|lia]. }
    intros x s' (-> & ->). rewrite Hlm. cbn [root_of].
    assert (a <> am) as Hne.
    { intros ->. destruct Hown as [_ Hnd]. cbn [addrs] in Hnd.
      apply NoDup_cons in Hnd as [Hnin _]. apply Hnin, elem_of_app. by right. }
    assert (frame_eq [a] s
              (mkSt (root s) (nodeCount s)
                 (<[a := mkNode (mk, mv) (root_of l) None par0 h]> (mem s)) (brk s)))
      as Hfr0.
    { unfold frame_eq. split_and!; try done. intros b Hb%not_elem_of_cons.
      destruct Hb. cbn [mem]. by rewrite lookup_insert_ne. }
    destruct s as [rt nc m n]. cbn [root nodeCount mem brk] in *.
    repeat step. fields.
    rewrite !insert_insert_eq.
    eapply wp_mono.
    { apply (IHr fuel _ mk); [|done|lia].
      eapply own_frame; [exact Hor|done|]. intros b Hb. cbn [mem].
      rewrite lookup_insert_ne; [done|]. intros ->.
      destruct Hown as [_ Hnd]. cbn [addrs] in Hnd.
      apply NoDup_cons in Hnd as [Hnin _]. apply Hnin, elem_of_app. by right. }
    intros x s1 (-> & Hev1 & Hn1). apply wp_bind. eapply wp_mono.
    { eapply attach_right; [exact Hown|exact Hfr0| |exact Hpar0|exact Hev1].
      cbn [mem]. by rewrite lookup_insert_eq. }
    intros _ s2 (Hev2 & Hn2). eapply wp_mono.
    { eapply (balance_evolves _ _ _ _ Hev2); [|done].
      split; [done|]. split; [done|by apply hpos_del]. }
    intros x s3 (-> & Hev3 & Hn3). split_and!; [done|done|].
    cbn [nodeCount] in *. congruence.
Qed.

End Erase.

(** ** Lookups, copies and release *)

Section Reads.
Context {Key Value : Type}.
Variable comp : Key -> Key -> bool.
Implicit Types (t l r : tree Key Value) (s : St Key Value)
  (m : gmap addr (Node Key Value)) (nd : Node Key Value).

Lemma find_node_spec t : forall fuel s key,
  own s t -> (depth t < fuel)%nat ->
  wp (find_node comp fuel (root_of t) key) s (fun x s' =>
    x = root_of (lookup_tree comp t key) /\ s' = s).
Proof.
  induction t as [|a l IHl k v h r IHr]; intros fuel s key Hown Hd;
    (destruct fuel as [|fuel]; [lia|]); cbn [find_node root_of lookup_tree].
  { by apply wp_ret. }
  cbn [depth] in Hd.
  destruct (own_root _ _ _ _ _ _ _ Hown) as (par & Hpar & Hlk).
  apply wp_bind. eapply wp_load; [done|]. cbn [data left right fst].
  destruct (comp key k); [|destruct (comp k key)].
  - apply IHl; [by eapply own_sub_l|lia].
  - apply IHr; [by eapply own_sub_r|lia].
  - by apply wp_ret.
Qed.

Lemma find_loop_spec t : forall fuel s key,
  own s t -> (depth t < fuel)%nat ->
  wp (find_loop comp fuel (root_of t) key) s (fun x s' =>
    x = root_of (lookup_tree comp t key) /\ s' = s).
Proof.
  induction t as [|a l IHl k v h r IHr]; intros fuel s key Hown Hd;
    (destruct fuel as [|fuel]; [lia|]); cbn [find_loop root_of lookup_tree].
  { by apply wp_ret. }
  cbn [depth] in Hd.
  destruct (own_root _ _ _ _ _ _ _ Hown) as (par & Hpar & Hlk).
  apply wp_bind. eapply wp_load; [done|]. cbn [data left right fst].
  destruct (comp key k); [|destruct (comp k key)].
  - apply IHl; [by eapply own_sub_l|lia].
  - apply IHr; [by eapply own_sub_r|lia].
  - by apply wp_ret.
Qed.

Lemma shape_lookup_tree m n t key :
  shape m n t -> shape m n (lookup_tree comp t key).
Proof.
  induction t as [|a l IHl k v h r IHr]; [done|]. intros H.
  cbn [lookup_tree]. destruct (comp key k); [|destruct (comp k key)]; [| |done].
  - apply IHl, H.
  - apply IHr, H.
Qed.

(** The cell the descent stops at holds the entry found. *)
Lemma found_cell s t key a d :
  own s t -> found comp t key = Some (a, d) ->
  root_of (lookup_tree comp t key) = Some a /\
  exists nd, mem s !! a = Some nd /\ data nd = d.
Proof.
  intros [Hsh _] Hf. unfold found in Hf.
  pose proof (shape_lookup_tree _ _ _ key Hsh) as Hs.
  destruct (lookup_tree comp t key) as [|a' l' k' v' h' r']; [done|].
  cbn in Hf. injection Hf as -> <-. split; [done|].
  destruct Hs as [[_ (par & _ & Hc)] _]. eauto.
Qed.

End Reads.

Section Copies.
Context {Key Value : Type}.
Implicit Types (t l r : tree Key Value) (s : St Key Value)
  (m : gmap addr (Node Key Value)) (nd : Node Key Value).

Lemma clone_spec t : forall fuel s,
  own s t -> (depth t < fuel)%nat ->
  wp (clone fuel (root_of t)) s (fun x s' =>
    x = root_of (cloned (brk s) t) /\
    own s' (cloned (brk s) t) /\
    brk s' = (brk s + nodes t)%nat /\
    root s' = root s /\ nodeCount s' = nodeCount s /\
    forall b, b ∉ addrs (cloned (brk s) t) -> mem s' !! b = mem s !! b).
Proof.
  induction t as [|a l IHl k v h r IHr]; intros fuel s Hown Hd;
    (destruct fuel as [|fuel]; [lia|]); cbn [clone root_of cloned].
  { apply wp_ret. cbn [nodes]. split_and!; try done; lia. }
  cbn [depth nodes] in *.
  destruct (own_root _ _ _ _ _ _ _ Hown) as (par & Hpar & Hlk).
  assert (forall b, b ∈ addrs (T a l k v h r) -> (b < brk s)%nat) as Hbound.
  { intros b. by apply own_bound. }
  assert (a < brk s)%nat as Ha by (apply Hbound; left).
  destruct s as [rt nc m n]. cbn [root nodeCount mem brk] in *.
  apply wp_bind. eapply wp_load; [done|]. cbn [data left right fst snd].
  apply wp_bind. apply wp_make_node. cbn [root nodeCount mem brk].
  apply wp_bind. eapply wp_load; [by cbn [mem]; rewrite lookup_insert_ne by lia|].
  cbn [data left right fst snd].
  set (s1 := mkSt rt nc (<[n := mkNode (k, v) None None None 1]> m) (S n)).
  assert (forall u, own (mkSt rt nc m n) u ->
                    (forall b, b ∈ addrs u -> b ∈ addrs (T a l k v h r)) -> own s1 u) as Hkeep1.
  { intros u Hu Hsub. eapply own_frame; [exact Hu|cbn; lia|].
    intros b Hb. cbn [mem s1]. rewrite lookup_insert_ne; [done|].
    specialize (Hbound _ (Hsub _ Hb)). lia. }
  apply wp_bind. eapply wp_mono.
  { apply (IHl fuel s1); [|lia]. apply Hkeep1; [by eapply own_sub_l|].
    intros b Hb. cbn [addrs]. right. apply elem_of_app. by left. }
  cbn [brk s1].
  intros x [rt2 nc2 m2 n2] (-> & Hown2 & Hb2 & Hr2 & Hn2 & Hm2).
  cbn [root nodeCount mem brk s1] in *. subst rt2 nc2 n2.
  assert (m2 !! n = Some (mkNode (k, v) None None None 1)) as Hn_2.
  { rewrite Hm2; [by rewrite lookup_insert_eq|]. rewrite addrs_cloned. lia. }
  apply wp_bind. unfold set_left. eapply wp_modify; [done|]. fields.
  apply wp_bind. eapply wp_load.
  { cbn [mem]. rewrite lookup_insert_ne by lia. rewrite Hm2.
    - rewrite lookup_insert_ne by lia. done.
    - rewrite addrs_cloned. lia. }
  cbn [data left right fst snd].
  set (s3 := mkSt rt nc
               (<[n := mkNode (k, v) (root_of (cloned (S n) l)) None None 1]> m2)
               (S n + nodes l)%nat).
  apply wp_bind. eapply wp_mono.
  { apply (IHr fuel s3); [|lia]. eapply own_frame; [by eapply own_sub_r|cbn; lia|].
    intros b Hb. cbn [mem s3].
    assert (b < n)%nat by (apply Hbound; cbn [addrs]; right; apply elem_of_app; by right).
    rewrite lookup_insert_ne by lia. rewrite Hm2.
    - by rewrite lookup_insert_ne by lia.
    - rewrite addrs_cloned. lia. }
  cbn [brk s3].
  intros x [rt4 nc4 m4 n4] (-> & Hown4 & Hb4 & Hr4 & Hn4 & Hm4).
  cbn [root nodeCount mem brk s3] in *. subst rt4 nc4 n4.
  apply wp_bind. unfold set_right. eapply wp_modify.
  { rewrite Hm4; [by rewrite lookup_insert_eq|]. rewrite addrs_cloned. lia. }
  fields. apply wp_ret. cbn [root nodeCount mem brk].
  split; [done|]. split; [|split_and!; try done; try lia].
  - eapply own_node; cbn [mem brk]; [by rewrite lookup_insert_eq|lia|done| | | | |].
    + eapply own_frame; [exact Hown2|cbn; lia|]. intros b Hb. cbn [mem].
      apply addrs_cloned in Hb. rewrite lookup_insert_ne by lia.
      rewrite Hm4; [by rewrite lookup_insert_ne by lia|]. rewrite addrs_cloned. lia.
    + eapply own_frame; [exact Hown4|cbn; lia|]. intros b Hb. cbn [mem].
      apply addrs_cloned in Hb. by rewrite lookup_insert_ne by lia.
    + rewrite addrs_cloned. lia.
    + rewrite addrs_cloned. lia.
    + intros b. rewrite !addrs_cloned. lia.
  - intros b. cbn [addrs]. rewrite not_elem_of_cons, not_elem_of_app, !addrs_cloned.
    intros (Hbn & Hbl & Hbr). rewrite lookup_insert_ne by done.
    rewrite Hm4 by (rewrite addrs_cloned; lia). rewrite lookup_insert_ne by done.
    rewrite Hm2 by (rewrite addrs_cloned; lia). by rewrite lookup_insert_ne by done.
Qed.

Lemma release_spec t : forall fuel s,
  own s t -> (depth t < fuel)%nat ->
  wp (release fuel (root_of t)) s (fun _ s' =>
    root s' = root s /\ nodeCount s' = nodeCount s /\ brk s' = brk s /\
    forall b, mem s' !! b = if decide (b ∈ addrs t) then None else mem s !! b).
Proof.
  induction t as [|a l IHl k v h r IHr]; intros fuel s Hown Hd;
    (destruct fuel as [|fuel]; [lia|]); cbn [release root_of].
  { apply wp_ret. by split_and!. }
  cbn [depth] in Hd.
  destruct (own_root _ _ _ _ _ _ _ Hown) as (par & Hpar & Hlk).
  pose proof (own_sub_l _ _ _ _ _ _ _ Hown) as Hol.
  pose proof (own_sub_r _ _ _ _ _ _ _ Hown) as Hor.
  destruct Hown as [_ Hnd]. apart.
  apply wp_bind. eapply wp_load; [done|]. cbn [left right].
  apply wp_bind. eapply wp_mono; [apply (IHr fuel s); [done|lia]|].
  intros _ s1 (Hr1 & Hn1 & Hb1 & Hm1).
  apply wp_bind. eapply wp_mono.
  { apply (IHl fuel s1); [|lia]. eapply own_frame; [exact Hol|lia|].
    intros b Hb. rewrite Hm1. rewrite decide_False; [done|]. auto. }
  intros _ s2 (Hr2 & Hn2 & Hb2 & Hm2).
  apply wp_destroy. cbn [set_mem root nodeCount mem brk].
  split_and!; try congruence. intros b. cbn [addrs].
  destruct (decide (b = a)) as [->|Hne].
  - rewrite lookup_delete_eq. by rewrite decide_True by left.
  - rewrite lookup_delete_ne by done. rewrite Hm2, Hm1.
    destruct (decide (b ∈ addrs l)) as [Hbl|Hbl].
    + rewrite decide_True; [done|]. right. apply elem_of_app. by left.
    + destruct (decide (b ∈ addrs r)) as [Hbr|Hbr].
      * rewrite decide_True; [done|]. right. apply elem_of_app. by right.
      * rewrite decide_False; [done|].
        rewrite not_elem_of_cons, not_elem_of_app. done.
Qed.

End Copies.

(** ** The container *)

Section Container.
Context {Key Value : Type}.
Variable comp : Key -> Key -> bool.
Implicit Types (t l r : tree Key Value) (s : St Key Value)
  (m : gmap addr (Node Key Value)) (nd : Node Key Value).

Lemma evolves_changes t t' s s' : evolves t t' s s' -> changes t t' s s'.
Proof. intros (? & ? & ? & ? & ?). by split_and!. Qed.

Lemma own_depth s t : own s t -> (depth t <= brk s)%nat.
Proof.
  intros Hown. pose proof (depth_nodes t). rewrite <- nodes_addrs in *.
  assert (addrs t ⊆+ seq 0 (brk s)) as Hsub.
  { apply NoDup_submseteq; [apply Hown|]. intros b Hb.
    apply elem_of_seq. pose proof (own_bound _ _ _ Hown Hb). lia. }
  apply submseteq_length in Hsub. rewrite length_seq in Hsub. lia.
Qed.

Lemma shape_cell_ok m n t b :
  shape m n t -> b ∈ addrs t -> exists nd, m !! b = Some nd /\ cell_ok n b nd.
Proof.
  induction t as [|a l IHl k v h r IHr]; cbn [shape addrs]; [by intros _ ?%elem_of_nil|].
  intros [[Ha (par & Hpar & Hlk)] [Hl Hr]].
  intros [->|[Hb|Hb]%elem_of_app]%elem_of_cons; auto.
  eexists. split; [done|]. unfold cell_ok. cbn [left right parent].
  split_and!; [done| | |done].
  - destruct l; cbn; [done|]. apply Hl.
  - destruct r; cbn; [done|]. apply Hr.
Qed.

Lemma cell_ok_mono (n n' : addr) a nd :
  cell_ok n a nd -> (n <= n')%nat -> cell_ok n' a nd.
Proof.
  intros (? & ? & ? & ?) Hle. unfold cell_ok. split_and!; [lia|by eapply pv_mono..].
Qed.

Lemma closed_changes t t' s s' : closed s -> changes t t' s s' -> closed s'.
Proof.
  intros Hc (Hown & Hbrk & Hfoot & Hm) b nd Hb.
  destruct (decide (b ∈ addrs t')) as [Hin|Hout].
  - destruct (shape_cell_ok _ _ _ _ (proj1 Hown) Hin) as (nd' & Hnd' & Hok).
    congruence.
  - rewrite Hm in Hb by done. destruct (decide (b ∈ addrs t)); [done|].
    eapply cell_ok_mono; [by apply Hc|done].
Qed.

Lemma own_root_state s t p : own (set_root s p) t <-> own s t.
Proof. done. Qed.

Lemma wp_budget s (Q : nat -> St Key Value -> Prop) :
  Q (S (brk s)) s -> wp budget s Q.
Proof. intros H. by exists (S (brk s)), s. Qed.

Lemma wp_get_root s (Q : ptr -> St Key Value -> Prop) :
  Q (root s) s -> wp get_root s Q.
Proof. intros H. by exists (root s), s. Qed.

Lemma wp_put_root p s (Q : unit -> St Key Value -> Prop) :
  Q tt (set_root s p) -> wp (put_root p) s Q.
Proof. intros H. by exists tt, (set_root s p). Qed.

Lemma push_spec s t key value :
  holds s t -> hpos t ->
  wp (push comp key value) s (fun _ s' =>
    holds s' (ins comp (brk s) t key value) /\
    changes t (ins comp (brk s) t key value) s s' /\
    nodeCount s' =
      if grows comp t key then size_incr (nodeCount s) else nodeCount s).
Proof.
  intros [Hroot Hown] Hp. pose proof (own_depth _ _ Hown).
  unfold push. apply wp_bind, wp_budget. apply wp_bind, wp_get_root.
  apply wp_bind, wp_put_root. apply wp_bind. rewrite Hroot.
  eapply wp_mono.
  { apply (insert_node_spec comp t (S (brk s)) (set_root s None)); [done|done|cbn; lia|done]. }
  cbn [brk set_root nodeCount].
  intros x s1 (-> & Hev & Hn). apply wp_put_root.
  apply evolves_changes in Hev. destruct Hev as (Hown1 & Hbrk & Hfoot & Hm).
  split_and!; try done.
Qed.

Lemma drop_spec s t key :
  holds s t -> hpos t ->
  wp (drop comp key) s (fun _ s' =>
    holds s' (del comp t key) /\
    changes t (del comp t key) s s' /\
    nodeCount s' = nodeCount s).
Proof.
  intros [Hroot Hown] Hp. pose proof (own_depth _ _ Hown).
  unfold drop. apply wp_bind, wp_budget. apply wp_bind, wp_get_root.
  apply wp_bind, wp_put_root. apply wp_bind. rewrite Hroot.
  eapply wp_mono.
  { apply (erase_node_spec comp t (S (brk s)) (set_root s None)); [done|done|cbn; lia]. }
  cbn [brk set_root nodeCount].
  intros x s1 (-> & Hev & Hn). apply wp_put_root.
  apply evolves_changes in Hev. destruct Hev as (Hown1 & Hbrk & Hfoot & Hm).
  split_and!; try done.
Qed.

Lemma clear_spec s t :
  holds s t ->
  wp clear s (fun _ s' =>
    holds s' E /\ changes t E s s' /\ nodeCount s' = 0).
Proof.
  intros [Hroot Hown]. pose proof (own_depth _ _ Hown).
  unfold clear. apply wp_bind, wp_budget. apply wp_bind, wp_get_root.
  apply wp_bind, wp_put_root. apply wp_bind. rewrite Hroot.
  eapply wp_mono.
  { apply (release_spec t (S (brk s)) (set_root s None)); [done|cbn; lia]. }
  cbn [brk set_root nodeCount root mem].
  intros _ s1 (Hr & Hn & Hb & Hm). apply wp_state.
  cbn [set_nodeCount]. cbn [brk set_root nodeCount root mem] in *.
  assert (own (mkSt (root s1) 0 (mem s1) (brk s1)) E) as HownE
    by (split; [done|constructor]).
  split; [by split|]. split; [|done].
  unfold changes. cbn [brk mem addrs set_nodeCount].
  split_and!; [done|lia|by intros b ?%elem_of_nil|].
  intros b _. apply Hm.
Qed.

Lemma copy_spec s t :
  holds s t ->
  wp (copy_construct (this_obj s)) s (fun _ s' =>
    holds s' (cloned (brk s) t) /\
    nodeCount s' = nodeCount s /\
    brk s' = (brk s + nodes t)%nat /\
    forall b, b ∉ addrs (cloned (brk s) t) -> mem s' !! b = mem s !! b).
Proof.
  intros [Hroot Hown]. pose proof (own_depth _ _ Hown).
  unfold copy_construct, this_obj. cbn [obj_root obj_nodeCount].
  apply wp_bind, wp_state. apply wp_bind, wp_state. apply wp_bind, wp_budget.
  apply wp_bind. rewrite Hroot. eapply wp_mono.
  { apply (clone_spec t); [done|cbn; lia]. }
  cbn [brk set_nodeCount with_this obj_root obj_nodeCount nodeCount root mem].
  intros x s1 (-> & Hown1 & Hb & Hr & Hn & Hm). apply wp_put_root.
  split_and!; try done.
Qed.

Lemma find_spec s t key :
  holds s t ->
  find comp key s = Ret (root_of (lookup_tree comp t key)) s.
Proof.
  intros [Hroot Hown]. pose proof (own_depth _ _ Hown).
  destruct (find_loop_spec comp t (S (brk s)) s key Hown) as (x & s' & Hrun & -> & ->);
    [lia|].
  unfold find, bind, budget, get_root. by rewrite Hroot.
Qed.

Lemma index_const_spec s t key :
  holds s t ->
  index_const comp key s =
    match found comp t key with
    | Some (_, d) => Ret (snd d) s
    | None => Throw KeyNotFound s
    end.
Proof.
  intros [Hroot Hown]. pose proof (own_depth _ _ Hown).
  destruct (find_node_spec comp t (S (brk s)) s key Hown) as (x & s' & Hrun & -> & ->);
    [lia|].
  unfold index_const, bind, budget, get_root. rewrite Hroot, Hrun.
  destruct (found comp t key) as [[a d]|] eqn:Hf.
  - destruct (found_cell comp _ _ _ _ _ Hown Hf) as (-> & nd & Hnd & <-).
    unfold load. by rewrite Hnd.
  - unfold found in Hf. by destruct (lookup_tree comp t key).
Qed.

End Container.

(** ** What every reachable container satisfies *)

Section Reachable.
Context {Key Value : Type}.
Variable comp : Key -> Key -> bool.
Implicit Types (t l r : tree Key Value) (s : St Key Value)
  (m : gmap addr (Node Key Value)) (nd : Node Key Value).

Hypothesis comp_irrefl : forall x, comp x x = false.
Hypothesis comp_trans :
  forall x y z, comp x y = true -> comp y z = true -> comp x z = true.
Hypothesis equiv_trans :
  forall x y z, equiv comp x y = true -> equiv comp y z = true ->
                equiv comp x z = true.

Lemma inv_empty : Inv comp (@empty_container Key Value).
Proof.
  exists E. split_and!; try done.
  split; [done|]. split; [done|constructor].
Qed.

Lemma closed_copy s s' t :
  closed s -> own s' (cloned (brk s) t) -> (brk s <= brk s')%nat ->
  (forall b, b ∉ addrs (cloned (brk s) t) -> mem s' !! b = mem s !! b) ->
  closed s'.
Proof.
  intros Hc Hown Hbrk Hm b nd Hb.
  destruct (decide (b ∈ addrs (cloned (brk s) t))) as [Hin|Hout].
  - destruct (shape_cell_ok _ _ _ _ (proj1 Hown) Hin) as (nd' & Hnd' & Hok).
    congruence.
  - rewrite Hm in Hb by done. eapply cell_ok_mono; [by apply Hc|done].
Qed.

Lemma exec_inv o s : Inv comp s -> wp (exec comp o) s (fun _ s' => Inv comp s').
Proof.
  intros (t & Hh & Hp & Ho & Hc). destruct o as [k v|[k v]|k|k| |]; cbn [exec].
  - eapply wp_mono; [by apply push_spec|]. intros _ s' (Hh' & Hch & _).
    eexists. split_and!; [exact Hh'|by apply hpos_ins|by apply ordered_ins|].
    by eapply closed_changes.
  - unfold insert. cbn [fst snd].
    eapply wp_mono; [by apply push_spec|]. intros _ s' (Hh' & Hch & _).
    eexists. split_and!; [exact Hh'|by apply hpos_ins|by apply ordered_ins|].
    by eapply closed_changes.
  - eapply wp_mono; [by apply drop_spec|]. intros _ s' (Hh' & Hch & _).
    eexists. split_and!; [exact Hh'|by apply hpos_del|by apply ordered_del|].
    by eapply closed_changes.
  - unfold erase.
    eapply wp_mono; [by apply drop_spec|]. intros _ s' (Hh' & Hch & _).
    eexists. split_and!; [exact Hh'|by apply hpos_del|by apply ordered_del|].
    by eapply closed_changes.
  - eapply wp_mono; [by apply clear_spec|]. intros _ s' (Hh' & Hch & _).
    exists E. split_and!; [exact Hh'|done|done|]. by eapply closed_changes.
  - eapply wp_mono; [by apply copy_spec|]. intros _ s' (Hh' & Hn & Hb & Hm).
    exists (cloned (brk s) t). split_and!; [exact Hh'|apply hpos_cloned| |].
    + eapply ordered_same_entries; [apply same_entries_cloned|done].
    + eapply closed_copy; [exact Hc|apply Hh'|lia|exact Hm].
Qed.

Lemma run_inv ops : forall s, Inv comp s -> wp (run comp ops) s (fun _ s' => Inv comp s').
Proof.
  induction ops as [|o ops IH]; intros s Hs; cbn [run].
  - by apply wp_ret.
  - apply wp_bind. eapply wp_mono; [by apply exec_inv|]. intros [] s'. apply IH.
Qed.

Lemma reachable_inv ops :
  wp (run comp ops) empty_container (fun _ s => Inv comp s).
Proof. apply run_inv, inv_empty. Qed.

End Reachable.

Section Balanced.
Context {Key Value : Type}.
Variable comp : Key -> Key -> bool.
Implicit Types (t l r : tree Key Value) (s : St Key Value).

(** Insertion, removal and [clear] keep the height invariant: a container
    that was never copied is balanced, with the heights its nodes store
    the true ones. *)
Lemma run_avl ops : forall s t,
  forallb (fun o => negb (copies o)) ops = true ->
  holds s t -> avl t ->
  wp (run comp ops) s (fun _ s' => exists t', holds s' t' /\ avl t').
Proof.
  induction ops as [|o ops IH]; intros s t Hops Hh Ha; cbn [run].
  - apply wp_ret. by exists t.
  - cbn [forallb] in Hops. apply andb_true_iff in Hops as [Ho Hops].
    pose proof (avl_hpos _ Ha) as Hp.
    apply wp_bind.
    destruct o as [k v|[k v]|k|k| |]; cbn [exec]; try done.
    + eapply wp_mono; [by apply push_spec|]. intros [] s' (Hh' & _ & _).
      eapply IH; [done|exact Hh'|]. by apply avl_ins.
    + unfold insert. cbn [fst snd].
      eapply wp_mono; [by apply push_spec|]. intros [] s' (Hh' & _ & _).
      eapply IH; [done|exact Hh'|]. by apply avl_ins.
    + eapply wp_mono; [by apply drop_spec|]. intros [] s' (Hh' & _ & _).
      eapply IH; [done|exact Hh'|]. by apply avl_del.
    + unfold erase.
      eapply wp_mono; [by apply drop_spec|]. intros [] s' (Hh' & _ & _).
      eapply IH; [done|exact Hh'|]. by apply avl_del.
    + eapply wp_mono; [by apply clear_spec|]. intros [] s' (Hh' & _ & _).
      eapply IH; [done|exact Hh'|done].
Qed.

(** X19: a container that was never copied keeps the height invariant
    through every sequence of insertions, removals and [clear]: at every
    node the stored height is one more than the larger of the children's
    and the children's heights differ by at most one. *)
Lemma heights_without_copy ops :
  forallb (fun o => negb (copies o)) ops = true ->
  wp (run comp ops) empty_container (fun _ s => exists t, holds s t /\ avl t).
Proof.
  intros Hops. apply (run_avl ops empty_container E); [done| |done].
  split; [done|]. split; [done|constructor].
Qed.

End Balanced.

(** ** Reading a store that has only grown elsewhere *)

Section Mirrors.
Context {Key Value : Type}.
Implicit Types (t l r : tree Key Value) (s : St Key Value)
  (m : gmap addr (Node Key Value)) (nd : Node Key Value).

Lemma mirrors_bind {A B} (V : A -> Prop) (W : B -> Prop) s s2
    (c : M Key Value A) (k : A -> M Key Value B) :
  mirrors V s s2 c -> (forall x, V x -> mirrors W s s2 (k x)) ->
  mirrors W s s2 (bind c k).
Proof.
  unfold mirrors, bind. intros Hc Hk.
  destruct (c s) as [x s'|e s'| |].
  - destruct Hc as (-> & -> & Hx). apply Hk, Hx.
  - destruct Hc as (-> & ->). done.
  - by rewrite Hc.
  - by rewrite Hc.
Qed.

Lemma mirrors_ret {A} (W : A -> Prop) s s2 (x : A) : W x -> mirrors W s s2 (ret x).
Proof. by unfold mirrors, ret. Qed.

Lemma mirrors_observe {A} (V : A -> Prop) s s2 (c : M Key Value A) :
  mirrors V s s2 c -> observe (c s2) = observe (c s).
Proof.
  unfold mirrors. destruct (c s) as [x s'|e s'| |].
  - by intros (_ & -> & _).
  - by intros (_ & ->).
  - by intros ->.
  - by intros ->.
Qed.

Section Fixed.
Variables (s s2 : St Key Value).
Hypothesis Hclosed : closed s.
Hypothesis Hagree : agree (brk s) s s2.

Lemma mirrors_load p : pv (brk s) p -> mirrors (refs_ok (brk s)) s s2 (load p).
Proof.
  intros Hp. unfold mirrors, load. destruct p as [a|]; [|done]. cbn in Hp.
  cbv beta iota. rewrite (Hagree a Hp). destruct (mem s !! a) as [nd|] eqn:Hnd; [|done].
  split_and!; try done. destruct (Hclosed _ _ Hnd) as (_ & ? & ? & ?). by split_and!.
Qed.

Lemma mirrors_lock w : pv (brk s) w -> mirrors (pv (brk s)) s s2 (lock w).
Proof.
  intros Hp. unfold mirrors, lock. destruct w as [a|]; [|done]. cbn in Hp.
  cbv beta iota. rewrite (Hagree a Hp). by destruct (mem s !! a).
Qed.

Lemma mirrors_minValueNode fuel : forall p,
  pv (brk s) p -> mirrors (pv (brk s)) s s2 (minValueNode fuel p).
Proof.
  induction fuel as [|fuel IH]; intros p Hp; cbn [minValueNode]; [done|].
  eapply mirrors_bind; [by apply mirrors_load|]. intros nd (Hl & _ & _).
  destruct (left nd) eqn:Hle; [|by apply mirrors_ret]. by apply IH.
Qed.

Lemma mirrors_climb fuel : forall p,
  pv (brk s) p -> mirrors (pv (brk s)) s s2 (climb fuel p).
Proof.
  induction fuel as [|fuel IH]; intros p Hp; cbn [climb]; [done|].
  eapply mirrors_bind; [by apply mirrors_load|]. intros nd (_ & _ & Hpar).
  eapply mirrors_bind; [by apply mirrors_lock|]. intros q Hq.
  destruct q as [qa|] eqn:Hqe; [|by apply mirrors_ret].
  eapply mirrors_bind; [by apply mirrors_load|]. intros pn _.
  destruct (ptr_eqb (left pn) p); [by apply mirrors_ret|]. by apply IH.
Qed.

Lemma mirrors_advance fuel p :
  pv (brk s) p -> mirrors (pv (brk s)) s s2 (advance fuel p).
Proof.
  intros Hp. unfold advance.
  eapply mirrors_bind; [by apply mirrors_load|]. intros nd (_ & Hr & _).
  destruct (right nd) eqn:Hre.
  - by apply mirrors_minValueNode.
  - by apply mirrors_climb.
Qed.

Lemma mirrors_deref p :
  pv (brk s) p -> mirrors (fun _ => True) s s2 (deref p).
Proof.
  intros Hp. unfold deref.
  eapply mirrors_bind; [by apply mirrors_load|]. intros nd _. by apply mirrors_ret.
Qed.

Lemma mirrors_walk fuel : forall p,
  pv (brk s) p -> mirrors (fun _ => True) s s2 (walk fuel p).
Proof.
  induction fuel as [|fuel IH]; intros p Hp; cbn [walk]; [done|].
  destruct p as [a|] eqn:Hpe; [|by apply mirrors_ret].
  eapply mirrors_bind; [by apply mirrors_deref|]. intros d _.
  eapply mirrors_bind; [by apply mirrors_advance|]. intros nxt Hn.
  eapply mirrors_bind; [by apply IH|]. intros rest _. by apply mirrors_ret.
Qed.

End Fixed.

Lemma begin_spec s t :
  holds s t -> begin_ s = Ret (root_of (leftmost t)) s.
Proof.
  intros [Hroot Hown]. unfold begin_, bind, budget, get_root. rewrite Hroot.
  destruct t as [|a l k v h r]; [done|]. cbn [root_of].
  pose proof (own_depth _ _ Hown).
  destruct (minValueNode_spec (T a l k v h r) (S (brk s)) s Hown)
    as (x & s' & Hrun & -> & ->); [done|lia|]. exact Hrun.
Qed.

(** The entries a traversal of [s] visits are those a traversal visits in
    any store that agrees with [s] below [brk s]. *)
Lemma traverse_agree s s2 t fuel :
  holds s t -> closed s -> agree (brk s) s s2 -> (brk s <= brk s2)%nat ->
  root s2 = root s ->
  observe (traverse fuel s2) = observe (traverse fuel s).
Proof.
  intros Hh Hc Ha Hb Hr.
  assert (holds s2 t) as Hh2.
  { destruct Hh as [Hroot Hown]. split; [congruence|].
    eapply own_frame; [exact Hown|done|]. intros b Hb'. apply Ha.
    by eapply own_bound. }
  unfold traverse, bind. rewrite (begin_spec _ _ Hh), (begin_spec _ _ Hh2).
  eapply mirrors_observe, mirrors_walk; [done|done|].
  destruct Hh as [_ Hown].
  destruct (leftmost t) as [|am ml mk mv mh mr] eqn:Hlm; [done|].
  cbn. eapply own_bound; [exact Hown|]. apply leftmost_in. rewrite Hlm. left.
Qed.

End Mirrors.

Section Entries.
Context {Key Value : Type}.
Variable comp : Key -> Key -> bool.

(** A new node adds its entry and no other. *)
Lemma entries_ins_new fresh (t : tree Key Value) k v :
  grows comp t k = true ->
  entries (ins comp fresh t k v) ≡ₚ (k, v) :: entries t.
Proof.
  induction t as [|a l IHl k' v' h r IHr]; cbn [ins grows]; [done|].
  destruct (comp k k'); [|destruct (comp k' k); [|done]]; intros Hg;
    rewrite entries_bal; cbn [entries].
  - by rewrite IHl.
  - rewrite IHr by done. rewrite <- !Permutation_middle. apply perm_swap.
Qed.

End Entries.

(** * The documented properties *)

Section Properties.
Context {Key Value : Type}.
Variable comp : Key -> Key -> bool.
Implicit Types (t l r : tree Key Value) (s : St Key Value)
  (m : gmap addr (Node Key Value)) (nd : Node Key Value).

(** C6: read-only indexed access at a key the container does not hold
    throws [KeyNotFound] and leaves the whole state, hence [size()] and the
    shape of the tree, as it was. *)
Theorem index_const_absent s t key :
  holds s t -> absent comp key t ->
  index_const comp key s = Throw KeyNotFound s /\
  wp size s (fun n s' => n = nodeCount s /\ s' = s).
Proof.
  intros Hh Ha. split.
  - rewrite (index_const_spec comp s t key Hh). unfold found.
    by rewrite lookup_none.
  - by eexists _, _.
Qed.

(** C10: on an empty container [equalRange] reads through the absent root,
    for every key: the precondition that the container is non-empty is
    needed. *)
Theorem equalRange_empty_undefined (key : Key) (count : Z)
    (m : gmap addr (Node Key Value)) (n : addr) :
  equalRange comp key (mkSt None count m n) = Undefined.
Proof.
  unfold equalRange, bind, budget, get_root. cbn [root brk].
  (* the first round of [while (node->left)] loads the null root *)
  cbn [equalRange_leftmost]. unfold bind, load. reflexivity.
Qed.

Hypothesis comp_irrefl : forall x, comp x x = false.
Hypothesis comp_trans :
  forall x y z, comp x y = true -> comp y z = true -> comp x z = true.
Hypothesis equiv_trans :
  forall x y z, equiv comp x y = true -> equiv comp y z = true ->
                equiv comp x z = true.

(** C2: in every state a client can reach, [push key value] followed by the
    read-only [operator[]] at [key] returns [value], and [erase key] followed
    by [find key] returns the end position. *)
Theorem push_read_erase_find ops key value :
  wp (run comp ops) empty_container (fun _ s =>
    wp (push comp key value) s (fun _ s1 =>
      index_const comp key s1 = Ret value s1) /\
    wp (erase comp key) s (fun _ s1 =>
      find comp key s1 = Ret None s1)).
Proof.
  eapply wp_mono; [by apply reachable_inv|].
  intros _ s (t & Hh & Hp & Ho & _). split.
  - eapply wp_mono; [by apply push_spec|]. intros _ s1 (Hh1 & _ & _).
    rewrite (index_const_spec comp _ _ key Hh1).
    assert (exists a k', found comp (ins comp (brk s) t key value) key
                         = Some (a, (k', value))) as (a & k' & ->)
      by (by apply found_ins).
    done.
  - unfold erase. eapply wp_mono; [by apply drop_spec|]. intros _ s1 (Hh1 & _ & _).
    rewrite (find_spec comp _ _ key Hh1). rewrite lookup_none; [done|].
    by apply del_not_equiv.
Qed.

(** C4: after every sequence of public operations the tree the container
    holds is ordered: at every node the keys on the left compare below the
    node's key and the keys on the right above it.  Its keys therefore
    ascend and none occurs twice. *)
Theorem order_invariant ops :
  wp (run comp ops) empty_container (fun _ s =>
    exists t, holds s t /\ ordered comp t /\
              ascending comp (keys t) /\ NoDup (keys t)).
Proof.
  eapply wp_mono; [by apply reachable_inv|].
  intros _ s (t & Hh & _ & Ho & _). exists t.
  assert (ascending comp (keys t)) as Ha by (by apply ordered_ascending).
  split_and!; [done|done|done|]. by eapply ascending_NoDup.
Qed.

(** C9: copy construction builds its nodes at addresses of its own, with
    the entries of the original; erasing a key from the copy afterwards
    leaves every node of the original as it was, so that the original's
    [size()] and its traversal, whatever the number of steps allowed, give
    what they gave before the copy was made. *)
Theorem copy_is_independent ops key :
  wp (run comp ops) empty_container (fun _ s =>
    exists t, holds s t /\
    wp (copy_construct (this_obj s)) s (fun _ s1 =>
      exists t1, holds s1 t1 /\ entries t1 = entries t /\
                 (forall b, b ∈ addrs t1 -> b ∉ addrs t) /\
                 agree (brk s) s s1 /\
      wp (erase comp key) s1 (fun _ s2 =>
        let original := with_this (this_obj s) s2 in
        agree (brk s) s s2 /\
        holds original t /\
        observe (size original) = observe (size s) /\
        forall fuel,
          observe (traverse fuel original) = observe (traverse fuel s)))).
Proof.
  eapply wp_mono; [by apply reachable_inv|].
  intros _ s (t & Hh & Hp & Ho & Hc). exists t. split; [done|].
  eapply wp_mono; [by apply copy_spec|].
  intros _ s1 (Hh1 & Hn1 & Hb1 & Hm1).
  assert (agree (brk s) s s1) as Ha1.
  { intros b Hb. apply Hm1. rewrite addrs_cloned. lia. }
  exists (cloned (brk s) t). split_and!; [done| | |done|].
  { symmetry. apply same_entries_list, same_entries_cloned. }
  { intros b Hb Hb'. apply addrs_cloned in Hb.
    pose proof (own_bound _ _ _ (proj2 Hh) Hb'). lia. }
  unfold erase. eapply wp_mono.
  { apply drop_spec; [exact Hh1|apply hpos_cloned]. }
  intros _ s2 (Hh2 & (_ & Hb2 & Hfoot & Hm2) & _).
  assert (agree (brk s) s s2) as Ha2.
  { intros b Hb. rewrite Hm2.
    - rewrite decide_False; [by apply Ha1|]. rewrite addrs_cloned. lia.
    - intros Hin. apply Hfoot in Hin. rewrite addrs_cloned in Hin. lia. }
  cbn zeta. split_and!; [done| |done|].
  - destruct Hh as [Hr Hown]. split; [done|].
    eapply own_frame; [exact Hown|cbn; lia|]. intros b Hb. apply Ha2.
    by eapply own_bound.
  - intros fuel. eapply traverse_agree; [exact Hh|done| |cbn; lia|done].
    exact Ha2.
Qed.

End Properties.

(** * The container at integer keys *)

Section Integers.

Lemma Zltb_trans x y z : (x <? y) = true -> (y <? z) = true -> (x <? z) = true.
Proof. rewrite !Z.ltb_lt. lia. Qed.

Lemma Zltb_equiv_trans x y z :
  equiv Z.ltb x y = true -> equiv Z.ltb y z = true -> equiv Z.ltb x z = true.
Proof.
  unfold equiv. rewrite !andb_true_iff, !negb_true_iff, !Z.ltb_ge. lia.
Qed.

Lemma one_entry_holds : holds one_entry one_entry_tree.
Proof.
  split; [reflexivity|]. split.
  - cbn. split_and!; [lia| |done|done]. by exists None.
  - apply NoDup_singleton.
Qed.

(** [one_entry] is what [push(1, 10)] makes of a fresh container. *)
Lemma one_entry_reached :
  run Z.ltb [OpPush 1 10] empty_container = Ret tt one_entry.
Proof. vm_compute. reflexivity. Qed.

(** C1 at [push(1, 10); erase(1)]: the tree is empty again, no entry is
    traversed, and [size()] still answers 1. *)
Lemma erase_keeps_count :
  wp (run Z.ltb [OpPush 1 10; OpErase 1]) empty_container (fun _ s =>
    root s = None /\ mem s = ∅ /\
    observe (traverse 1 s) = Ret [] tt /\
    size s = Ret 1 s).
Proof. eexists _, _. split; [vm_compute; reflexivity|]. by vm_compute. Qed.

(** C3 at the copy of a container holding keys 1 and 2: the root of the copy
    has a right child of height 1 and no left child, and stores height 1
    where the invariant asks for 2. *)
Lemma copy_loses_heights :
  wp (run Z.ltb [OpPush 1 10; OpPush 2 20; OpCopy]) empty_container (fun _ s =>
    exists nd, load (root s) s = Ret nd s /\
      height_of (left nd) s = Ret 0 s /\
      height_of (right nd) s = Ret 1 s /\
      height nd = 1 /\
      height nd <> 1 + Z.max 0 1).
Proof.
  eexists _, _. split; [vm_compute; reflexivity|].
  eexists. split; [vm_compute; reflexivity|]. by vm_compute.
Qed.

(** C5 at pushes of 10, 5, 15, 3, 1: the container counts five entries and
    the traversal from [begin()] reaches the end after three. *)
Lemma traversal_stops_early :
  wp (run Z.ltb [OpPush 10 100; OpPush 5 50; OpPush 15 150; OpPush 3 30;
                 OpPush 1 10]) empty_container (fun _ s =>
    size s = Ret 5 s /\
    observe (traverse 100 s) = Ret [(1, 10); (3, 30); (5, 50)] tt).
Proof. eexists _, _. split; [vm_compute; reflexivity|]. by vm_compute. Qed.

Lemma push_read_erase_find_witness :
  wp (run Z.ltb [OpPush 1 10; OpPush 2 20]) empty_container (fun _ s =>
    wp (push Z.ltb 2 30) s (fun _ s1 => index_const Z.ltb 2 s1 = Ret 30 s1) /\
    wp (erase Z.ltb 2) s (fun _ s1 => find Z.ltb 2 s1 = Ret None s1)).
Proof.
  apply (push_read_erase_find Z.ltb);
    first [exact Z.ltb_irrefl | exact Zltb_trans | exact Zltb_equiv_trans].
Defined.

Lemma order_invariant_witness :
  wp (run Z.ltb [OpPush 2 20; OpPush 1 10; OpPush 3 30; OpErase 2])
    empty_container (fun _ s =>
    exists t, holds s t /\ ordered Z.ltb t /\
              ascending Z.ltb (keys t) /\ NoDup (keys t)).
Proof.
  apply (order_invariant Z.ltb);
    first [exact Z.ltb_irrefl | exact Zltb_trans | exact Zltb_equiv_trans].
Defined.

Lemma index_const_absent_witness :
  holds one_entry one_entry_tree /\ absent Z.ltb 2 one_entry_tree /\
  index_const Z.ltb 2 one_entry = Throw KeyNotFound one_entry /\
  wp size one_entry (fun n s' => n = nodeCount one_entry /\ s' = one_entry).
Proof.
  split; [exact one_entry_holds|]. split; [by vm_compute|].
  apply (index_const_absent Z.ltb one_entry one_entry_tree 2);
    [exact one_entry_holds | by vm_compute].
Defined.

Lemma copy_is_independent_witness :
  wp (run Z.ltb [OpPush 1 10; OpPush 2 20; OpPush 3 30]) empty_container
    (fun _ s =>
    exists t, holds s t /\
    wp (copy_construct (this_obj s)) s (fun _ s1 =>
      exists t1, holds s1 t1 /\ entries t1 = entries t /\
                 (forall b, b ∈ addrs t1 -> b ∉ addrs t) /\
                 agree (brk s) s s1 /\
      wp (erase Z.ltb 2) s1 (fun _ s2 =>
        let original := with_this (this_obj s) s2 in
        agree (brk s) s s2 /\
        holds original t /\
        observe (size original) = observe (size s) /\
        forall fuel,
          observe (traverse fuel original) = observe (traverse fuel s)))).
Proof.
  apply (copy_is_independent Z.ltb);
    first [exact Z.ltb_irrefl | exact Zltb_trans | exact Zltb_equiv_trans].
Defined.

End Integers.

(** ** Entries under insertion and removal *)

Section EntryFacts.
Context {Key Value : Type}.
Variable comp : Key -> Key -> bool.
Implicit Types (t l r : tree Key Value) (k x y : Key) (e : Key * Value).

Lemma nodes_entries t : length (entries t) = nodes t.
Proof. induction t; cbn; [done|]. rewrite length_app. cbn. lia. Qed.

Lemma nodes_bal t : nodes (bal t) = nodes t.
Proof. by rewrite <- !nodes_entries, entries_bal. Qed.

Lemma nodes_ins fresh t k v :
  nodes (ins comp fresh t k v) =
    if grows comp t k then S (nodes t) else nodes t.
Proof.
  induction t as [|a l IHl k' v' h r IHr]; cbn [ins grows]; [done|].
  destruct (comp k k'); [|destruct (comp k' k)];
    rewrite nodes_bal; cbn [nodes]; rewrite ?IHl, ?IHr; try done.
  - destruct (grows comp l k); lia.
  - destruct (grows comp r k); lia.
Qed.

Hypothesis comp_irrefl : forall x, comp x x = false.
Hypothesis comp_trans :
  forall x y z, comp x y = true -> comp y z = true -> comp x z = true.
Hypothesis equiv_trans :
  forall x y z, equiv comp x y = true -> equiv comp y z = true ->
                equiv comp x z = true.

Lemma equiv_refl x : equiv comp x x = true.
Proof. unfold equiv. by rewrite comp_irrefl. Qed.

Lemma equiv_sym x y : equiv comp x y = equiv comp y x.
Proof. unfold equiv. by destruct (comp x y), (comp y x). Qed.

Lemma below_not_under k x (v : Value) : comp x k = true -> under comp k (x, v) = false.
Proof.
  intros H. unfold under, equiv. cbn [fst]. rewrite H.
  by destruct (comp k x).
Qed.

Lemma above_not_under k x (v : Value) : comp k x = true -> under comp k (x, v) = false.
Proof. intros H. unfold under, equiv. cbn [fst]. by rewrite H. Qed.

(** Entries of a subtree wholly on one side of [k] are not under [k]. *)
Lemma filter_under_below k t :
  all_keys (fun x => comp x k = true) t ->
  filter (fun e => under comp k e = true) (entries t) = [] /\
  filter (fun e => under comp k e = false) (entries t) = entries t.
Proof.
  induction t as [|a l IHl k' v' h r IHr]; cbn [all_keys entries]; [done|].
  intros (Hk & Hl & Hr). destruct (IHl Hl) as [El1 El2], (IHr Hr) as [Er1 Er2].
  rewrite !filter_app, !filter_cons, El1, El2, Er1, Er2.
  rewrite (below_not_under _ _ _ Hk).
  rewrite decide_False by done. by rewrite decide_True by done.
Qed.

Lemma filter_under_above k t :
  all_keys (fun x => comp k x = true) t ->
  filter (fun e => under comp k e = true) (entries t) = [] /\
  filter (fun e => under comp k e = false) (entries t) = entries t.
Proof.
  induction t as [|a l IHl k' v' h r IHr]; cbn [all_keys entries]; [done|].
  intros (Hk & Hl & Hr). destruct (IHl Hl) as [El1 El2], (IHr Hr) as [Er1 Er2].
  rewrite !filter_app, !filter_cons, El1, El2, Er1, Er2.
  rewrite (above_not_under _ _ _ Hk).
  rewrite decide_False by done. by rewrite decide_True by done.
Qed.

(** Insertion touches entries under the key only. *)
Lemma entries_ins_others fresh t k v :
  filter (fun e => under comp k e = false) (entries (ins comp fresh t k v)) =
  filter (fun e => under comp k e = false) (entries t).
Proof.
  induction t as [|a l IHl k' v' h r IHr]; cbn [ins].
  - cbn [entries app]. rewrite filter_cons.
    by rewrite decide_False by (unfold under; cbn [fst]; by rewrite equiv_refl).
  - destruct (comp k k') eqn:H1; [|destruct (comp k' k) eqn:H2];
      rewrite entries_bal; cbn [entries]; rewrite !filter_app, !filter_cons.
    + by rewrite IHl.
    + by rewrite IHr.
    + by rewrite !decide_False
        by (unfold under, equiv; cbn [fst]; by rewrite H1, H2).
Qed.

(** In an ordered tree the descent finds the one entry under the key. *)
Lemma found_entries t k :
  ordered comp t ->
  snd <$> found comp t k = entry_under comp k (entries t).
Proof.
  unfold entry_under.
  induction t as [|a l IHl k' v' h r IHr]; cbn [ordered entries]; [done|].
  intros (Hl & Hr & Ol & Or). rewrite found_node, filter_app, filter_cons.
  destruct (comp k k') eqn:H1; [|destruct (comp k' k) eqn:H2].
  - rewrite (above_not_under _ _ _ H1), decide_False by done.
    destruct (filter_under_above k r) as [-> _].
    { eapply all_keys_impl; [|exact Hr]. intros x Hx. cbn beta in *. eauto. }
    rewrite app_nil_r. by apply IHl.
  - rewrite (below_not_under _ _ _ H2), decide_False by done.
    destruct (filter_under_below k l) as [-> _].
    { eapply all_keys_impl; [|exact Hl]. intros x Hx. cbn beta in *. eauto. }
    cbn [app]. by apply IHr.
  - destruct (filter_under_below k l) as [-> _].
    { eapply all_keys_impl; [|exact Hl]. intros x Hx. cbn beta in *.
      by eapply comp_equiv_r. }
    by rewrite decide_True by (unfold under, equiv; cbn [fst]; by rewrite H1, H2).
Qed.

Lemma assign_not_under k (v : Value) e :
  under comp k e = false -> assign comp k v e = e.
Proof. intros H. unfold assign. by rewrite H. Qed.

(** Assigning under [k] changes the value of the entry found under [k]. *)
Lemma entry_under_assign k (v : Value) (p : list (Key * Value)) :
  entry_under comp k (map (assign comp k v) p) =
    (fun e => (fst e, v)) <$> entry_under comp k p.
Proof.
  unfold entry_under. induction p as [|[x w] q IH]; [done|].
  cbn [map]. rewrite !filter_cons.
  destruct (under comp k (x, w)) eqn:Hu.
  - assert (assign comp k v (x, w) = (x, v)) as -> by (unfold assign; by rewrite Hu).
    rewrite decide_True by done. by rewrite decide_True by done.
  - rewrite (assign_not_under k v (x, w) Hu).
    by rewrite !decide_False by (by rewrite Hu).
Qed.

Lemma map_assign_below k (v : Value) t :
  all_keys (fun x => comp x k = true) t ->
  map (assign comp k v) (entries t) = entries t.
Proof.
  intros H. apply all_keys_entries in H. unfold keys in H.
  induction (entries t) as [|[x w] p IH]; [done|]. cbn [map fst] in *.
  apply Forall_cons in H as [Hx Hp]. rewrite IH by done.
  unfold assign. by rewrite (below_not_under _ _ _ Hx).
Qed.

Lemma map_assign_above k (v : Value) t :
  all_keys (fun x => comp k x = true) t ->
  map (assign comp k v) (entries t) = entries t.
Proof.
  intros H. apply all_keys_entries in H. unfold keys in H.
  induction (entries t) as [|[x w] p IH]; [done|]. cbn [map fst] in *.
  apply Forall_cons in H as [Hx Hp]. rewrite IH by done.
  unfold assign. by rewrite (above_not_under _ _ _ Hx).
Qed.

(** Insertion at a key already stored replaces the value there and
    nothing else; the stored key stays. *)
Lemma entries_ins_present fresh t k v :
  ordered comp t -> grows comp t k = false ->
  entries (ins comp fresh t k v) = map (assign comp k v) (entries t).
Proof.
  induction t as [|a l IHl k' v' h r IHr]; cbn [ins grows ordered]; [done|].
  intros (Hl & Hr & Ol & Or).
  destruct (comp k k') eqn:H1; [|destruct (comp k' k) eqn:H2]; intros Hg;
    rewrite entries_bal; cbn [entries]; rewrite map_app; cbn [map].
  - rewrite IHl by done. rewrite (map_assign_above k v r).
    + by rewrite (assign_not_under k v (k', v')) by (by apply above_not_under).
    + eapply all_keys_impl; [|exact Hr]. intros x Hx. cbn beta in *. eauto.
  - rewrite IHr by done. rewrite (map_assign_below k v l).
    + by rewrite (assign_not_under k v (k', v')) by (by apply below_not_under).
    + eapply all_keys_impl; [|exact Hl]. intros x Hx. cbn beta in *. eauto.
  - rewrite (map_assign_below k v l), (map_assign_above k v r).
    + unfold assign, under, equiv. cbn [fst]. by rewrite H1, H2.
    + eapply all_keys_impl; [|exact Hr]. intros x Hx. cbn beta in *.
      by eapply comp_equiv_l.
    + eapply all_keys_impl; [|exact Hl]. intros x Hx. cbn beta in *.
      by eapply comp_equiv_r.
Qed.

(** The leftmost entry comes first, and no other entry is under its key. *)
Lemma entries_leftmost t d :
  ordered comp t -> t <> E ->
  entries t =
    entry_of (leftmost t) d ::
    filter (fun e => under comp (fst (entry_of (leftmost t) d)) e = false)
           (entries t).
Proof.
  induction t as [|a l IHl k v h r _]; [done|]. cbn [ordered].
  intros (Hl & Hr & Ol & Or) _. cbn [leftmost entries].
  destruct l as [|la ll lk lv lh lr].
  - cbn [entry_of fst entries app]. rewrite filter_cons.
    rewrite decide_False
      by (unfold under; cbn [fst]; by rewrite equiv_refl).
    by destruct (filter_under_above k r Hr) as [_ ->].
  - set (l := T la ll lk lv lh lr) in *.
    assert (l <> E) as Hne by done.
    pose proof (leftmost_key _ l d Hl Hne) as Hm. cbn beta in Hm.
    rewrite filter_app, filter_cons.
    rewrite decide_True by (by apply above_not_under).
    destruct (filter_under_above (fst (entry_of (leftmost l) d)) r) as [_ ->].
    { eapply all_keys_impl; [|exact Hr]. intros x Hx. cbn beta in *. eauto. }
    rewrite app_comm_cons. f_equal. by apply IHl.
Qed.

(** Removal takes out the entries under the key and keeps the others in
    their order. *)
Lemma entries_del t : forall k,
  ordered comp t ->
  entries (del comp t k) =
    filter (fun e => under comp k e = false) (entries t).
Proof.
  induction t as [|a l IHl k' v' h r IHr]; intros k; cbn [del ordered]; [done|].
  intros (Hl & Hr & Ol & Or). cbn [entries].
  rewrite filter_app, filter_cons.
  destruct (comp k k') eqn:H1; [|destruct (comp k' k) eqn:H2].
  - rewrite entries_bal. cbn [entries]. rewrite IHl by done.
    rewrite decide_True by (by apply above_not_under).
    destruct (filter_under_above k r) as [_ ->]; [|done].
    eapply all_keys_impl; [|exact Hr]. intros x Hx. cbn beta in *. eauto.
  - rewrite entries_bal. cbn [entries]. rewrite IHr by done.
    rewrite decide_True by (by apply below_not_under).
    destruct (filter_under_below k l) as [_ ->]; [|done].
    eapply all_keys_impl; [|exact Hl]. intros x Hx. cbn beta in *. eauto.
  - rewrite decide_False
      by (unfold under, equiv; cbn [fst]; by rewrite H1, H2).
    destruct (filter_under_below k l) as [_ ->].
    { eapply all_keys_impl; [|exact Hl]. intros x Hx. cbn beta in *.
      by eapply comp_equiv_r. }
    destruct (filter_under_above k r) as [_ ->].
    { eapply all_keys_impl; [|exact Hr]. intros x Hx. cbn beta in *.
      by eapply comp_equiv_l. }
    destruct l as [|la ll lk lv lh lr]; [done|].
    destruct r as [|ra rl rk rv rh rr]; [by rewrite app_nil_r|].
    cbn zeta. rewrite entries_bal. cbn [entries]. f_equal.
    set (r := T ra rl rk rv rh rr) in *.
    rewrite IHr by done.
    rewrite <- surjective_pairing.
    symmetry. by apply (entries_leftmost r (k', v')).
Qed.

(** Two lists that agree off [k] give the same entry under a key that is
    not equivalent to [k]. *)
Lemma entry_under_others k k' (p q : list (Key * Value)) :
  equiv comp k k' = false ->
  filter (fun e => under comp k e = false) p =
  filter (fun e => under comp k e = false) q ->
  entry_under comp k' p = entry_under comp k' q.
Proof.
  intros Hk Hpq. unfold entry_under.
  assert (forall u : list (Key * Value),
    filter (fun e => under comp k' e = true) u =
    filter (fun e => under comp k' e = true)
           (filter (fun e => under comp k e = false) u)) as Hsplit.
  { intros u. rewrite list_filter_filter. apply list_filter_iff.
    intros [x w]. unfold under. cbn [fst]. split; [|tauto].
    intros Hx. split; [done|].
    destruct (equiv comp k x) eqn:Hkx; [|done].
    rewrite (equiv_sym k' x) in Hx.
    by rewrite (equiv_trans _ _ _ Hkx Hx) in Hk. }
  by rewrite (Hsplit p), (Hsplit q), Hpq.
Qed.

End EntryFacts.

(** ** What the height invariant gives *)

Section HeightFacts.
Context {Key Value : Type}.
Implicit Types (t l r : tree Key Value).

(** Under the height invariant the stored height is the true one. *)
Lemma avl_depth t : avl t -> ht t = Z.of_nat (depth t).
Proof.
  induction t as [|a l IHl k v h r IHr]; [done|]. cbn [avl ht depth].
  intros (-> & _ & Hl & Hr). rewrite (IHl Hl), (IHr Hr). lia.
Qed.

(** A tree of height 2n under the invariant has at least 2^n - 1 nodes. *)
Lemma avl_nodes_bound (n : nat) : forall t,
  avl t -> 2 * Z.of_nat n <= ht t -> 2 ^ Z.of_nat n <= Z.of_nat (nodes t) + 1.
Proof.
  induction n as [|n IH]; intros t Ha Hh.
  - cbn. lia.
  - destruct t as [|a l k v h r]; [cbn [ht] in Hh; lia|].
    cbn [avl ht nodes] in *. destruct Ha as (-> & Hb & Hl & Hr).
    pose proof (IH l Hl). pose proof (IH r Hr).
    replace (Z.of_nat (S n)) with (Z.of_nat n + 1) by lia.
    rewrite Z.pow_add_r by lia. lia.
Qed.

End HeightFacts.

(** * Further properties of the container *)

Section Reading.
Context {Key Value : Type}.
Variable comp : Key -> Key -> bool.
Implicit Types (t l r : tree Key Value) (s : St Key Value)
  (m : gmap addr (Node Key Value)) (nd : Node Key Value).

Hypothesis comp_irrefl : forall x, comp x x = false.
Hypothesis comp_trans :
  forall x y z, comp x y = true -> comp y z = true -> comp x z = true.
Hypothesis equiv_trans :
  forall x y z, equiv comp x y = true -> equiv comp y z = true ->
                equiv comp x z = true.

(** What the descent finds, in terms of the entries. *)
Lemma found_under s t key :
  own s t -> ordered comp t ->
  match entry_under comp key (entries t) with
  | Some e => exists a nd, found comp t key = Some (a, e) /\
                           mem s !! a = Some nd /\ data nd = e
  | None => lookup_tree comp t key = E
  end.
Proof.
  intros Hown Ho. rewrite <- (found_entries comp) by done.
  destruct (found comp t key) as [[a e]|] eqn:Hf; cbn [fmap option_fmap option_map snd].
  - destruct (found_cell comp _ _ _ _ _ Hown Hf) as (_ & nd & Hnd & Hd). eauto.
  - unfold found in Hf. by destruct (lookup_tree comp t key).
Qed.

Lemma under_grows t key :
  ordered comp t ->
  grows comp t key =
    match entry_under comp key (entries t) with Some _ => false | None => true end.
Proof.
  intros Ho. rewrite <- (found_entries comp) by done.
  unfold found. destruct (lookup_tree comp t key) eqn:Hl; cbn.
  - by apply grows_lookup.
  - destruct (grows comp t key) eqn:Hg; [|done].
    apply grows_lookup in Hg. congruence.
Qed.

Lemma index_const_under s t key :
  holds s t -> ordered comp t ->
  index_const comp key s =
    match entry_under comp key (entries t) with
    | Some e => Ret (snd e) s
    | None => Throw KeyNotFound s
    end.
Proof.
  intros Hh Ho. rewrite (index_const_spec comp s t key Hh).
  rewrite <- (found_entries comp) by done.
  by destruct (found comp t key) as [[a e]|].
Qed.

(** X9: in every state a client can reach, the read-only [operator[]]
    returns the value stored under the key, or throws when no entry is
    stored under it; the state is left as it was. *)
Theorem index_const_reads ops :
  wp (run comp ops) empty_container (fun _ s =>
    exists t, holds s t /\
    forall key,
      index_const comp key s =
        match entry_under comp key (entries t) with
        | Some e => Ret (snd e) s
        | None => Throw KeyNotFound s
        end).
Proof.
  eapply wp_mono; [by apply reachable_inv|].
  intros _ s (t & Hh & _ & Ho & _). exists t. split; [done|].
  intros key. by apply index_const_under.
Qed.

(** X10: [find] returns the node that holds the entry under the key, or the
    end position when there is none, and changes nothing. *)
Theorem find_position ops :
  wp (run comp ops) empty_container (fun _ s =>
    exists t, holds s t /\
    forall key,
      match entry_under comp key (entries t) with
      | Some e => exists a nd, find comp key s = Ret (Some a) s /\
                               mem s !! a = Some nd /\ data nd = e
      | None => find comp key s = Ret None s
      end).
Proof.
  eapply wp_mono; [by apply reachable_inv|].
  intros _ s (t & Hh & _ & Ho & _). exists t. split; [done|].
  intros key. rewrite (find_spec comp s t key Hh).
  pose proof (found_under s t key (proj2 Hh) Ho) as Hf.
  destruct (entry_under comp key (entries t)) as [e|].
  - destruct Hf as (a & nd & Hf & Hnd & Hd). exists a, nd.
    destruct (found_cell comp _ _ _ _ _ (proj2 Hh) Hf) as (-> & _). done.
  - by rewrite Hf.
Qed.

(** X11: [count] answers 1 for a key with an entry and 0 for any other, and
    changes nothing. *)
Theorem count_one_or_zero ops :
  wp (run comp ops) empty_container (fun _ s =>
    exists t, holds s t /\
    forall key,
      count comp key s =
        Ret (match entry_under comp key (entries t) with
             | Some _ => 1
             | None => 0
             end) s).
Proof.
  eapply wp_mono; [by apply reachable_inv|].
  intros _ s (t & Hh & _ & Ho & _). exists t. split; [done|].
  intros key. unfold count, bind. rewrite (find_spec comp s t key Hh).
  pose proof (found_under s t key (proj2 Hh) Ho) as Hf.
  destruct (entry_under comp key (entries t)) as [e|].
  - destruct Hf as (a & nd & Hf & Hnd & Hd).
    destruct (found_cell comp _ _ _ _ _ (proj2 Hh) Hf) as (-> & _). done.
  - by rewrite Hf.
Qed.

(** X13: [begin] is the end position on a container without entries and
    otherwise the node that holds the first entry in ascending order. *)
Theorem begin_first ops :
  wp (run comp ops) empty_container (fun _ s =>
    exists t, holds s t /\
    match entries t with
    | [] => begin_ s = Ret None s
    | e :: _ => exists a nd, begin_ s = Ret (Some a) s /\
                             mem s !! a = Some nd /\ data nd = e
    end).
Proof.
  eapply wp_mono; [by apply reachable_inv|].
  intros _ s (t & Hh & _ & Ho & _). exists t. split; [done|].
  rewrite (begin_spec s t Hh).
  destruct (decide (nodes t = 0%nat)) as [Hz|Hnz].
  - destruct t; [done|]. cbn in Hz. lia.
  - assert (t <> E) as Hne by (by intros ->).
    destruct (leftmost_cell s t (proj2 Hh) Hne)
      as (am & ml & mk & mv & mh & mr & parm & Hlm & _ & Hcell).
    rewrite (entries_leftmost comp comp_irrefl comp_trans t (mk, mv) Ho Hne).
    rewrite Hlm. cbn [entry_of root_of]. eauto.
Qed.

(** X1: [push] at a key already stored replaces the value of that entry;
    the stored key, every other entry, the order of the entries and what
    [size()] returns stay as they were. *)
Theorem push_present_assigns ops :
  wp (run comp ops) empty_container (fun _ s =>
    exists t, holds s t /\
    forall key value e, entry_under comp key (entries t) = Some e ->
      wp (push comp key value) s (fun _ s' =>
        exists t', holds s' t' /\
          entries t' = map (assign comp key value) (entries t) /\
          entry_under comp key (entries t') = Some (fst e, value) /\
          nodeCount s' = nodeCount s)).
Proof.
  eapply wp_mono; [by apply reachable_inv|].
  intros _ s (t & Hh & Hp & Ho & _). exists t. split; [done|].
  intros key value e He.
  assert (grows comp t key = false) as Hg by (by rewrite under_grows, He).
  eapply wp_mono; [by apply push_spec|]. intros _ s' (Hh' & _ & Hn).
  rewrite Hg in Hn. exists (ins comp (brk s) t key value).
  split_and!; try done.
  - by apply entries_ins_present.
  - rewrite entries_ins_present by done.
    rewrite (entry_under_assign comp). by rewrite He.
Qed.

(** X2: [push] at a key that has no entry adds the entry, keeps the others,
    and makes [size()] grow by one. *)
Theorem push_absent_adds ops :
  wp (run comp ops) empty_container (fun _ s =>
    exists t, holds s t /\
    forall key value, entry_under comp key (entries t) = None ->
      wp (push comp key value) s (fun _ s' =>
        exists t', holds s' t' /\
          (entries t' ≡ₚ (key, value) :: entries t) /\
          entry_under comp key (entries t') = Some (key, value) /\
          nodeCount s' = size_incr (nodeCount s))).
Proof.
  eapply wp_mono; [by apply reachable_inv|].
  intros _ s (t & Hh & Hp & Ho & _). exists t. split; [done|].
  intros key value He.
  assert (grows comp t key = true) as Hg by (by rewrite under_grows, He).
  eapply wp_mono; [by apply push_spec|]. intros _ s' (Hh' & _ & Hn).
  rewrite Hg in Hn. exists (ins comp (brk s) t key value).
  split_and!; try done.
  - by apply entries_ins_new.
  - assert (ordered comp (ins comp (brk s) t key value)) as Ho'
      by (by apply ordered_ins).
    rewrite <- (found_entries comp) by done.
    by rewrite found_ins_new.
Qed.

(** X3: [erase] takes out the entry under the key, if there is one, and
    keeps every other entry in its place; what [size()] returns does not
    change. *)
Theorem erase_removes ops :
  wp (run comp ops) empty_container (fun _ s =>
    exists t, holds s t /\
    forall key,
      wp (erase comp key) s (fun _ s' =>
        exists t', holds s' t' /\
          entries t' = filter (fun e => under comp key e = false) (entries t) /\
          nodeCount s' = nodeCount s)).
Proof.
  eapply wp_mono; [by apply reachable_inv|].
  intros _ s (t & Hh & Hp & Ho & _). exists t. split; [done|].
  intros key. unfold erase.
  eapply wp_mono; [by apply drop_spec|]. intros _ s' (Hh' & _ & Hn).
  exists (del comp t key). split_and!; try done. by apply entries_del.
Qed.

(** X4: [push] at one key does not change what the read-only [operator[]]
    gives at a key that is not equivalent to it. *)
Theorem push_other_keys ops key value key' :
  equiv comp key key' = false ->
  wp (run comp ops) empty_container (fun _ s =>
    wp (push comp key value) s (fun _ s' =>
      observe (index_const comp key' s') = observe (index_const comp key' s))).
Proof.
  intros Hk. eapply wp_mono; [by apply reachable_inv|].
  intros _ s (t & Hh & Hp & Ho & _).
  eapply wp_mono; [by apply push_spec|]. intros _ s' (Hh' & _ & _).
  rewrite (index_const_under s' _ key' Hh') by (by apply ordered_ins).
  rewrite (index_const_under s t key' Hh Ho).
  assert (entry_under comp key' (entries (ins comp (brk s) t key value)) =
          entry_under comp key' (entries t)) as ->.
  { eapply (entry_under_others comp); try done. by apply entries_ins_others. }
  by destruct (entry_under comp key' (entries t)).
Qed.

(** X5: [erase] of one key does not change what the read-only [operator[]]
    gives at a key that is not equivalent to it. *)
Theorem erase_other_keys ops key key' :
  equiv comp key key' = false ->
  wp (run comp ops) empty_container (fun _ s =>
    wp (erase comp key) s (fun _ s' =>
      observe (index_const comp key' s') = observe (index_const comp key' s))).
Proof.
  intros Hk. eapply wp_mono; [by apply reachable_inv|].
  intros _ s (t & Hh & Hp & Ho & _). unfold erase.
  eapply wp_mono; [by apply drop_spec|]. intros _ s' (Hh' & _ & _).
  rewrite (index_const_under s' _ key' Hh') by (by apply ordered_del).
  rewrite (index_const_under s t key' Hh Ho).
  assert (entry_under comp key' (entries (del comp t key)) =
          entry_under comp key' (entries t)) as ->.
  { eapply (entry_under_others comp); try done.
    rewrite entries_del by done. rewrite list_filter_filter.
    apply list_filter_iff. tauto. }
  by destruct (entry_under comp key' (entries t)).
Qed.

End Reading.

Section Bookkeeping.
Context {Key Value : Type}.
Variable comp : Key -> Key -> bool.
Implicit Types (t l r : tree Key Value) (s : St Key Value)
  (m : gmap addr (Node Key Value)) (nd : Node Key Value).

Lemma tidy_changes t t' s s' : tidy s t -> changes t t' s s' -> tidy s' t'.
Proof.
  intros Ht (_ & _ & _ & Hm) b Hb. rewrite (Hm b Hb).
  destruct (decide (b ∈ addrs t)); [done|]. by apply Ht.
Qed.

Lemma run_tidy ops : forall s t,
  forallb (fun o => negb (copies o)) ops = true ->
  holds s t -> avl t -> tidy s t ->
  wp (run comp ops) s (fun _ s' =>
    exists t', holds s' t' /\ avl t' /\ tidy s' t').
Proof.
  induction ops as [|o ops IH]; intros s t Hops Hh Ha Ht; cbn [run].
  - apply wp_ret. by exists t.
  - cbn [forallb] in Hops. apply andb_true_iff in Hops as [Ho Hops].
    pose proof (avl_hpos _ Ha) as Hp.
    apply wp_bind.
    destruct o as [k v|[k v]|k|k| |]; cbn [exec]; try done.
    + eapply wp_mono; [by apply push_spec|]. intros [] s' (Hh' & Hc & _).
      eapply IH; [done|exact Hh'|by apply avl_ins|by eapply tidy_changes].
    + unfold insert. cbn [fst snd].
      eapply wp_mono; [by apply push_spec|]. intros [] s' (Hh' & Hc & _).
      eapply IH; [done|exact Hh'|by apply avl_ins|by eapply tidy_changes].
    + eapply wp_mono; [by apply drop_spec|]. intros [] s' (Hh' & Hc & _).
      eapply IH; [done|exact Hh'|by apply avl_del|by eapply tidy_changes].
    + unfold erase.
      eapply wp_mono; [by apply drop_spec|]. intros [] s' (Hh' & Hc & _).
      eapply IH; [done|exact Hh'|by apply avl_del|by eapply tidy_changes].
    + eapply wp_mono; [by apply clear_spec|]. intros [] s' (Hh' & Hc & _).
      eapply IH; [done|exact Hh'|done|by eapply tidy_changes].
Qed.

Lemma holds_empty : holds (@empty_container Key Value) E.
Proof. split; [done|]. split; [done|constructor]. Qed.

(** X6: a container that was never copied leaks no node and keeps no
    dangling one: after every sequence of insertions, removals and [clear]
    the store holds exactly the nodes of the tree. *)
Theorem store_is_tree ops :
  forallb (fun o => negb (copies o)) ops = true ->
  wp (run comp ops) empty_container (fun _ s =>
    exists t, holds s t /\
    forall b : addr, is_Some (mem s !! b) <-> b ∈ addrs t).
Proof.
  intros Hops. eapply wp_mono.
  { apply (run_tidy ops empty_container E); [done|apply holds_empty|done|done]. }
  intros _ s (t & Hh & _ & Ht). exists t. split; [done|].
  intros b. split.
  - intros Hb. destruct (decide (b ∈ addrs t)) as [|Hn]; [done|].
    rewrite (Ht b Hn) in Hb. by destruct Hb.
  - intros Hb. destruct (shape_cell_ok _ _ _ _ (proj1 (proj2 Hh)) Hb) as (nd & -> & _).
    done.
Qed.

(** X7: in a container that was never copied [height] of the root is the
    true height of the tree, and a tree of height at least [2 n] holds at
    least [2 ^ n - 1] entries: the depth of every descent is logarithmic in
    the number of entries. *)
Theorem height_logarithmic ops :
  forallb (fun o => negb (copies o)) ops = true ->
  wp (run comp ops) empty_container (fun _ s =>
    exists t, holds s t /\
    height_of (root s) s = Ret (Z.of_nat (depth t)) s /\
    forall n : nat, (2 * n <= depth t)%nat ->
      2 ^ Z.of_nat n <= Z.of_nat (length (entries t)) + 1).
Proof.
  intros Hops. eapply wp_mono.
  { apply (run_tidy ops empty_container E); [done|apply holds_empty|done|done]. }
  intros _ s (t & Hh & Ha & _). exists t. split; [done|].
  pose proof (avl_depth t Ha) as Hd. split.
  - destruct Hh as [Hr Hown]. rewrite Hr, <- Hd.
    destruct t as [|a l k v h r]; [done|].
    destruct (own_root _ _ _ _ _ _ _ Hown) as (par & _ & Hcell).
    unfold height_of, bind, load, ret. cbn [root_of]. by rewrite Hcell.
  - intros n Hn. rewrite nodes_entries. apply avl_nodes_bound; [done|lia].
Qed.

Lemma counted_incr s t n :
  nodeCount s = Z.of_nat n mod size_max ->
  size_incr (nodeCount s) = Z.of_nat (S n) mod size_max.
Proof.
  intros ->. unfold size_incr.
  rewrite Z.add_mod_idemp_l by done. f_equal. lia.
Qed.

Lemma run_counted ops : forall s t,
  forallb (fun o => negb (erases o)) ops = true ->
  holds s t -> hpos t -> counted s t ->
  wp (run comp ops) s (fun _ s' => exists t', holds s' t' /\ counted s' t').
Proof.
  induction ops as [|o ops IH]; intros s t Hops Hh Hp Hc; cbn [run].
  - apply wp_ret. by exists t.
  - cbn [forallb] in Hops. apply andb_true_iff in Hops as [Ho Hops].
    apply wp_bind.
    assert (forall k v s',
      nodeCount s' =
        (if grows comp t k then size_incr (nodeCount s) else nodeCount s) ->
      counted s' (ins comp (brk s) t k v)) as Hpush.
    { intros k v s' Hn. unfold counted in *. rewrite nodes_ins, Hn.
      destruct (grows comp t k); [|done]. by apply (counted_incr s t). }
    destruct o as [k v|[k v]|k|k| |]; cbn [exec]; try done.
    + eapply wp_mono; [by apply push_spec|]. intros [] s' (Hh' & _ & Hn).
      eapply IH; [done|exact Hh'|by apply hpos_ins|by apply Hpush].
    + unfold insert. cbn [fst snd].
      eapply wp_mono; [by apply push_spec|]. intros [] s' (Hh' & _ & Hn).
      eapply IH; [done|exact Hh'|by apply hpos_ins|by apply Hpush].
    + eapply wp_mono; [by apply clear_spec|]. intros [] s' (Hh' & _ & Hn).
      eapply IH; [done|exact Hh'|done|]. unfold counted. by rewrite Hn.
    + eapply wp_mono; [by apply copy_spec|]. intros [] s' (Hh' & Hn & _ & _).
      eapply IH; [done|exact Hh'|apply hpos_cloned|].
      unfold counted in *. by rewrite Hn, nodes_cloned.
Qed.

(** X8: as long as no key is erased, [size()] is the number of entries of
    the container (as a 64-bit [size_t]), through insertions, overwrites,
    [clear] and copies. *)
Theorem size_without_erase ops :
  forallb (fun o => negb (erases o)) ops = true ->
  wp (run comp ops) empty_container (fun _ s =>
    exists t, holds s t /\
    size s = Ret (Z.of_nat (length (entries t)) mod size_max) s).
Proof.
  intros Hops. eapply wp_mono.
  { apply (run_counted ops empty_container E); [done|apply holds_empty|done|done]. }
  intros _ s (t & Hh & Hc). exists t. split; [done|].
  unfold size. rewrite nodes_entries. by rewrite Hc.
Qed.

End Bookkeeping.

Section Lifetimes.
Context {Key Value : Type}.
Implicit Types (t u l r : tree Key Value) (s : St Key Value)
  (m : gmap addr (Node Key Value)) (nd : Node Key Value).

(** X14: [clear], and with it the destructor, destroys every node of the
    tree and no other; afterwards the root is null, [size()] is 0 and
    [empty()] holds. *)
Theorem clear_frees_all s t :
  holds s t ->
  wp clear s (fun _ s' =>
    destructor s = Ret tt s' /\
    root s' = None /\ size s' = Ret 0 s' /\ empty s' = Ret true s' /\
    brk s' = brk s /\
    forall b : addr,
      mem s' !! b = if decide (b ∈ addrs t) then None else mem s !! b).
Proof.
  intros Hh. destruct (clear_spec s t Hh) as (x & s' & Hrun & HhE & Hc & Hn).
  exists x, s'. split; [done|]. destruct x.
  destruct HhE as [Hr _]. destruct Hc as (_ & Hb & _ & Hm).
  split_and!; try done.
  - unfold size. by rewrite Hn.
  - unfold empty. by rewrite Hn.
  - pose proof Hrun as Hrun'. unfold clear, bind, budget, get_root, put_root in Hrun'.
    destruct Hh as [Hroot Hown]. pose proof (own_depth _ _ Hown).
    destruct (release_spec t (S (brk s)) (set_root s None)) as (y & s1 & Hrel & _ & _ & Hb1 & _);
      [done|cbn; lia|].
    rewrite Hroot, Hrel in Hrun'. injection Hrun' as <-. cbn. cbn in Hb1. lia.
  - intros b. apply Hm. apply not_elem_of_nil.
Qed.

(** X15: copy assignment from another container gives [*this] a clone of
    the other's tree at fresh addresses and the other's count, destroys the
    nodes [*this] held before, and leaves the other's nodes alone.
    Assignment to itself does nothing. *)
Theorem copy_assign_clones s t u other :
  holds s t -> own s u -> obj_root other = root_of u ->
  (forall b, b ∈ addrs t -> b ∉ addrs u) ->
  copy_assign true other s = Ret tt s /\
  wp (copy_assign false other) s (fun _ s' =>
    exists u', holds s' u' /\ entries u' = entries u /\
      (forall b, b ∈ addrs u' -> (brk s <= b)%nat) /\
      own s' u /\
      nodeCount s' = obj_nodeCount other /\
      forall b : addr, (b < brk s)%nat ->
        mem s' !! b = if decide (b ∈ addrs t) then None else mem s !! b).
Proof.
  intros [Hroot Hown] Hu Ho Hdis. split; [done|].
  pose proof (own_depth _ _ Hown). pose proof (own_depth _ _ Hu).
  unfold copy_assign. apply wp_bind, wp_budget.
  apply wp_bind. rewrite Ho. eapply wp_mono.
  { apply (clone_spec u); [done|lia]. }
  intros x s1 (-> & Hown1 & Hb1 & Hr1 & Hn1 & Hm1).
  apply wp_bind, wp_get_root. apply wp_bind, wp_put_root.
  apply wp_bind, wp_budget. apply wp_bind.
  assert (forall b, (b < brk s)%nat -> b ∉ addrs (cloned (brk s) u)) as Hlow.
  { intros b Hb Hin. apply addrs_cloned in Hin. lia. }
  assert (own (set_root s1 (root_of (cloned (brk s) u))) t) as Hown1t.
  { apply own_root_state. eapply own_frame; [exact Hown|lia|].
    intros b Hb. apply Hm1, Hlow. exact (own_bound _ _ _ Hown Hb). }
  rewrite Hr1, Hroot. eapply wp_mono.
  { apply (release_spec t); [exact Hown1t|cbn [brk set_root]; lia]. }
  cbn [brk set_root nodeCount root mem].
  intros _ s2 (Hr2 & Hn2 & Hb2 & Hm2). apply wp_state.
  cbn [set_nodeCount root nodeCount mem brk].
  assert (forall b, b ∈ addrs (cloned (brk s) u) -> b ∉ addrs t) as Hct.
  { intros b Hb Hin. apply addrs_cloned in Hb.
    pose proof (own_bound _ _ _ Hown Hin). lia. }
  exists (cloned (brk s) u). split_and!.
  - split; [done|]. eapply (own_frame s1); [exact Hown1|cbn; lia|].
    intros b Hb. cbn [mem]. rewrite Hm2. by rewrite decide_False by auto.
  - symmetry. apply same_entries_list, same_entries_cloned.
  - intros b Hb. apply addrs_cloned in Hb. lia.
  - eapply (own_frame s); [exact Hu|cbn; lia|].
    intros b Hb. cbn [mem]. rewrite Hm2.
    rewrite decide_False by (intros Hin; by apply (Hdis b)).
    apply Hm1, Hlow. exact (own_bound _ _ _ Hu Hb).
  - done.
  - intros b Hb. rewrite Hm2. destruct (decide (b ∈ addrs t)); [done|].
    by apply Hm1, Hlow.
Qed.

(** X16: move assignment from another container hands [*this] the other's
    nodes themselves and the other's count and destroys the nodes [*this]
    held before; the other is left with a null root and the count it had.
    Assignment to itself does nothing. *)
Theorem move_assign_takes s t u other :
  holds s t -> own s u -> obj_root other = root_of u ->
  (forall b, b ∈ addrs t -> b ∉ addrs u) ->
  move_assign true other s = Ret other s /\
  wp (move_assign false other) s (fun other' s' =>
    other' = mkObj None (obj_nodeCount other) /\
    holds s' u /\
    nodeCount s' = obj_nodeCount other /\
    brk s' = brk s /\
    forall b : addr,
      mem s' !! b = if decide (b ∈ addrs t) then None else mem s !! b).
Proof.
  intros [Hroot Hown] Hu Ho Hdis. split; [done|].
  pose proof (own_depth _ _ Hown).
  unfold move_assign. apply wp_bind, wp_get_root. apply wp_bind, wp_put_root.
  apply wp_bind, wp_budget. apply wp_bind.
  rewrite Hroot. eapply wp_mono.
  { apply (release_spec t (S (brk s)) (set_root s (obj_root other)));
      [by apply own_root_state|cbn [brk set_root]; lia]. }
  cbn [brk set_root nodeCount root mem].
  intros _ s2 (Hr2 & Hn2 & Hb2 & Hm2). apply wp_bind, wp_state. apply wp_ret.
  cbn [set_nodeCount root nodeCount mem brk].
  split_and!; try done.
  split; [cbn [root set_nodeCount]; congruence|].
  eapply (own_frame s); [exact Hu|cbn; lia|].
  intros b Hb. cbn [mem]. rewrite Hm2.
  by rewrite decide_False by (intros Hin; by apply (Hdis b)).
Qed.

(** X17: [rotateRight] on a node with a left child makes that child the
    root of the subtree and the node its right child, hands the child's
    right subtree to the node, and recomputes the two stored heights, the
    node's first; the entries keep their order and no cell outside the
    subtree changes.  [rotateLeft] mirrors it. *)
Theorem rotations_keep_order s ay ax xl kx vx hx xr ky vy hy yr :
  (own s (T ay (T ax xl kx vx hx xr) ky vy hy yr) ->
   wp (rotateRight (Some ay)) s (fun x s' =>
     let hy' := 1 + Z.max (ht xr) (ht yr) in
     let t' := T ax xl kx vx (1 + Z.max (ht xl) hy') (T ay xr ky vy hy' yr) in
     x = Some ax /\ own s' t' /\
     entries t' = entries (T ay (T ax xl kx vx hx xr) ky vy hy yr) /\
     frame_eq (addrs t') s s')) /\
  (own s (T ax xl kx vx hx (T ay xr ky vy hy yr)) ->
   wp (rotateLeft (Some ax)) s (fun x s' =>
     let hx' := 1 + Z.max (ht xl) (ht xr) in
     let t' := T ay (T ax xl kx vx hx' xr) ky vy (1 + Z.max hx' (ht yr)) yr in
     x = Some ay /\ own s' t' /\
     entries t' = entries (T ax xl kx vx hx (T ay xr ky vy hy yr)) /\
     frame_eq (addrs t') s s')).
Proof.
  split; intros Hown.
  - eapply wp_mono; [by apply (rotateRight_spec s _ Hown)|].
    cbn [rotR upd ht root_of]. intros x s' (-> & Hown' & Hfr). cbn zeta.
    split_and!; try done.
    + cbn [entries]. by rewrite <- app_assoc.
    + eapply frame_eq_sub; [exact Hfr|]. intros b. cbn [addrs].
      rewrite !elem_of_cons, !elem_of_app, !elem_of_cons, ?elem_of_app. tauto.
  - eapply wp_mono; [by apply (rotateLeft_spec s _ Hown)|].
    cbn [rotL upd ht root_of]. intros x s' (-> & Hown' & Hfr). cbn zeta.
    split_and!; try done.
    + cbn [entries]. by rewrite <- app_assoc.
    + eapply frame_eq_sub; [exact Hfr|]. intros b. cbn [addrs].
      rewrite !elem_of_cons, !elem_of_app, !elem_of_cons, ?elem_of_app. tauto.
Qed.

(** X18: [balance] on a node whose subtrees satisfy the height invariant
    and differ in height by at most two returns a subtree that satisfies
    it, with the same entries in the same order; no cell outside the
    subtree changes. *)
Theorem balance_restores s a l k v h r :
  own s (T a l k v h r) -> avl l -> avl r -> -2 <= ht l - ht r <= 2 ->
  wp (balance (Some a)) s (fun x s' =>
    exists t', x = root_of t' /\ own s' t' /\ avl t' /\
      entries t' = entries (T a l k v h r) /\
      (addrs t' ≡ₚ addrs (T a l k v h r)) /\
      frame_eq (addrs (T a l k v h r)) s s').
Proof.
  intros Hown Hl Hr Hd.
  eapply wp_mono.
  { apply (balance_node_spec s a l k v h r Hown); by apply avl_hpos. }
  intros x s' (-> & Hown' & Hfr). exists (bal (T a l k v h r)).
  destruct (avl_bal a l k v h r Hl Hr Hd) as (Ha & _ & _).
  split_and!; try done.
  - apply entries_bal.
  - apply addrs_bal.
Qed.

End Lifetimes.

(** ** The further properties at integer keys *)

Section IntegerRuns.

Ltac strict_order :=
  first [exact Z.ltb_irrefl | exact Zltb_trans | exact Zltb_equiv_trans].

(* the cells of a store that is written out *)
Ltac cells :=
  repeat match goal with
  | |- _ /\ _ => split
  | |- True => exact I
  | |- (_ < _)%nat => cbn; lia
  | |- exists par, pv _ par /\ ?m !! ?a = _ =>
      let c := eval vm_compute in (m !! a) in
      lazymatch c with
      | Some ?nd => exists (parent nd); split; [cbn; try lia; done|vm_compute; reflexivity]
      end
  end.

Lemma left_chain_reached :
  run Z.ltb [OpPush 2 20; OpPush 1 10] empty_container = Ret tt left_chain.
Proof. vm_compute. reflexivity. Qed.

Lemma left_chain_own : own left_chain left_chain_tree.
Proof.
  split.
  - unfold left_chain, left_chain_tree. cbn [shape mem brk root_of].
    cells.
  - unfold left_chain_tree. cbn [addrs app].
    apply NoDup_cons_2; [|apply NoDup_singleton].
    rewrite list_elem_of_singleton. lia.
Qed.

Lemma left_chain_of_three_own : own left_chain_of_three left_chain_of_three_tree.
Proof.
  split.
  - unfold left_chain_of_three, left_chain_of_three_tree.
    cbn [shape mem brk root_of]. cells.
  - unfold left_chain_of_three_tree. cbn [addrs app].
    apply NoDup_cons_2.
    { rewrite !elem_of_cons, elem_of_nil. lia. }
    apply NoDup_cons_2; [|apply NoDup_singleton].
    rewrite list_elem_of_singleton. lia.
Qed.

(** The chain is the state in which the third push calls [balance] at the
    root: the new node has been attached below key 2 and the subtree put
    back as the root's left child. *)
Lemma left_chain_of_three_reached :
  bind (run Z.ltb [OpPush 3 30; OpPush 2 20]) (fun _ =>
  bind (put_root None) (fun _ =>
  bind (load (Some 0%nat)) (fun nd =>
  bind (insert_node Z.ltb 10 (left nd) 1 10 (Some 0%nat)) (fun l =>
  set_left (Some 0%nat) l)))) empty_container
  = Ret tt left_chain_of_three.
Proof. vm_compute. reflexivity. Qed.

(** [balance] at the root of the chain rotates: key 2 becomes the root, with
    keys 1 and 3 below it. *)
Lemma balance_rotates_chain :
  wp (balance (Some 0%nat)) left_chain_of_three (fun x s' =>
    x = Some 1%nat /\
    own s' (T 1%nat (T 2%nat E 1 10 1 E) 2 20 2 (T 0%nat E 3 30 1 E))).
Proof.
  eapply wp_mono.
  { apply (balance_node_spec left_chain_of_three
             0%nat (T 1%nat (T 2%nat E 1 10 1 E) 2 20 2 E) 3 30 2 E);
      [exact left_chain_of_three_own|cbn; lia|exact I]. }
  intros x s' (-> & Hown & _). split; [reflexivity|]. exact Hown.
Qed.

(** [equalRange] on a container of four entries: a key beyond the last
    entry gives the empty range at the end, a stored key the range of its
    one entry. *)
Lemma equalRange_beyond_last :
  wp (run Z.ltb [OpPush 1 10; OpPush 2 20; OpPush 3 30; OpPush 4 40])
    empty_container (fun _ s =>
    observe (equalRange Z.ltb 100 s) = Ret (None, None) tt /\
    observe (equalRange Z.ltb 2 s) = Ret (Some 1%nat, Some 2%nat) tt).
Proof. eexists _, _. split; [vm_compute; reflexivity|]. by vm_compute. Qed.

Lemma two_containers_this : holds two_containers (T 0%nat E 1 10 1 E).
Proof.
  split; [reflexivity|]. split.
  - unfold two_containers. cbn [shape mem brk root_of].
    cells.
  - apply NoDup_singleton.
Qed.

Lemma two_containers_other : own two_containers (T 1%nat E 2 20 1 E).
Proof.
  split.
  - unfold two_containers. cbn [shape mem brk root_of].
    cells.
  - apply NoDup_singleton.
Qed.

Lemma push_present_assigns_witness :
  wp (run Z.ltb [OpPush 1 10]) empty_container (fun _ s =>
    exists t, holds s t /\
    forall key value e, entry_under Z.ltb key (entries t) = Some e ->
      wp (push Z.ltb key value) s (fun _ s' =>
        exists t', holds s' t' /\
          entries t' = map (assign Z.ltb key value) (entries t) /\
          entry_under Z.ltb key (entries t') = Some (fst e, value) /\
          nodeCount s' = nodeCount s)).
Proof. apply (push_present_assigns Z.ltb); strict_order. Defined.

Lemma push_absent_adds_witness :
  wp (run Z.ltb [OpPush 1 10]) empty_container (fun _ s =>
    exists t, holds s t /\
    forall key value, entry_under Z.ltb key (entries t) = None ->
      wp (push Z.ltb key value) s (fun _ s' =>
        exists t', holds s' t' /\
          (entries t' ≡ₚ (key, value) :: entries t) /\
          entry_under Z.ltb key (entries t') = Some (key, value) /\
          nodeCount s' = size_incr (nodeCount s))).
Proof. apply (push_absent_adds Z.ltb); strict_order. Defined.

Lemma erase_removes_witness :
  wp (run Z.ltb [OpPush 1 10; OpPush 2 20]) empty_container (fun _ s =>
    exists t, holds s t /\
    forall key,
      wp (erase Z.ltb key) s (fun _ s' =>
        exists t', holds s' t' /\
          entries t' = filter (fun e => under Z.ltb key e = false) (entries t) /\
          nodeCount s' = nodeCount s)).
Proof. apply (erase_removes Z.ltb); strict_order. Defined.

Lemma push_other_keys_witness :
  wp (run Z.ltb [OpPush 2 20]) empty_container (fun _ s =>
    wp (push Z.ltb 1 10) s (fun _ s' =>
      observe (index_const Z.ltb 2 s') = observe (index_const Z.ltb 2 s))).
Proof.
  apply (push_other_keys Z.ltb); first [strict_order | reflexivity].
Defined.

Lemma erase_other_keys_witness :
  wp (run Z.ltb [OpPush 2 20; OpPush 1 10]) empty_container (fun _ s =>
    wp (erase Z.ltb 1) s (fun _ s' =>
      observe (index_const Z.ltb 2 s') = observe (index_const Z.ltb 2 s))).
Proof.
  apply (erase_other_keys Z.ltb); first [strict_order | reflexivity].
Defined.

Lemma store_is_tree_witness :
  wp (run Z.ltb [OpPush 1 10; OpPush 2 20; OpErase 1]) empty_container
    (fun _ s =>
    exists t, holds s t /\
    forall b : addr, is_Some (mem s !! b) <-> b ∈ addrs t).
Proof. apply (store_is_tree Z.ltb). reflexivity. Defined.

Lemma height_logarithmic_witness :
  wp (run Z.ltb [OpPush 1 10; OpPush 2 20; OpPush 3 30]) empty_container
    (fun _ s =>
    exists t, holds s t /\
    height_of (root s) s = Ret (Z.of_nat (depth t)) s /\
    forall n : nat, (2 * n <= depth t)%nat ->
      2 ^ Z.of_nat n <= Z.of_nat (length (entries t)) + 1).
Proof. apply (height_logarithmic Z.ltb). reflexivity. Defined.

Lemma size_without_erase_witness :
  wp (run Z.ltb [OpPush 1 10; OpPush 1 11; OpCopy; OpPush 2 20])
    empty_container (fun _ s =>
    exists t, holds s t /\
    size s = Ret (Z.of_nat (length (entries t)) mod size_max) s).
Proof. apply (size_without_erase Z.ltb). reflexivity. Defined.

Lemma heights_without_copy_witness :
  wp (run Z.ltb [OpPush 1 10; OpPush 2 20; OpPush 3 30; OpErase 2])
    empty_container (fun _ s => exists t, holds s t /\ avl t).
Proof. apply (heights_without_copy Z.ltb). reflexivity. Defined.

Lemma index_const_reads_witness :
  wp (run Z.ltb [OpPush 1 10]) empty_container (fun _ s =>
    exists t, holds s t /\
    forall key,
      index_const Z.ltb key s =
        match entry_under Z.ltb key (entries t) with
        | Some e => Ret (snd e) s
        | None => Throw KeyNotFound s
        end).
Proof. apply (index_const_reads Z.ltb); strict_order. Defined.

Lemma find_position_witness :
  wp (run Z.ltb [OpPush 1 10]) empty_container (fun _ s =>
    exists t, holds s t /\
    forall key,
      match entry_under Z.ltb key (entries t) with
      | Some e => exists a nd, find Z.ltb key s = Ret (Some a) s /\
                               mem s !! a = Some nd /\ data nd = e
      | None => find Z.ltb key s = Ret None s
      end).
Proof. apply (find_position Z.ltb); strict_order. Defined.

Lemma count_one_or_zero_witness :
  wp (run Z.ltb [OpPush 1 10]) empty_container (fun _ s =>
    exists t, holds s t /\
    forall key,
      count Z.ltb key s =
        Ret (match entry_under Z.ltb key (entries t) with
             | Some _ => 1
             | None => 0
             end) s).
Proof. apply (count_one_or_zero Z.ltb); strict_order. Defined.

Lemma begin_first_witness :
  wp (run Z.ltb [OpPush 2 20; OpPush 1 10]) empty_container (fun _ s =>
    exists t, holds s t /\
    match entries t with
    | [] => begin_ s = Ret None s
    | e :: _ => exists a nd, begin_ s = Ret (Some a) s /\
                             mem s !! a = Some nd /\ data nd = e
    end).
Proof. apply (begin_first Z.ltb); strict_order. Defined.

Lemma clear_frees_all_witness :
  wp clear one_entry (fun _ s' =>
    destructor one_entry = Ret tt s' /\
    root s' = None /\ size s' = Ret 0 s' /\ empty s' = Ret true s' /\
    brk s' = brk one_entry /\
    forall b : addr,
      mem s' !! b =
        if decide (b ∈ addrs one_entry_tree) then None else mem one_entry !! b).
Proof. apply (clear_frees_all one_entry one_entry_tree). exact one_entry_holds. Defined.

Lemma copy_assign_clones_witness :
  wp (copy_assign false other_container) two_containers (fun _ s' =>
    exists u', holds s' u' /\ entries u' = [(2, 20)] /\
      (forall b, b ∈ addrs u' -> (2 <= b)%nat) /\
      own s' (T 1%nat E 2 20 1 E) /\
      nodeCount s' = 1 /\
      forall b : addr, (b < 2)%nat ->
        mem s' !! b =
          if decide (b ∈ [0%nat]) then None else mem two_containers !! b).
Proof.
  apply (copy_assign_clones two_containers (T 0%nat E 1 10 1 E)
           (T 1%nat E 2 20 1 E) other_container).
  - exact two_containers_this.
  - exact two_containers_other.
  - reflexivity.
  - intros b Hb Hb'. cbn in Hb, Hb'.
    apply list_elem_of_singleton in Hb, Hb'. lia.
Defined.

Lemma move_assign_takes_witness :
  wp (move_assign false other_container) two_containers (fun other' s' =>
    other' = mkObj None 1 /\
    holds s' (T 1%nat E 2 20 1 E) /\
    nodeCount s' = 1 /\
    brk s' = 2%nat /\
    forall b : addr,
      mem s' !! b =
        if decide (b ∈ [0%nat]) then None else mem two_containers !! b).
Proof.
  apply (move_assign_takes two_containers (T 0%nat E 1 10 1 E)
           (T 1%nat E 2 20 1 E) other_container).
  - exact two_containers_this.
  - exact two_containers_other.
  - reflexivity.
  - intros b Hb Hb'. cbn in Hb, Hb'.
    apply list_elem_of_singleton in Hb, Hb'. lia.
Defined.

Lemma rotations_keep_order_witness :
  wp (rotateRight (Some 0%nat)) left_chain (fun x s' =>
    x = Some 1%nat /\
    own s' (T 1%nat E 1 10 2 (T 0%nat E 2 20 1 E)) /\
    [(1, 10); (2, 20)] = [(1, 10); (2, 20)] /\
    frame_eq [1%nat; 0%nat] left_chain s').
Proof.
  apply (proj1 (rotations_keep_order left_chain 0%nat 1%nat E 1 10 1 E 2 20 2 E)).
  exact left_chain_own.
Defined.

Lemma balance_restores_witness :
  ht (T 1%nat (T 2%nat E 1 10 1 E) 2 20 2 E) - ht (@E Z Z) = 2 /\
  wp (balance (Some 0%nat)) left_chain_of_three (fun x s' =>
    exists t', x = root_of t' /\ own s' t' /\ avl t' /\
      entries t' = entries left_chain_of_three_tree /\
      (addrs t' ≡ₚ addrs left_chain_of_three_tree) /\
      frame_eq (addrs left_chain_of_three_tree) left_chain_of_three s').
Proof.
  split; [reflexivity|].
  apply (balance_restores left_chain_of_three
           0%nat (T 1%nat (T 2%nat E 1 10 1 E) 2 20 2 E) 3 30 2 E).
  - exact left_chain_of_three_own.
  - cbn. lia.
  - exact I.
  - cbn. lia.
Defined.

End IntegerRuns.
